(** * LLM Billiards: the physics and turn engine of [main.py]

    A shallow embedding of [src/main.py].  Python floats are read as real
    numbers ([R]): rounding, infinities and NaN are outside the model.  The
    [math] functions used by the program ([hypot], [atan2], [degrees],
    [radians], [cos], [sin]) are given by their mathematical definitions.
    Ball objects live in a store indexed by object identity, and the list
    [balls] of the program is a list of references into that store, so that
    the aliasing between [cue_ball], [balls] and [removed_balls] is kept. *)

From Stdlib Require Import Reals Lra Lia List Bool Arith ZArith.
From Stdlib Require Import Ascii String.
Import ListNotations.

Open Scope R_scope.

(** ** Numbers *)

Definition Rltb (a b : R) : bool := if Rlt_dec a b then true else false.
Definition Rleb (a b : R) : bool := if Rle_dec a b then true else false.
Definition Rgtb (a b : R) : bool := Rltb b a.
Definition Reqb (a b : R) : bool := if Req_dec_T a b then true else false.

(** [math.hypot], [math.degrees], [math.radians], [math.atan2]. *)
Definition hypot (a b : R) : R := sqrt (a * a + b * b).
Definition degrees (r : R) : R := r * 180 / PI.
Definition radians (d : R) : R := d * PI / 180.

Definition atan2 (dy dx : R) : R :=
  if Rltb 0 dx then atan (dy / dx)
  else if Rltb dx 0 then
         if Rleb 0 dy then atan (dy / dx) + PI else atan (dy / dx) - PI
  else if Rltb 0 dy then PI / 2
  else if Rltb dy 0 then - (PI / 2)
  else 0.

(** ** Constants of the program *)

Definition WIDTH : R := 800.
Definition HEIGHT : R := 400.
Definition BALL_RADIUS : R := 12.
Definition POCKET_RADIUS : R := 25.
Definition FRICTION : R := 0.98.
Definition MAX_SHOTS : nat := 10.

Definition Color : Type := (Z * Z * Z)%type.
Definition GREEN : Color := (34, 139, 34)%Z.
Definition WHITE : Color := (255, 255, 255)%Z.
Definition BLACK : Color := (0, 0, 0)%Z.
Definition RED : Color := (220, 20, 60)%Z.
Definition BLUE : Color := (30, 144, 255)%Z.
Definition YELLOW : Color := (255, 215, 0)%Z.
Definition MAGENTA : Color := (255, 0, 255)%Z.
Definition CYAN : Color := (0, 255, 255)%Z.

(** ** class Ball *)

Record Ball : Type := mkBall {
  x : R;
  y : R;
  vx : R;
  vy : R;
  color : Color;
  is_cue : bool;
  is_black : bool
}.

(** [Ball.__init__]: the velocity starts at zero. *)
Definition Ball_init (x0 y0 : R) (c : Color) (cue black : bool) : Ball :=
  mkBall x0 y0 0 0 c cue black.

(** Attribute assignments [self.f = v]. *)
Definition set_x (b : Ball) (v : R) : Ball :=
  mkBall v (y b) (vx b) (vy b) (color b) (is_cue b) (is_black b).
Definition set_y (b : Ball) (v : R) : Ball :=
  mkBall (x b) v (vx b) (vy b) (color b) (is_cue b) (is_black b).
Definition set_vx (b : Ball) (v : R) : Ball :=
  mkBall (x b) (y b) v (vy b) (color b) (is_cue b) (is_black b).
Definition set_vy (b : Ball) (v : R) : Ball :=
  mkBall (x b) (y b) (vx b) v (color b) (is_cue b) (is_black b).

(** [Ball.update]: move, apply friction, then reflect on the table edges,
    the two axes one after the other. *)
Definition update (self : Ball) : Ball :=
  let self := set_x self (x self + vx self) in
  let self := set_y self (y self + vy self) in
  let self := set_vx self (vx self * FRICTION) in
  let self := set_vy self (vy self * FRICTION) in
  let self :=
    if Rltb (x self - BALL_RADIUS) 0 then
      let self := set_x self BALL_RADIUS in
      set_vx self (- vx self)
    else if Rgtb (x self + BALL_RADIUS) WIDTH then
      let self := set_x self (WIDTH - BALL_RADIUS) in
      set_vx self (- vx self)
    else self in
  if Rltb (y self - BALL_RADIUS) 0 then
    let self := set_y self BALL_RADIUS in
    set_vy self (- vy self)
  else if Rgtb (y self + BALL_RADIUS) HEIGHT then
    let self := set_y self (HEIGHT - BALL_RADIUS) in
    set_vy self (- vy self)
  else self.

(** [Ball.is_moving]. *)
Definition is_moving (self : Ball) : bool :=
  Rgtb (Rabs (vx self)) 0.05 || Rgtb (Rabs (vy self)) 0.05.

(** The wall-containment invariant of a ball. *)
Definition in_table (b : Ball) : Prop :=
  BALL_RADIUS <= x b <= WIDTH - BALL_RADIUS /\
  BALL_RADIUS <= y b <= HEIGHT - BALL_RADIUS.

(** The position and velocity on the [x] axis after one update depend on
    the [x] axis only, by three cases. *)
Definition x_axis_step (b b' : Ball) : Prop :=
  (x b + vx b - BALL_RADIUS < 0 ->
   x b' = BALL_RADIUS /\ vx b' = - (vx b * FRICTION)) /\
  (~ x b + vx b - BALL_RADIUS < 0 -> x b + vx b + BALL_RADIUS > WIDTH ->
   x b' = WIDTH - BALL_RADIUS /\ vx b' = - (vx b * FRICTION)) /\
  (~ x b + vx b - BALL_RADIUS < 0 -> ~ x b + vx b + BALL_RADIUS > WIDTH ->
   x b' = x b + vx b /\ vx b' = vx b * FRICTION).

Definition y_axis_step (b b' : Ball) : Prop :=
  (y b + vy b - BALL_RADIUS < 0 ->
   y b' = BALL_RADIUS /\ vy b' = - (vy b * FRICTION)) /\
  (~ y b + vy b - BALL_RADIUS < 0 -> y b + vy b + BALL_RADIUS > HEIGHT ->
   y b' = HEIGHT - BALL_RADIUS /\ vy b' = - (vy b * FRICTION)) /\
  (~ y b + vy b - BALL_RADIUS < 0 -> ~ y b + vy b + BALL_RADIUS > HEIGHT ->
   y b' = y b + vy b /\ vy b' = vy b * FRICTION).

(** One update reflects on neither axis. *)
Definition no_reflection (b : Ball) : Prop :=
  (~ x b + vx b - BALL_RADIUS < 0) /\ (~ x b + vx b + BALL_RADIUS > WIDTH) /\
  (~ y b + vy b - BALL_RADIUS < 0) /\ (~ y b + vy b + BALL_RADIUS > HEIGHT).

(** ** Exceptions

    Code that can raise returns a [result]; [Raise] carries the exception. *)

Inductive exn : Type :=
| ZeroDivisionError
| IndexError
| ValueError
| RequestException.

Inductive result (A : Type) : Type :=
| Ok (a : A)
| Raise (e : exn).

Arguments Ok {A} a.
Arguments Raise {A} e.

Definition bind {A B : Type} (m : result A) (k : A -> result B) : result B :=
  match m with
  | Ok a => k a
  | Raise e => Raise e
  end.

Notation "v <- m ;; k" := (bind m (fun v => k))
  (at level 61, m at next level, right associativity).

(** Float division [a / b]: raises on a zero divisor. *)
Definition div (a b : R) : result R :=
  if Reqb b 0 then Raise ZeroDivisionError else Ok (a / b).

(** [l[i]] for a non-negative index. *)
Definition getitem {A : Type} (l : list A) (i : nat) : result A :=
  match nth_error l i with
  | Some a => Ok a
  | None => Raise IndexError
  end.

(** [range(lo, hi)] and a [for] loop over a list of values, threading the
    state and stopping at the first exception. *)
Definition range (lo hi : nat) : list nat := seq lo (hi - lo).

Fixpoint for_each {K S : Type} (ks : list K) (body : K -> S -> result S) (s : S)
  : result S :=
  match ks with
  | [] => Ok s
  | k :: ks' => s' <- body k s ;; for_each ks' body s'
  end.

(** ** The store of ball objects

    A reference is the identity of a [Ball] object; the store gives the
    current attributes of every object. *)

Definition ref : Type := nat.
Definition Store : Type := ref -> Ball.

Definition store_set (h : Store) (r : ref) (b : Ball) : Store :=
  fun r' => if Nat.eqb r' r then b else h r'.

(** Attribute assignments [b.f = v] on the object [b] of the store. *)
Definition setattr_x (h : Store) (b : ref) (v : R) : Store :=
  store_set h b (set_x (h b) v).
Definition setattr_y (h : Store) (b : ref) (v : R) : Store :=
  store_set h b (set_y (h b) v).
Definition setattr_vx (h : Store) (b : ref) (v : R) : Store :=
  store_set h b (set_vx (h b) v).
Definition setattr_vy (h : Store) (b : ref) (v : R) : Store :=
  store_set h b (set_vy (h b) v).

(** ** handle_collisions *)

(** The distance used by the collision response: [math.hypot(dx, dy)], with
    [0.001] in its place when it is zero. *)
Definition guarded_dist (dx dy : R) : R :=
  let dist := hypot dx dy in
  if Reqb dist 0 then 0.001 else dist.

(** The body of the inner loop, for the index pair [(i, j)]. *)
Definition collide (balls : list ref) (i j : nat) (h : Store) : result Store :=
  b1 <- getitem balls i ;;
  b2 <- getitem balls j ;;
  let dx := x (h b2) - x (h b1) in
  let dy := y (h b2) - y (h b1) in
  let dist := guarded_dist dx dy in
  if Rltb dist (2 * BALL_RADIUS) then
    let overlap := 2 * BALL_RADIUS - dist in
    qx <- div dx dist ;;
    let push_x := qx * (overlap / 2) in
    qy <- div dy dist ;;
    let push_y := qy * (overlap / 2) in
    let h := setattr_x h b1 (x (h b1) - push_x) in
    let h := setattr_y h b1 (y (h b1) - push_y) in
    let h := setattr_x h b2 (x (h b2) + push_x) in
    let h := setattr_y h b2 (y (h b2) + push_y) in
    nx <- div dx dist ;;
    ny <- div dy dist ;;
    let vn1 := vx (h b1) * nx + vy (h b1) * ny in
    let vn2 := vx (h b2) * nx + vy (h b2) * ny in
    let h := setattr_vx h b1 (vx (h b1) + (vn2 - vn1) * nx) in
    let h := setattr_vy h b1 (vy (h b1) + (vn2 - vn1) * ny) in
    let h := setattr_vx h b2 (vx (h b2) + (vn1 - vn2) * nx) in
    let h := setattr_vy h b2 (vy (h b2) + (vn1 - vn2) * ny) in
    Ok h
  else Ok h.

Definition handle_collisions (balls : list ref) (h : Store) : result Store :=
  for_each (range 0 (List.length balls))
    (fun i => for_each (range (i + 1) (List.length balls)) (fun j => collide balls i j))
    h.

(** The sums of the velocity components over a list of distinct objects. *)
Definition sum_over (f : Ball -> R) (h : Store) (l : list ref) : R :=
  fold_right (fun r acc => f (h r) + acc) 0 l.
Definition sum_vx : Store -> list ref -> R := sum_over vx.
Definition sum_vy : Store -> list ref -> R := sum_over vy.

(** The components of a ball's velocity along a direction [(nx, ny)] and
    across it. *)
Definition normal_part (h : Store) (b : ref) (nx ny : R) : R :=
  vx (h b) * nx + vy (h b) * ny.
Definition tangent_part (h : Store) (b : ref) (nx ny : R) : R :=
  vy (h b) * nx - vx (h b) * ny.

(** The ball objects that occur in [balls], each once. *)
Definition objects (balls : list ref) : list ref := nodup Nat.eq_dec balls.

(** ** Helpers: angle and distance *)

Definition angle_degrees (x1 y1 x2 y2 : R) : R :=
  let dx := x2 - x1 in
  let dy := y2 - y1 in
  degrees (atan2 dy dx).

Definition distance (x1 y1 x2 y2 : R) : R :=
  hypot (x2 - x1) (y2 - y1).

(** ** The regular expression of [call_llm]

    Text is a sequence of characters with code points below 256.  The
    pattern of [call_llm] is a sequence of literal characters, greedy
    starred classes and capturing groups of a greedy class-plus; the matcher
    tries the longest repetition first and backtracks, as [re] does. *)

Inductive re_item : Type :=
| Lit (c : ascii)
| Star (cls : ascii -> bool)
| GroupPlus (cls : ascii -> bool).

Definition code_in (c : ascii) (lo hi : nat) : bool :=
  (lo <=? nat_of_ascii c)%nat && (nat_of_ascii c <=? hi)%nat.

(** [\s] on text: tab to carriage return, the four separators 28..31,
    space, and the two blanks 133 and 160. *)
Definition is_space (c : ascii) : bool :=
  code_in c 9 13 || code_in c 28 32 || code_in c 133 133 || code_in c 160 160.

(** [\d] below 256 is [0-9]. *)
Definition is_digit (c : ascii) : bool := code_in c 48 57.

(** The class [[\-\d\.]]. *)
Definition is_numchar (c : ascii) : bool :=
  Ascii.eqb c "-" || is_digit c || Ascii.eqb c ".".

Definition dquote : ascii := "034".

Definition lits (s : string) : list re_item :=
  map Lit (list_ascii_of_string s).

(** [\{\s*"angle_degrees"\s*:\s*([\-\d\.]+)\s*,\s*"power"\s*:\s*([\-\d\.]+)\s*\}] *)
Definition shot_pattern : list re_item :=
  [Lit "{"; Star is_space; Lit dquote] ++ lits "angle_degrees"
  ++ [Lit dquote; Star is_space; Lit ":"; Star is_space; GroupPlus is_numchar;
      Star is_space; Lit ","; Star is_space; Lit dquote] ++ lits "power"
  ++ [Lit dquote; Star is_space; Lit ":"; Star is_space; GroupPlus is_numchar;
      Star is_space; Lit "}"].

(** Match the pattern at the start of the text; the result is the list of
    the captured groups. *)
Fixpoint match_here (p : list re_item) (s : list ascii) {struct p}
  : option (list (list ascii)) :=
  match p with
  | [] => Some []
  | Lit c :: p' =>
      match s with
      | c' :: s' => if Ascii.eqb c c' then match_here p' s' else None
      | [] => None
      end
  | Star cls :: p' =>
      (fix star (s : list ascii) : option (list (list ascii)) :=
         match s with
         | c :: s' =>
             if cls c then
               match star s' with
               | Some g => Some g
               | None => match_here p' s
               end
             else match_here p' s
         | [] => match_here p' s
         end) s
  | GroupPlus cls :: p' =>
      match s with
      | c :: s' =>
          if cls c then
            match
              (fix plus (s : list ascii) : option (list ascii * list (list ascii)) :=
                 let stop := match match_here p' s with
                             | Some g => Some ([], g)
                             | None => None
                             end in
                 match s with
                 | d :: s'' =>
                     if cls d then
                       match plus s'' with
                       | Some (cap, g) => Some (d :: cap, g)
                       | None => stop
                       end
                     else stop
                 | [] => stop
                 end) s'
            with
            | Some (cap, g) => Some ((c :: cap) :: g)
            | None => None
            end
          else None
      | [] => None
      end
  end.

(** [re.search]: the match at the leftmost position that has one. *)
Fixpoint re_search (p : list re_item) (s : list ascii) : option (list (list ascii)) :=
  match match_here p s with
  | Some g => Some g
  | None =>
      match s with
      | [] => None
      | _ :: s' => re_search p s'
      end
  end.

(** ** [float] of a captured group

    A group holds only ['-'], digits and ['.'].  On such text [float]
    accepts an optional sign and then digits with at most one point and at
    least one digit, and raises [ValueError] on anything else.  The parsed
    literal is kept as mantissa and number of decimals. *)

Fixpoint span_digits (s : list ascii) : list ascii * list ascii :=
  match s with
  | c :: s' =>
      if is_digit c then let '(ds, rest) := span_digits s' in (c :: ds, rest)
      else ([], s)
  | [] => ([], [])
  end.

Definition digit_val (c : ascii) : Z := Z.of_nat (nat_of_ascii c - 48).

Definition digits_val (ds : list ascii) : Z :=
  fold_left (fun acc c => (acc * 10 + digit_val c)%Z) ds 0%Z.

Definition parse_unsigned (s : list ascii) : result (Z * nat) :=
  let '(ip, rest) := span_digits s in
  match rest with
  | [] =>
      match ip with
      | [] => Raise ValueError
      | _ => Ok (digits_val ip, 0%nat)
      end
  | c :: fr =>
      if Ascii.eqb c "." then
        let '(fp, rest') := span_digits fr in
        match rest', (ip ++ fp)%list with
        | [], _ :: _ => Ok (digits_val (ip ++ fp), List.length fp)
        | _, _ => Raise ValueError
        end
      else Raise ValueError
  end.

Definition parse_decimal (s : list ascii) : result (Z * nat) :=
  match s with
  | c :: s' =>
      if Ascii.eqb c "-" then
        d <- parse_unsigned s' ;; Ok ((- fst d)%Z, snd d)
      else parse_unsigned s
  | [] => Raise ValueError
  end.

Definition decimal_value (d : Z * nat) : R :=
  IZR (fst d) / IZR (10 ^ Z.of_nat (snd d)).

Definition float (s : list ascii) : result R :=
  d <- parse_decimal s ;; Ok (decimal_value d).

(** Float [a % m]: the result has the sign of [m]. *)
Definition float_mod (a m : R) : result R :=
  if Reqb m 0 then Raise ZeroDivisionError
  else Ok (a - IZR (Zfloor (a / m)) * m).

(** ** call_llm

    The reply of the advisor stands for everything up to the text
    [content]: the request, the JSON body and the path into it.  Any
    exception there is a [Raise]; otherwise the reply is the text. *)

Definition Reply : Type := result string.

Definition angle_power_ok (angle_deg power_val : R) : bool :=
  Rleb 0 angle_deg && Rltb angle_deg 360 && (Rleb 0 power_val && Rleb power_val 15).

(** The body of the [try] block, from the regex search on. *)
Definition call_llm_try (reply : Reply) (fallback_angle : R) : result (R * R) :=
  content <- reply ;;
  match re_search shot_pattern (list_ascii_of_string content) with
  | None => Ok (fallback_angle, 8)
  | Some groups =>
      match groups with
      | [angle_str; power_str] =>
          angle_deg <- float angle_str ;;
          power_val <- float power_str ;;
          angle_deg <- float_mod angle_deg 360 ;;
          if negb (Rleb 0 angle_deg && Rltb angle_deg 360)
             || negb (Rleb 0 power_val && Rleb power_val 15)
          then Ok (fallback_angle, 8)
          else Ok (angle_deg, power_val)
      | _ => Raise ValueError
      end
  end.

(** [call_llm]: [except Exception] turns every exception into the fallback. *)
Definition call_llm (reply : Reply) (fallback_angle : R) : R * R :=
  match call_llm_try reply fallback_angle with
  | Ok shot => shot
  | Raise _ => (fallback_angle, 8)
  end.

(** The reading of a reply that the validation contract speaks of: the
    pair of numbers found in the text, the angle taken modulo 360; [None]
    when the call failed, no match was found or a number did not parse. *)
Definition parsed_shot (reply : Reply) : option (R * R) :=
  match reply with
  | Raise _ => None
  | Ok content =>
      match re_search shot_pattern (list_ascii_of_string content) with
      | Some [angle_str; power_str] =>
          match float angle_str, float power_str with
          | Ok a, Ok p => Some (a - IZR (Zfloor (a / 360)) * 360, p)
          | _, _ => None
          end
      | _ => None
      end
  end.

(** The contract in the words of the specification. *)
Definition validated_shot (reply : Reply) (fallback_angle : R) : R * R :=
  match parsed_shot reply with
  | Some (a, p) => if angle_power_ok a p then (a, p) else (fallback_angle, 8)
  | None => (fallback_angle, 8)
  end.

(** The reply [{"angle_degrees": 400, "power": 5}]. *)
Definition response_400_5 : string :=
  String "{" (String dquote ("angle_degrees" ++ String dquote (": 400, "
    ++ String dquote ("power" ++ String dquote ": 5}")))).

(** ** main: the session state *)

(** [a // b] on integer-valued operands. *)
Definition floordiv (a b : R) : R := IZR (Zfloor (a / b)).

Definition pockets : list (R * R) :=
  [(0, 0); (WIDTH, 0); (0, HEIGHT); (WIDTH, HEIGHT)].

(** [fallback_target_color]: ["black"], [str(color)] or ["???"]. *)
Inductive TargetColor : Type :=
| TBlack
| TRgb (c : Color)
| TUnknown.

(** What [build_prompt_for_llm] is given; the text it renders from these
    is left abstract, the advisor being a function of it. *)
Record Prompt : Type := mkPrompt {
  p_cue_ball : Ball;
  p_all_balls : list Ball;
  p_pockets : list (R * R);
  p_shots_taken : nat;
  p_fallback_angle : R;
  p_fallback_target_color : TargetColor
}.

Definition build_prompt_for_llm := mkPrompt.

Definition MSG_WIN : string := "Black ball potted! AI wins!".
Definition MSG_LOSE : string := "No more shots. Black ball remains. AI loses!".
Definition MSG_CLEARED : string := "All balls cleared or black ball potted earlier.".

(** The variables of [main] that the loop reads and writes.  [llm_log] is
    a ghost field: the prompts sent to the advisor so far. *)
Record State : Type := mkState {
  store : Store;
  balls : list ref;
  cue_ball : ref;
  shots_taken : nat;
  game_over : bool;
  win_message : option string;
  llm_log : list Prompt
}.

Definition set_store (s : State) (h : Store) : State :=
  mkState h (balls s) (cue_ball s) (shots_taken s) (game_over s) (win_message s) (llm_log s).
Definition set_balls (s : State) (l : list ref) : State :=
  mkState (store s) l (cue_ball s) (shots_taken s) (game_over s) (win_message s) (llm_log s).
Definition set_shots_taken (s : State) (n : nat) : State :=
  mkState (store s) (balls s) (cue_ball s) n (game_over s) (win_message s) (llm_log s).
Definition set_game_over (s : State) (g : bool) : State :=
  mkState (store s) (balls s) (cue_ball s) (shots_taken s) g (win_message s) (llm_log s).
Definition set_win_message (s : State) (m : option string) : State :=
  mkState (store s) (balls s) (cue_ball s) (shots_taken s) (game_over s) m (llm_log s).
Definition set_llm_log (s : State) (l : list Prompt) : State :=
  mkState (store s) (balls s) (cue_ball s) (shots_taken s) (game_over s) (win_message s) l.

(** The state before the loop.  [randint k] is the [k]-th value drawn by
    [random.randint(-40, 40)]. *)
Definition colors : list Color := [RED; BLUE; YELLOW; MAGENTA; CYAN].

Definition initial_store (randint : nat -> Z) : Store :=
  fun r =>
    match r with
    | O => Ball_init (floordiv WIDTH 4) (floordiv HEIGHT 2) WHITE true false
    | S O => Ball_init (floordiv (3 * WIDTH) 4) (floordiv HEIGHT 2) BLACK false true
    | S (S k) =>
        Ball_init (floordiv (3 * WIDTH) 4 + IZR (randint (2 * k)%nat))
                  (floordiv HEIGHT 2 + IZR (randint (2 * k + 1)%nat))
                  (nth k colors WHITE) false false
    end.

Definition initial_state (randint : nat -> Z) : State :=
  mkState (initial_store randint) (seq 0 (2 + List.length colors)) 0%nat 0%nat false None [].

(** ** main: one pass of the loop *)

(** Step 1: [for b in balls: b.update()]. *)
Definition update_all (h : Store) (balls : list ref) : Store :=
  fold_left (fun h b => store_set h b (update (h b))) balls h.

(** Step 3, the body of the inner loop for ball [b] and one pocket. *)
Definition check_pocket (b : ref) (acc : State * list ref) (pocket : R * R)
  : State * list ref :=
  let '(s, removed_balls) := acc in
  let '(px, py) := pocket in
  let distp := distance (x (store s b)) (y (store s b)) px py in
  if Rltb distp POCKET_RADIUS then
    if is_black (store s b) then
      let s := set_game_over s true in
      let s := set_win_message s (Some MSG_WIN) in
      (s, removed_balls)
    else if is_cue (store s b) then
      let h := store s in
      let h := setattr_x h b (floordiv WIDTH 4) in
      let h := setattr_y h b (floordiv HEIGHT 2) in
      let h := setattr_vx h b 0 in
      let h := setattr_vy h b 0 in
      (set_store s h, removed_balls)
    else (s, (removed_balls ++ [b])%list)
  else acc.

Definition check_ball (acc : State * list ref) (b : ref) : State * list ref :=
  fold_left (check_pocket b) pockets acc.

Definition check_pockets (s : State) : State * list ref :=
  fold_left check_ball (balls s) (s, []).

(** [balls.remove(rb)]: drop the first occurrence. *)
Fixpoint list_remove (rb : ref) (l : list ref) : list ref :=
  match l with
  | [] => []
  | r :: l' => if Nat.eqb rb r then l' else r :: list_remove rb l'
  end.

(** [for rb in removed_balls: if rb in balls: balls.remove(rb)]. *)
Definition remove_balls (removed_balls balls : list ref) : list ref :=
  fold_left (fun bs rb => if existsb (Nat.eqb rb) bs then list_remove rb bs else bs)
            removed_balls balls.

(** The ball is within the capture radius of some pocket. *)
Definition in_pocket (b : Ball) : Prop :=
  exists p, In p pockets /\ distance (x b) (y b) (fst p) (snd p) < POCKET_RADIUS.

(** The ball is at the restart position [(WIDTH // 4, HEIGHT // 2)] with
    zero velocity. *)
Definition is_reset (b : Ball) : Prop :=
  x b = floordiv WIDTH 4 /\ y b = floordiv HEIGHT 2 /\ vx b = 0 /\ vy b = 0.

Definition same_motion (b b' : Ball) : Prop :=
  x b = x b' /\ y b = y b' /\ vx b = vx b' /\ vy b = vy b'.

Definition same_kind (b b' : Ball) : Prop :=
  is_cue b = is_cue b' /\ is_black b = is_black b'.

(** The cue ball of the session is in the list and is a cue ball that is
    not black. *)
Definition cue_inv (s : State) : Prop :=
  In (cue_ball s) (balls s) /\
  is_cue (store s (cue_ball s)) = true /\
  is_black (store s (cue_ball s)) = false.

(** Steps 1 to 3. *)
Definition physics (s : State) : result State :=
  let h := update_all (store s) (balls s) in
  h <- handle_collisions (balls s) h ;;
  let s := set_store s h in
  let '(s, removed_balls) := check_pockets s in
  Ok (set_balls s (remove_balls removed_balls (balls s))).

(** [d < dist_closest], where [None] is [float('inf')]. *)
Definition lt_inf (d : R) (bound : option R) : bool :=
  match bound with
  | None => true
  | Some m => Rltb d m
  end.

(** The search for the ball closest to the cue ball. *)
Definition find_closest (h : Store) (cue_ball : ref) (balls : list ref)
  : option R * option ref :=
  fold_left
    (fun acc b =>
       if negb (is_cue (h b)) then
         let d := distance (x (h cue_ball)) (y (h cue_ball)) (x (h b)) (y (h b)) in
         if lt_inf d (fst acc) then (Some d, Some b) else acc
       else acc)
    balls (None, None).

Definition closest_ball (s : State) : option ref :=
  snd (find_closest (store s) (cue_ball s) (balls s)).

Definition fallback (s : State) : R * TargetColor :=
  match closest_ball s with
  | Some cb =>
      (angle_degrees (x (store s (cue_ball s))) (y (store s (cue_ball s)))
                     (x (store s cb)) (y (store s cb)),
       if is_black (store s cb) then TBlack else TRgb (color (store s cb)))
  | None => (0, TUnknown)
  end.

Definition fallback_angle (s : State) : R := fst (fallback s).

(** [fa] is the angle from the cue ball to a non-cue ball of the list
    that no other non-cue ball is closer than, or 0 when the list has no
    non-cue ball. *)
Definition cue_distance (s : State) (b : ref) : R :=
  distance (x (store s (cue_ball s))) (y (store s (cue_ball s)))
           (x (store s b)) (y (store s b)).

Definition toward_closest (s : State) (fa : R) : Prop :=
  match closest_ball s with
  | Some cb =>
      In cb (balls s) /\ is_cue (store s cb) = false /\
      (forall b, In b (balls s) -> is_cue (store s b) = false ->
                 cue_distance s cb <= cue_distance s b) /\
      fa = angle_degrees (x (store s (cue_ball s))) (y (store s (cue_ball s)))
                         (x (store s cb)) (y (store s cb))
  | None =>
      (forall b, In b (balls s) -> is_cue (store s b) = true) /\ fa = 0
  end.

(** No ball of the list is moving. *)
Definition at_rest (s : State) : bool :=
  negb (existsb (fun b => is_moving (store s b)) (balls s)).

(** [not win_message]. *)
Definition falsy (m : option string) : bool :=
  match m with
  | None => true
  | Some t => String.eqb t EmptyString
  end.

(** [cue_ball.vx = cos(rad) * power; cue_ball.vy = sin(rad) * power]. *)
Definition apply_shot (s : State) (shot : R * R) : State :=
  let '(angle_deg, power_val) := shot in
  let rad := radians angle_deg in
  let h := store s in
  let h := setattr_vx h (cue_ball s) (cos rad * power_val) in
  let h := setattr_vy h (cue_ball s) (sin rad * power_val) in
  set_store s h.

Section Engine.

(** The advisor: the reply it gives to a prompt. *)
Variable advisor : Prompt -> Reply.

Definition shot_prompt (s : State) : Prompt :=
  build_prompt_for_llm (store s (cue_ball s)) (map (store s) (balls s)) pockets
                       (shots_taken s) (fallback_angle s) (snd (fallback s)).

(** The pair [call_llm] returns for the shot due in [s]. *)
Definition requested_shot (s : State) : R * R :=
  call_llm (advisor (shot_prompt s)) (fallback_angle s).

(** The shot branch of step 4. *)
Definition take_shot (s : State) : State :=
  let s := set_shots_taken s (shots_taken s + 1) in
  let s := set_llm_log s (llm_log s ++ [shot_prompt s])%list in
  apply_shot s (requested_shot s).

(** Step 4. *)
Definition turn (s : State) : State :=
  if at_rest s then
    if (shots_taken s <? MAX_SHOTS)%nat && negb (game_over s) then take_shot s
    else if negb (game_over s) then
      let s := set_game_over s true in
      if falsy (win_message s) then
        if existsb (fun b => is_black (store s b)) (balls s)
        then set_win_message s (Some MSG_LOSE)
        else set_win_message s (Some MSG_CLEARED)
      else s
    else s
  else s.

(** The body of [while True], without events and drawing. *)
Definition tick (s : State) : result State :=
  if negb (game_over s) then
    s <- physics s ;; Ok (turn s)
  else Ok s.

Fixpoint run (n : nat) (s : State) : result State :=
  match n with
  | O => Ok s
  | S n' => s' <- tick s ;; run n' s'
  end.

End Engine.

(** ** Predicates and tables used in the statements *)

(** A ball in the middle of the table, rolling to the right. *)
Definition rolling_ball : Ball := mkBall 400 200 1 0 WHITE true false.

(** The momentum over a duplicate-free list of objects that holds the
    balls of the list. *)
Definition same_momentum (l : list ref) (h0 h : Store) : Prop :=
  sum_vx h l = sum_vx h0 l /\ sum_vy h l = sum_vy h0 l.

(** The response of one overlapping pair of distinct balls whose centres
    differ: the normal components are swapped, the tangential ones kept. *)
Definition exchanges_normal (b1 b2 : ref) (h h' : Store) : Prop :=
  let dx := x (h b2) - x (h b1) in
  let dy := y (h b2) - y (h b1) in
  let nx := dx / guarded_dist dx dy in
  let ny := dy / guarded_dist dx dy in
  normal_part h' b1 nx ny = normal_part h b2 nx ny /\
  normal_part h' b2 nx ny = normal_part h b1 nx ny /\
  tangent_part h' b1 nx ny = tangent_part h b1 nx ny /\
  tangent_part h' b2 nx ny = tangent_part h b2 nx ny.

(** Two balls ten units apart on a horizontal line, the left one moving. *)
Definition two_balls : Store :=
  fun r =>
    match r with
    | O => mkBall 100 100 1 0 RED false false
    | _ => mkBall 110 100 0 0 BLUE false false
    end.

(** Two balls with the same centre. *)
Definition stacked_balls : Store :=
  fun r =>
    match r with
    | O => mkBall 300 150 2 1 RED false false
    | _ => mkBall 300 150 0 0 BLUE false false
    end.

(** The loop invariant of the search for the closest ball, over the balls
    [seen] so far: the pair holds a non-cue ball of [seen] at least as
    close as every other one, with its distance, or nothing when [seen]
    has no non-cue ball. *)
Definition closest_inv (h : Store) (cue : ref) (seen : list ref)
           (acc : option R * option ref) : Prop :=
  match acc with
  | (Some d, Some cb) =>
      In cb seen /\ is_cue (h cb) = false /\
      d = distance (x (h cue)) (y (h cue)) (x (h cb)) (y (h cb)) /\
      (forall b, In b seen -> is_cue (h b) = false ->
                 d <= distance (x (h cue)) (y (h cue)) (x (h b)) (y (h b)))
  | (None, None) => forall b, In b seen -> is_cue (h b) = true
  | _ => False
  end.

(** The state in which the shot of [take_shot] is requested. *)
Definition shot_state (s : State) : State :=
  set_shots_taken s (shots_taken s + 1).

(** What the pocket check keeps, relative to the state [s0] it starts
    from: the list, the counters and the kind of every ball; every ball is
    where it was, or is a cue ball put back on the restart position; only
    balls that are neither cue nor black are listed for removal; and the
    outcome is as before or the win. *)
Definition pocket_inv (s0 : State) (acc : State * list ref) : Prop :=
  balls (fst acc) = balls s0 /\
  cue_ball (fst acc) = cue_ball s0 /\
  shots_taken (fst acc) = shots_taken s0 /\
  llm_log (fst acc) = llm_log s0 /\
  (forall r, same_kind (store (fst acc) r) (store s0 r)) /\
  (forall r, same_motion (store (fst acc) r) (store s0 r) \/
             (is_cue (store s0 r) = true /\ is_black (store s0 r) = false /\
              is_reset (store (fst acc) r))) /\
  (forall r, In r (snd acc) ->
             is_cue (store s0 r) = false /\ is_black (store s0 r) = false) /\
  ((game_over (fst acc) = game_over s0 /\ win_message (fst acc) = win_message s0) \/
   (game_over (fst acc) = true /\ win_message (fst acc) = Some MSG_WIN)).

(** A table with the cue ball on its spot, the black ball in the top left
    corner and a red ball in the top right corner. *)
Definition corner_store : Store :=
  fun r =>
    match r with
    | O => mkBall 200 200 0 0 WHITE true false
    | S O => mkBall 12 12 0 0 BLACK false true
    | _ => mkBall 788 12 0 0 RED false false
    end.

Definition corner_state : State :=
  mkState corner_store [0; 1; 2]%nat 0%nat 3%nat false None [].

(** What steps 1 to 3 keep. *)
Definition physics_keeps (s0 s : State) : Prop :=
  cue_ball s = cue_ball s0 /\
  shots_taken s = shots_taken s0 /\
  llm_log s = llm_log s0 /\
  (forall r, same_kind (store s r) (store s0 r)) /\
  (forall b, In b (balls s) -> In b (balls s0)) /\
  (forall b, In b (balls s0) -> is_cue (store s0 b) = true \/ is_black (store s0 b) = true ->
             In b (balls s)) /\
  ((game_over s = game_over s0 /\ win_message s = win_message s0) \/
   (game_over s = true /\ win_message s = Some MSG_WIN)).

(** An advisor that cannot be reached. *)
Definition unreachable_advisor : Prompt -> Reply := fun _ => Raise RequestException.

(** The cue ball and the black ball on their spots, at rest, after the
    tenth shot. *)
Definition quiet_store : Store :=
  fun r =>
    match r with
    | O => mkBall 200 200 0 0 WHITE true false
    | _ => mkBall 600 200 0 0 BLACK false true
    end.

Definition quiet_state : State :=
  mkState quiet_store [0; 1]%nat 0%nat MAX_SHOTS false None [].

Definition quiet_after : State :=
  set_balls (set_store quiet_state (update_all quiet_store [0; 1]%nat)) [0; 1]%nat.

(** The kinetic energy of a ball (unit mass, factor one half left out) and
    of the balls of a list. *)
Definition energy (b : Ball) : R := vx b * vx b + vy b * vy b.
Definition total_energy : Store -> list ref -> R := sum_over energy.

(** The centres of two balls of the store are at least two radii apart. *)
Definition apart (h : Store) (b1 b2 : ref) : Prop :=
  2 * BALL_RADIUS <= distance (x (h b1)) (y (h b1)) (x (h b2)) (y (h b2)).

(** The cue ball and the black ball on their spots, before the first shot. *)
Definition opening_state : State :=
  mkState quiet_store [0; 1]%nat 0%nat 0%nat false None [].

(** The classes of the capturing groups of a pattern, in order. *)
Fixpoint group_classes (p : list re_item) : list (ascii -> bool) :=
  match p with
  | [] => []
  | GroupPlus cls :: p' => cls :: group_classes p'
  | _ :: p' => group_classes p'
  end.

(** A captured group: not empty, every character in the class. *)
Definition group_of (cls : ascii -> bool) (g : list ascii) : Prop :=
  g <> [] /\ forallb cls g = true.

(** The next character, if any, is outside the class. *)
Definition stops (cls : ascii -> bool) (s : list ascii) : Prop :=
  match s with
  | [] => True
  | c :: _ => cls c = false
  end.

(** A reply of the shape the prompt asks for: the two numerals [A] and [P]
    in the object [{"angle_degrees": A, "power": P}], with any white space
    [w1] .. [w8] between the tokens and any text after the closing brace. *)
Definition reply_text (w1 w2 w3 w4 w5 w6 w7 w8 A P rest : list ascii) : list ascii :=
  ("{" :: w1 ++ dquote :: list_ascii_of_string "angle_degrees" ++ dquote :: w2
   ++ ":" :: w3 ++ A ++ w4 ++ "," :: w5 ++ dquote :: list_ascii_of_string "power"
   ++ dquote :: w6 ++ ":" :: w7 ++ P ++ w8 ++ "}" :: rest)%char%list.

(** Steps 1 and 2 of a pass: the state in which the pocket check starts. *)
Definition moved (s : State) : result State :=
  h <- handle_collisions (balls s) (update_all (store s) (balls s)) ;;
  Ok (set_store s h).

(** The table of [corner_state] after steps 1 and 2. *)
Definition corner_moved : State :=
  set_store corner_state (update_all corner_store [0; 1; 2]%nat).

(** From [s] to [s']: the same cue ball, no new ball, no change of kind,
    and only balls that are neither cue nor black gone from the list. *)
Definition balls_kept (s s' : State) : Prop :=
  cue_ball s' = cue_ball s /\
  incl (balls s') (balls s) /\
  (forall r, same_kind (store s' r) (store s r)) /\
  (forall b, In b (balls s) -> ~ In b (balls s') ->
             is_cue (store s b) = false /\ is_black (store s b) = false).

(** One of the three messages of the program. *)
Definition is_outcome (m : option string) : Prop :=
  m = Some MSG_WIN \/ m = Some MSG_LOSE \/ m = Some MSG_CLEARED.

(** A table on which the cue ball, still moving, has reached the top left
    pocket; the black ball is on its spot. *)
Definition foul_store : Store :=
  fun r =>
    match r with
    | O => mkBall 12 12 (-3) (-4) WHITE true false
    | _ => mkBall 600 200 0 0 BLACK false true
    end.

Definition foul_state : State :=
  mkState foul_store [0; 1]%nat 0%nat 2%nat false None [].

(** * Properties *)

(** ** Comparisons and [hypot] *)

Lemma Rltb_true a b : Rltb a b = true <-> a < b.
Proof. unfold Rltb; destruct (Rlt_dec a b); split; intros; auto; discriminate. Qed.

Lemma Rltb_false a b : Rltb a b = false <-> ~ a < b.
Proof.
  unfold Rltb; destruct (Rlt_dec a b); split; intros; auto;
    try discriminate; contradiction.
Qed.

Lemma Rleb_true a b : Rleb a b = true <-> a <= b.
Proof. unfold Rleb; destruct (Rle_dec a b); split; intros; auto; discriminate. Qed.

Lemma Rleb_false a b : Rleb a b = false <-> ~ a <= b.
Proof.
  unfold Rleb; destruct (Rle_dec a b); split; intros; auto;
    try discriminate; contradiction.
Qed.

Lemma Reqb_true a b : Reqb a b = true <-> a = b.
Proof. unfold Reqb; destruct (Req_dec_T a b); split; intros; auto; discriminate. Qed.

Lemma Reqb_false a b : Reqb a b = false <-> a <> b.
Proof.
  unfold Reqb; destruct (Req_dec_T a b); split; intros; auto;
    try discriminate; contradiction.
Qed.

(** Case analysis on the first comparison found in the goal. *)
Ltac case_cmp :=
  match goal with
  | |- context [Rltb ?a ?b] =>
      let H := fresh "Hc" in
      destruct (Rltb a b) eqn:H;
      [apply Rltb_true in H | apply Rltb_false in H]
  | |- context [Rleb ?a ?b] =>
      let H := fresh "Hc" in
      destruct (Rleb a b) eqn:H;
      [apply Rleb_true in H | apply Rleb_false in H]
  | |- context [Reqb ?a ?b] =>
      let H := fresh "Hc" in
      destruct (Reqb a b) eqn:H;
      [apply Reqb_true in H | apply Reqb_false in H]
  end.

Lemma hypot_nonneg a b : 0 <= hypot a b.
Proof. apply sqrt_pos. Qed.

Lemma hypot_zero a b : hypot a b = 0 -> a = 0 /\ b = 0.
Proof.
  unfold hypot; intros H.
  apply sqrt_eq_0 in H; [| nra].
  split; nra.
Qed.

Lemma hypot_scale a b k : 0 <= k -> hypot (a * k) (b * k) = hypot a b * k.
Proof.
  intros Hk; unfold hypot.
  replace (a * k * (a * k) + b * k * (b * k)) with ((a * a + b * b) * (k * k)) by ring.
  rewrite sqrt_mult by nra.
  now rewrite sqrt_square.
Qed.

(** ** Ball.update *)

Lemma update_in_table (b : Ball) : in_table (update b).
Proof.
  unfold in_table, update, Rgtb, BALL_RADIUS, WIDTH, HEIGHT.
  repeat (case_cmp; cbn [x y vx vy set_x set_y set_vx set_vy] in * ); lra.
Qed.

Lemma update_x_axis (b : Ball) : x_axis_step b (update b).
Proof.
  unfold x_axis_step, update, Rgtb.
  repeat (case_cmp; cbn [x y vx vy set_x set_y set_vx set_vy] in * );
    repeat split; intros; try reflexivity; try contradiction; try lra.
Qed.

Lemma update_y_axis (b : Ball) : y_axis_step b (update b).
Proof.
  unfold y_axis_step, update, Rgtb.
  repeat (case_cmp; cbn [x y vx vy set_x set_y set_vx set_vy] in * );
    repeat split; intros; try reflexivity; try contradiction; try lra.
Qed.

Lemma update_keeps_kind (b : Ball) :
  is_cue (update b) = is_cue b /\ is_black (update b) = is_black b /\
  color (update b) = color b.
Proof.
  unfold update, Rgtb.
  repeat (case_cmp; cbn [x y vx vy set_x set_y set_vx set_vy] in * );
    repeat split; reflexivity.
Qed.

(** C5: after every call of [Ball.update], whatever the position and the
    velocity before it, the ball is inside the table
    ([BALL_RADIUS <= x <= WIDTH - BALL_RADIUS] and
    [BALL_RADIUS <= y <= HEIGHT - BALL_RADIUS]); on each axis, independently
    of the other, a crossed edge clamps the coordinate to the edge value and
    negates the velocity component of that axis. *)
Theorem update_wall_containment (b : Ball) :
  (forall n : nat, in_table (Nat.iter (S n) update b)) /\
  x_axis_step b (update b) /\ y_axis_step b (update b).
Proof.
  split; [| split].
  - intros n. rewrite Nat.iter_succ. apply update_in_table.
  - apply update_x_axis.
  - apply update_y_axis.
Qed.

(** ** Friction *)

Lemma FRICTION_bounds : 0 < FRICTION < 1.
Proof. unfold FRICTION; lra. Qed.

Lemma update_abs_vx (b : Ball) : Rabs (vx (update b)) = Rabs (vx b) * FRICTION.
Proof.
  pose proof FRICTION_bounds as HF.
  rewrite <- (Rabs_pos_eq FRICTION) by lra.
  rewrite <- Rabs_mult.
  destruct (update_x_axis b) as (H1 & H2 & H3).
  destruct (Rlt_dec (x b + vx b - BALL_RADIUS) 0) as [Hl | Hl].
  - destruct (H1 Hl) as [_ ->]. apply Rabs_Ropp.
  - destruct (Rgt_dec (x b + vx b + BALL_RADIUS) WIDTH) as [Hg | Hg].
    + destruct (H2 Hl Hg) as [_ ->]. apply Rabs_Ropp.
    + destruct (H3 Hl Hg) as [_ ->]. reflexivity.
Qed.

Lemma update_abs_vy (b : Ball) : Rabs (vy (update b)) = Rabs (vy b) * FRICTION.
Proof.
  pose proof FRICTION_bounds as HF.
  rewrite <- (Rabs_pos_eq FRICTION) by lra.
  rewrite <- Rabs_mult.
  destruct (update_y_axis b) as (H1 & H2 & H3).
  destruct (Rlt_dec (y b + vy b - BALL_RADIUS) 0) as [Hl | Hl].
  - destruct (H1 Hl) as [_ ->]. apply Rabs_Ropp.
  - destruct (Rgt_dec (y b + vy b + BALL_RADIUS) HEIGHT) as [Hg | Hg].
    + destruct (H2 Hl Hg) as [_ ->]. apply Rabs_Ropp.
    + destruct (H3 Hl Hg) as [_ ->]. reflexivity.
Qed.

Lemma iter_update_abs (b : Ball) (n : nat) :
  Rabs (vx (Nat.iter n update b)) = Rabs (vx b) * FRICTION ^ n /\
  Rabs (vy (Nat.iter n update b)) = Rabs (vy b) * FRICTION ^ n.
Proof.
  induction n as [| n [IHx IHy]]; [cbn; split; ring |].
  rewrite Nat.iter_succ; cbn [pow].
  rewrite update_abs_vx, update_abs_vy, IHx, IHy. split; ring.
Qed.

Lemma update_free (b : Ball) :
  no_reflection b ->
  vx (update b) = vx b * FRICTION /\ vy (update b) = vy b * FRICTION.
Proof.
  intros (Hx1 & Hx2 & Hy1 & Hy2).
  destruct (update_x_axis b) as (_ & _ & H3).
  destruct (update_y_axis b) as (_ & _ & H4).
  split; [apply (H3 Hx1 Hx2) | apply (H4 Hy1 Hy2)].
Qed.

Lemma iter_update_free (b : Ball) (N : nat) :
  (forall k, (k < N)%nat -> no_reflection (Nat.iter k update b)) ->
  vx (Nat.iter N update b) = vx b * FRICTION ^ N /\
  vy (Nat.iter N update b) = vy b * FRICTION ^ N.
Proof.
  induction N as [| N IH]; intros Hfree; [cbn; split; ring |].
  rewrite Nat.iter_succ; cbn [pow].
  destruct IH as [IHx IHy]; [intros k Hk; apply Hfree; lia |].
  destruct (update_free (Nat.iter N update b)) as [Ex Ey];
    [apply Hfree; lia |].
  rewrite Ex, Ey, IHx, IHy. split; ring.
Qed.

(** A positive quantity scaled by [FRICTION ^ n] falls to the threshold. *)
Lemma friction_under_threshold (a : R) :
  0 <= a -> exists M : nat, forall n, (M <= n)%nat -> a * FRICTION ^ n <= 0.05.
Proof.
  intros Ha.
  pose proof FRICTION_bounds as HF.
  destruct (pow_lt_1_zero FRICTION) with (y := 0.05 / (a + 1)) as [M HM].
  - rewrite Rabs_pos_eq; lra.
  - apply Rdiv_lt_0_compat; lra.
  - exists M; intros n Hn.
    specialize (HM n Hn).
    assert (Hp : 0 < FRICTION ^ n) by (apply pow_lt; lra).
    rewrite Rabs_pos_eq in HM by lra.
    assert (Hq : FRICTION ^ n * (a + 1) < 0.05).
    { apply (Rmult_lt_compat_r (a + 1)) in HM; [| lra].
      unfold Rdiv in HM. rewrite Rmult_assoc, Rinv_l in HM by lra. lra. }
    nra.
Qed.

Lemma eventually_at_rest (b : Ball) :
  exists M : nat, forall n, (M <= n)%nat -> is_moving (Nat.iter n update b) = false.
Proof.
  destruct (friction_under_threshold (Rabs (vx b)) (Rabs_pos _)) as [Mx HMx].
  destruct (friction_under_threshold (Rabs (vy b)) (Rabs_pos _)) as [My HMy].
  exists (Nat.max Mx My); intros n Hn.
  destruct (iter_update_abs b n) as [Ex Ey].
  unfold is_moving, Rgtb; rewrite Ex, Ey.
  apply orb_false_iff; split; apply Rltb_false.
  - specialize (HMx n ltac:(lia)); lra.
  - specialize (HMy n ltac:(lia)); lra.
Qed.

(** C7: for a ball that meets no wall during [N] updates (and no
    collision: only [Ball.update] acts on it), the speed after [N] updates is
    the initial speed times [FRICTION ^ N], with [FRICTION = 0.98]; and for
    every initial velocity the ball is at rest ([is_moving] is false, both
    components at or below 0.05 in magnitude) from some update on. *)
Theorem friction_decay (b : Ball) :
  FRICTION = 0.98 /\
  (forall N : nat,
      (forall k, (k < N)%nat -> no_reflection (Nat.iter k update b)) ->
      hypot (vx (Nat.iter N update b)) (vy (Nat.iter N update b))
      = hypot (vx b) (vy b) * FRICTION ^ N) /\
  (exists M : nat, forall n, (M <= n)%nat ->
      is_moving (Nat.iter n update b) = false /\
      Rabs (vx (Nat.iter n update b)) <= 0.05 /\
      Rabs (vy (Nat.iter n update b)) <= 0.05).
Proof.
  split; [reflexivity | split].
  - intros N Hfree.
    destruct (iter_update_free b N Hfree) as [-> ->].
    apply hypot_scale. apply pow_le. pose proof FRICTION_bounds; lra.
  - destruct (eventually_at_rest b) as [M HM].
    exists M; intros n Hn.
    specialize (HM n Hn). split; [exact HM |].
    unfold is_moving, Rgtb in HM.
    apply orb_false_iff in HM as [H1 H2].
    apply Rltb_false in H1, H2. lra.
Qed.

Lemma friction_decay_witness :
  (forall k, (k < 1)%nat -> no_reflection (Nat.iter k update rolling_ball)) /\
  hypot (vx (Nat.iter 1 update rolling_ball)) (vy (Nat.iter 1 update rolling_ball))
  = hypot (vx rolling_ball) (vy rolling_ball) * FRICTION ^ 1.
Proof.
  assert (H : forall k, (k < 1)%nat -> no_reflection (Nat.iter k update rolling_ball)).
  { intros k Hk. replace k with 0%nat by lia.
    unfold no_reflection, rolling_ball, BALL_RADIUS, WIDTH, HEIGHT; cbn.
    repeat split; lra. }
  split; [exact H |].
  exact (proj1 (proj2 (friction_decay rolling_ball)) 1%nat H).
Defined.

(** ** The store *)

Lemma store_set_same h r b : store_set h r b r = b.
Proof. unfold store_set. now rewrite Nat.eqb_refl. Qed.

Lemma store_set_other h r b r' : r' <> r -> store_set h r b r' = h r'.
Proof. unfold store_set; intros H. apply Nat.eqb_neq in H. now rewrite H. Qed.

Lemma sum_over_cons f h a l : sum_over f h (a :: l) = f (h a) + sum_over f h l.
Proof. reflexivity. Qed.

Lemma sum_over_set_out f h r b l :
  ~ In r l -> sum_over f (store_set h r b) l = sum_over f h l.
Proof.
  induction l as [| a l IH]; intros Hn; [reflexivity |].
  rewrite !sum_over_cons.
  rewrite store_set_other by (intros ->; apply Hn; now left).
  rewrite IH; [reflexivity | intros Hi; apply Hn; now right].
Qed.

Lemma sum_over_set_in f h r b l :
  NoDup l -> In r l ->
  sum_over f (store_set h r b) l = sum_over f h l + (f b - f (h r)).
Proof.
  induction l as [| a l IH]; intros Hd Hi; [contradiction |].
  inversion Hd as [| ? ? Hna Hd']; subst. rewrite !sum_over_cons.
  destruct (Nat.eq_dec a r) as [-> | Hne].
  - rewrite store_set_same, sum_over_set_out by assumption. ring.
  - rewrite store_set_other by assumption.
    rewrite IH; [ring | assumption |].
    destruct Hi as [-> | Hi]; [contradiction | assumption].
Qed.

(** Reading an attribute after an assignment. *)
Lemma vx_setattr_x h r v r' : vx (setattr_x h r v r') = vx (h r').
Proof.
  unfold setattr_x, store_set. destruct (Nat.eqb r' r) eqn:E; [| reflexivity].
  apply Nat.eqb_eq in E; subst; reflexivity.
Qed.

Lemma vx_setattr_y h r v r' : vx (setattr_y h r v r') = vx (h r').
Proof.
  unfold setattr_y, store_set. destruct (Nat.eqb r' r) eqn:E; [| reflexivity].
  apply Nat.eqb_eq in E; subst; reflexivity.
Qed.

Lemma vy_setattr_x h r v r' : vy (setattr_x h r v r') = vy (h r').
Proof.
  unfold setattr_x, store_set. destruct (Nat.eqb r' r) eqn:E; [| reflexivity].
  apply Nat.eqb_eq in E; subst; reflexivity.
Qed.

Lemma vy_setattr_y h r v r' : vy (setattr_y h r v r') = vy (h r').
Proof.
  unfold setattr_y, store_set. destruct (Nat.eqb r' r) eqn:E; [| reflexivity].
  apply Nat.eqb_eq in E; subst; reflexivity.
Qed.

Lemma vy_setattr_vx h r v r' : vy (setattr_vx h r v r') = vy (h r').
Proof.
  unfold setattr_vx, store_set. destruct (Nat.eqb r' r) eqn:E; [| reflexivity].
  apply Nat.eqb_eq in E; subst; reflexivity.
Qed.

Lemma vx_setattr_vy h r v r' : vx (setattr_vy h r v r') = vx (h r').
Proof.
  unfold setattr_vy, store_set. destruct (Nat.eqb r' r) eqn:E; [| reflexivity].
  apply Nat.eqb_eq in E; subst; reflexivity.
Qed.

Lemma vx_setattr_vx h r v r' :
  vx (setattr_vx h r v r') = if Nat.eqb r' r then v else vx (h r').
Proof. unfold setattr_vx, store_set. now destruct (Nat.eqb r' r). Qed.

Lemma vy_setattr_vy h r v r' :
  vy (setattr_vy h r v r') = if Nat.eqb r' r then v else vy (h r').
Proof. unfold setattr_vy, store_set. now destruct (Nat.eqb r' r). Qed.

Lemma sum_over_ext f h h' l :
  (forall r, In r l -> f (h' r) = f (h r)) -> sum_over f h' l = sum_over f h l.
Proof.
  induction l as [| a l IH]; intros He; [reflexivity |].
  rewrite !sum_over_cons.
  rewrite He by (now left). f_equal. apply IH; intros r Hr; apply He; now right.
Qed.

(** An assignment to one attribute changes the sum of another attribute
    not at all, and the sum of its own by the difference of the values. *)
Lemma sum_vx_setattr_x h r v l : sum_vx (setattr_x h r v) l = sum_vx h l.
Proof. apply sum_over_ext; intros; apply vx_setattr_x. Qed.

Lemma sum_vx_setattr_y h r v l : sum_vx (setattr_y h r v) l = sum_vx h l.
Proof. apply sum_over_ext; intros; apply vx_setattr_y. Qed.

Lemma sum_vx_setattr_vy h r v l : sum_vx (setattr_vy h r v) l = sum_vx h l.
Proof. apply sum_over_ext; intros; apply vx_setattr_vy. Qed.

Lemma sum_vy_setattr_x h r v l : sum_vy (setattr_x h r v) l = sum_vy h l.
Proof. apply sum_over_ext; intros; apply vy_setattr_x. Qed.

Lemma sum_vy_setattr_y h r v l : sum_vy (setattr_y h r v) l = sum_vy h l.
Proof. apply sum_over_ext; intros; apply vy_setattr_y. Qed.

Lemma sum_vy_setattr_vx h r v l : sum_vy (setattr_vx h r v) l = sum_vy h l.
Proof. apply sum_over_ext; intros; apply vy_setattr_vx. Qed.

Lemma sum_vx_setattr_vx h r v l :
  NoDup l -> In r l -> sum_vx (setattr_vx h r v) l = sum_vx h l + (v - vx (h r)).
Proof. intros Hd Hi. unfold sum_vx, setattr_vx. now rewrite sum_over_set_in. Qed.

Lemma sum_vy_setattr_vy h r v l :
  NoDup l -> In r l -> sum_vy (setattr_vy h r v) l = sum_vy h l + (v - vy (h r)).
Proof. intros Hd Hi. unfold sum_vy, setattr_vy. now rewrite sum_over_set_in. Qed.

Create Rewrite HintDb store_reads.

#[local] Hint Rewrite
  sum_vx_setattr_x sum_vx_setattr_y sum_vx_setattr_vy
  sum_vy_setattr_x sum_vy_setattr_y sum_vy_setattr_vx
  vx_setattr_x vx_setattr_y vy_setattr_x vy_setattr_y
  vy_setattr_vx vx_setattr_vy vx_setattr_vx vy_setattr_vy : store_reads.

(** ** handle_collisions *)

Lemma guarded_dist_pos dx dy : 0 < guarded_dist dx dy.
Proof.
  unfold guarded_dist. pose proof (hypot_nonneg dx dy).
  case_cmp; lra.
Qed.

Lemma guarded_dist_overlap dx dy :
  dx = 0 -> dy = 0 -> guarded_dist dx dy = 0.001.
Proof.
  intros -> ->. unfold guarded_dist, hypot.
  replace (0 * 0 + 0 * 0) with 0 by ring. rewrite sqrt_0.
  case_cmp; [reflexivity | contradiction].
Qed.

Lemma div_nonzero a b : b <> 0 -> div a b = Ok (a / b).
Proof. intros H. unfold div. case_cmp; [contradiction | reflexivity]. Qed.

Lemma getitem_lt {A} (l : list A) i :
  (i < List.length l)%nat -> exists a, getitem l i = Ok a /\ In a l.
Proof.
  intros H. unfold getitem.
  destruct (nth_error l i) as [a |] eqn:E.
  - exists a; split; [reflexivity | eapply nth_error_In; eassumption].
  - apply nth_error_None in E. lia.
Qed.

Lemma in_range k lo hi : In k (range lo hi) -> (lo <= k < hi)%nat.
Proof. unfold range. rewrite in_seq. lia. Qed.

(** A loop whose body keeps an invariant and never raises does the same. *)
Lemma for_each_invariant {K S : Type} (P : S -> Prop) (ks : list K)
      (body : K -> S -> result S) :
  (forall k s, In k ks -> P s -> exists s', body k s = Ok s' /\ P s') ->
  forall s, P s -> exists s', for_each ks body s = Ok s' /\ P s'.
Proof.
  induction ks as [| k ks IH]; intros Hbody s Hs; cbn [for_each].
  - now exists s.
  - destruct (Hbody k s (or_introl eq_refl) Hs) as (s1 & -> & Hs1).
    cbn [bind]. apply IH; [| exact Hs1].
    intros k' s' Hk'. apply Hbody. now right.
Qed.

Lemma collide_momentum (balls l : list ref) (i j : nat) (h : Store) :
  NoDup l -> incl balls l ->
  (i < List.length balls)%nat -> (j < List.length balls)%nat ->
  exists h', collide balls i j h = Ok h' /\ same_momentum l h h'.
Proof.
  intros Hd Hincl Hi Hj. unfold collide.
  destruct (getitem_lt balls i Hi) as (b1 & -> & Hb1).
  destruct (getitem_lt balls j Hj) as (b2 & -> & Hb2).
  apply Hincl in Hb1, Hb2. cbn [bind].
  set (dx := x (h b2) - x (h b1)). set (dy := y (h b2) - y (h b1)).
  pose proof (guarded_dist_pos dx dy) as Hpos.
  cbv zeta. case_cmp; [| exists h; split; [reflexivity | split; reflexivity]].
  rewrite !div_nonzero by lra. cbn [bind].
  eexists; split; [reflexivity |].
  generalize (dx / guarded_dist dx dy) (dy / guarded_dist dx dy); intros nx ny.
  generalize ((2 * BALL_RADIUS - guarded_dist dx dy) / 2); intros half.
  unfold same_momentum.
  repeat first [ rewrite sum_vx_setattr_vx by assumption
               | rewrite sum_vy_setattr_vy by assumption
               | progress autorewrite with store_reads ].
  rewrite ?Nat.eqb_refl.
  destruct (Nat.eqb b2 b1) eqn:E12; destruct (Nat.eqb b1 b2) eqn:E21;
    try (apply Nat.eqb_eq in E12; subst; rewrite Nat.eqb_refl in E21; discriminate);
    try (apply Nat.eqb_eq in E21; subst; rewrite Nat.eqb_refl in E12; discriminate);
    try (apply Nat.eqb_eq in E12; subst); split; ring.
Qed.

Lemma handle_collisions_momentum (balls l : list ref) (h : Store) :
  NoDup l -> incl balls l ->
  exists h', handle_collisions balls h = Ok h' /\ same_momentum l h h'.
Proof.
  intros Hd Hincl. unfold handle_collisions.
  apply (for_each_invariant (same_momentum l h)); [| split; reflexivity].
  intros i s Hi Hs. apply in_range in Hi.
  apply (for_each_invariant (same_momentum l h)); [| exact Hs].
  intros j s' Hj Hs'. apply in_range in Hj.
  destruct (collide_momentum balls l i j s' Hd Hincl) as (h' & E & Hx & Hy);
    [lia | lia |].
  exists h'; split; [exact E |].
  destruct Hs' as [Hx' Hy']. split; congruence.
Qed.

Lemma objects_spec (balls : list ref) : NoDup (objects balls) /\ incl balls (objects balls).
Proof.
  split; [apply NoDup_nodup |].
  intros r Hr. now apply nodup_In.
Qed.

Lemma unit_normal dx dy :
  dx <> 0 \/ dy <> 0 ->
  let d := guarded_dist dx dy in
  (dx / d) * (dx / d) + (dy / d) * (dy / d) = 1.
Proof.
  intros Hnz d.
  assert (Hd : d * d = dx * dx + dy * dy).
  { unfold d, guarded_dist. case_cmp.
    - apply hypot_zero in Hc. destruct Hnz; tauto.
    - unfold hypot. apply sqrt_sqrt. nra. }
  pose proof (guarded_dist_pos dx dy) as Hpos. fold d in Hpos.
  field_simplify_eq; [nra | lra].
Qed.

Lemma collide_exchange (b1 b2 : ref) (h : Store) :
  b1 <> b2 ->
  guarded_dist (x (h b2) - x (h b1)) (y (h b2) - y (h b1)) < 2 * BALL_RADIUS ->
  x (h b2) - x (h b1) <> 0 \/ y (h b2) - y (h b1) <> 0 ->
  exists h', collide [b1; b2] 0 1 h = Ok h' /\ exchanges_normal b1 b2 h h'.
Proof.
  intros Hne Hlt Hnz. unfold exchanges_normal.
  set (dx := x (h b2) - x (h b1)) in *. set (dy := y (h b2) - y (h b1)) in *.
  set (nx := dx / guarded_dist dx dy). set (ny := dy / guarded_dist dx dy).
  pose proof (unit_normal dx dy Hnz) as Hn. cbv zeta in Hn. fold nx ny in Hn.
  pose proof (guarded_dist_pos dx dy) as Hpos.
  unfold collide. cbn [getitem nth_error bind]. fold dx dy.
  cbv zeta. apply Rltb_true in Hlt. rewrite Hlt.
  rewrite !div_nonzero by lra. cbn [bind]. fold nx ny.
  eexists; split; [reflexivity |].
  generalize ((2 * BALL_RADIUS - guarded_dist dx dy) / 2); intros half.
  unfold normal_part, tangent_part.
  autorewrite with store_reads.
  rewrite ?Nat.eqb_refl.
  assert (E12 : Nat.eqb b1 b2 = false) by now apply Nat.eqb_neq.
  assert (E21 : Nat.eqb b2 b1 = false) by (apply Nat.eqb_neq; congruence).
  rewrite ?E12, ?E21.
  clearbody nx ny.
  generalize (vx (h b1)) (vy (h b1)) (vx (h b2)) (vy (h b2)); intros u1 w1 u2 w2.
  set (vn1 := u1 * nx + w1 * ny). set (vn2 := u2 * nx + w2 * ny).
  repeat split.
  - replace ((u1 + (vn2 - vn1) * nx) * nx + (w1 + (vn2 - vn1) * ny) * ny)
      with (vn1 + (vn2 - vn1) * (nx * nx + ny * ny)) by (unfold vn1; ring).
    rewrite Hn; ring.
  - replace ((u2 + (vn1 - vn2) * nx) * nx + (w2 + (vn1 - vn2) * ny) * ny)
      with (vn2 + (vn1 - vn2) * (nx * nx + ny * ny)) by (unfold vn2; ring).
    rewrite Hn; ring.
  - ring.
  - ring.
Qed.

(** C6: for every list of balls, [handle_collisions] returns, and the sum
    of [vx] and the sum of [vy] over the balls of the list are the same
    after the call as before it.  The response of a pair of distinct
    overlapping balls swaps the components of the two velocities along the
    collision normal and keeps the tangential components. *)
Theorem handle_collisions_conserves_momentum :
  (forall (balls : list ref) (h : Store),
      exists h',
        handle_collisions balls h = Ok h' /\
        sum_vx h' (objects balls) = sum_vx h (objects balls) /\
        sum_vy h' (objects balls) = sum_vy h (objects balls)) /\
  (forall (b1 b2 : ref) (h : Store),
      b1 <> b2 ->
      guarded_dist (x (h b2) - x (h b1)) (y (h b2) - y (h b1)) < 2 * BALL_RADIUS ->
      x (h b2) - x (h b1) <> 0 \/ y (h b2) - y (h b1) <> 0 ->
      exists h', collide [b1; b2] 0 1 h = Ok h' /\ exchanges_normal b1 b2 h h').
Proof.
  split.
  - intros balls h.
    destruct (objects_spec balls) as [Hd Hincl].
    destruct (handle_collisions_momentum balls (objects balls) h Hd Hincl)
      as (h' & E & Hx & Hy).
    exists h'. auto.
  - apply collide_exchange.
Qed.

Lemma hypot_axis a : 0 <= a -> hypot a 0 = a.
Proof.
  intros Ha. unfold hypot. replace (a * a + 0 * 0) with (a * a) by ring.
  now apply sqrt_square.
Qed.

Lemma handle_collisions_conserves_momentum_witness :
  exists h',
    collide [0%nat; 1%nat] 0 1 two_balls = Ok h' /\
    exchanges_normal 0%nat 1%nat two_balls h'.
Proof.
  apply (proj2 handle_collisions_conserves_momentum 0%nat 1%nat two_balls).
  - discriminate.
  - cbn [two_balls x y]. unfold guarded_dist, BALL_RADIUS.
    replace (100 - 100) with 0 by ring. rewrite hypot_axis by lra.
    case_cmp; lra.
  - left. cbn [two_balls x y]. lra.
Defined.

Lemma collide_returns (balls : list ref) (i j : nat) (h : Store) :
  (i < List.length balls)%nat -> (j < List.length balls)%nat ->
  exists h', collide balls i j h = Ok h'.
Proof.
  intros Hi Hj.
  destruct (objects_spec balls) as [Hd Hincl].
  destruct (collide_momentum balls (objects balls) i j h Hd Hincl Hi Hj)
    as (h' & E & _).
  now exists h'.
Qed.

(** C9: [handle_collisions] returns for every list of balls and every
    store, so no division in it has a zero divisor and nothing is raised,
    also when two centres coincide: the distance used as divisor is never
    zero, and it is [0.001] when [math.hypot(dx, dy)] is zero. *)
Theorem handle_collisions_never_raises :
  (forall (balls : list ref) (h : Store),
      exists h', handle_collisions balls h = Ok h') /\
  (forall dx dy a : R,
      guarded_dist dx dy <> 0 /\
      div a (guarded_dist dx dy) = Ok (a / guarded_dist dx dy)) /\
  (forall dx dy : R, hypot dx dy = 0 -> guarded_dist dx dy = 0.001) /\
  (forall (b1 b2 : ref) (h : Store),
      x (h b1) = x (h b2) -> y (h b1) = y (h b2) ->
      guarded_dist (x (h b2) - x (h b1)) (y (h b2) - y (h b1)) = 0.001 /\
      exists h', collide [b1; b2] 0 1 h = Ok h').
Proof.
  split; [| split; [| split]].
  - intros balls h.
    destruct (objects_spec balls) as [Hd Hincl].
    destruct (handle_collisions_momentum balls (objects balls) h Hd Hincl)
      as (h' & E & _).
    now exists h'.
  - intros dx dy a. pose proof (guarded_dist_pos dx dy).
    split; [lra | apply div_nonzero; lra].
  - intros dx dy H0. apply hypot_zero in H0 as [-> ->].
    now apply guarded_dist_overlap.
  - intros b1 b2 h Hx Hy. split.
    + apply guarded_dist_overlap; lra.
    + apply collide_returns; cbn; lia.
Qed.

Lemma handle_collisions_never_raises_witness :
  guarded_dist (x (stacked_balls 1%nat) - x (stacked_balls 0%nat))
               (y (stacked_balls 1%nat) - y (stacked_balls 0%nat)) = 0.001 /\
  exists h', collide [0%nat; 1%nat] 0 1 stacked_balls = Ok h'.
Proof.
  apply (proj2 (proj2 (proj2 handle_collisions_never_raises)) 0%nat 1%nat stacked_balls);
    reflexivity.
Defined.

(** ** call_llm *)

Lemma float_mod_360 (a : R) :
  float_mod a 360 = Ok (a - IZR (Zfloor (a / 360)) * 360) /\
  0 <= a - IZR (Zfloor (a / 360)) * 360 < 360.
Proof.
  split.
  - unfold float_mod. case_cmp; [lra | reflexivity].
  - pose proof (Zfloor_bound (a / 360)) as [Hlo Hhi].
    assert (Ha : a = a / 360 * 360) by (field; lra).
    split; nra.
Qed.

Lemma call_llm_validated (reply : Reply) (fallback_angle : R) :
  call_llm reply fallback_angle = validated_shot reply fallback_angle.
Proof.
  unfold call_llm, call_llm_try, validated_shot, parsed_shot.
  destruct reply as [content | e]; cbn [bind]; [| reflexivity].
  destruct (re_search shot_pattern (list_ascii_of_string content))
    as [[| angle_str [| power_str [| ? ?]]] |]; try reflexivity.
  destruct (float angle_str) as [a | ea]; cbn [bind]; [| reflexivity].
  destruct (float power_str) as [p | ep]; cbn [bind]; [| reflexivity].
  destruct (float_mod_360 a) as [-> _]. cbn [bind].
  unfold angle_power_ok. rewrite <- negb_andb.
  now destruct (_ && _ && _).
Qed.

Lemma angle_power_ok_spec a p :
  angle_power_ok a p = true <-> (0 <= a < 360 /\ 0 <= p <= 15).
Proof.
  unfold angle_power_ok.
  rewrite !andb_true_iff, !Rleb_true, Rltb_true. tauto.
Qed.

(** C2: for every reply, [call_llm] returns the parsed pair, its angle
    taken modulo 360, exactly when the reply parses and the pair satisfies
    [0 <= angle < 360] and [0 <= power <= 15]; in every other case (the
    call failed, no match, a number that does not parse, a value out of
    range) it returns [(fallback_angle, 8.0)]. *)
Theorem call_llm_validation (reply : Reply) (fallback_angle : R) :
  call_llm reply fallback_angle = validated_shot reply fallback_angle /\
  (forall a p,
      parsed_shot reply = Some (a, p) ->
      0 <= a < 360 /\ 0 <= p <= 15 ->
      call_llm reply fallback_angle = (a, p)) /\
  (forall a p,
      parsed_shot reply = Some (a, p) ->
      ~ (0 <= a < 360 /\ 0 <= p <= 15) ->
      call_llm reply fallback_angle = (fallback_angle, 8)) /\
  (parsed_shot reply = None -> call_llm reply fallback_angle = (fallback_angle, 8)) /\
  (forall e, call_llm (Raise e) fallback_angle = (fallback_angle, 8)).
Proof.
  split; [apply call_llm_validated |].
  rewrite call_llm_validated. unfold validated_shot.
  repeat split.
  - intros a p -> Hok. apply angle_power_ok_spec in Hok. now rewrite Hok.
  - intros a p -> Hbad.
    destruct (angle_power_ok a p) eqn:E; [| reflexivity].
    apply angle_power_ok_spec in E. contradiction.
  - now intros ->.
Qed.

(** The power returned by [call_llm] is within [0, 15]. *)
Lemma call_llm_power (reply : Reply) (fallback_angle : R) :
  0 <= snd (call_llm reply fallback_angle) <= 15.
Proof.
  rewrite call_llm_validated. unfold validated_shot.
  destruct (parsed_shot reply) as [[a p] |]; [| cbn; lra].
  destruct (angle_power_ok a p) eqn:E; [| cbn; lra].
  apply angle_power_ok_spec in E. cbn. tauto.
Qed.

Lemma re_search_400_5 :
  re_search shot_pattern (list_ascii_of_string response_400_5)
  = Some [list_ascii_of_string "400"; list_ascii_of_string "5"].
Proof. vm_compute. reflexivity. Qed.

Lemma parse_decimal_400 : parse_decimal (list_ascii_of_string "400") = Ok (400%Z, 0%nat).
Proof. reflexivity. Qed.

Lemma parse_decimal_5 : parse_decimal (list_ascii_of_string "5") = Ok (5%Z, 0%nat).
Proof. reflexivity. Qed.

Lemma parsed_shot_400_5 : parsed_shot (Ok response_400_5) = Some (40, 5).
Proof.
  unfold parsed_shot. rewrite re_search_400_5.
  unfold float. rewrite parse_decimal_400, parse_decimal_5. cbn [bind].
  unfold decimal_value; cbn [fst snd Z.of_nat Z.pow].
  assert (E : Zfloor (400 / 1 / 360) = 1%Z) by (apply Zfloor_eq; lra).
  rewrite E. f_equal. f_equal; lra.
Qed.

(** On the reply with angle 400 and power 5 the angle is normalized and the
    pair is accepted. *)
Lemma call_llm_400_5 (fallback_angle : R) :
  call_llm (Ok response_400_5) fallback_angle = (40, 5).
Proof.
  rewrite call_llm_validated. unfold validated_shot.
  rewrite parsed_shot_400_5.
  assert (E : angle_power_ok 40 5 = true) by (apply angle_power_ok_spec; lra).
  now rewrite E.
Qed.

Lemma call_llm_validation_witness :
  parsed_shot (Ok response_400_5) = Some (40, 5) /\
  (0 <= 40 < 360 /\ 0 <= 5 <= 15) /\
  call_llm (Ok response_400_5) 0 = (40, 5).
Proof.
  assert (Hr : 0 <= 40 < 360 /\ 0 <= 5 <= 15) by lra.
  split; [exact parsed_shot_400_5 | split; [exact Hr |]].
  exact (proj1 (proj2 (call_llm_validation (Ok response_400_5) 0))
               40 5 parsed_shot_400_5 Hr).
Defined.

(** ** The closest ball *)

Lemma find_closest_inv (h : Store) (cue : ref) (l seen : list ref)
      (acc : option R * option ref) :
  closest_inv h cue seen acc ->
  closest_inv h cue (seen ++ l)
    (fold_left
       (fun acc b =>
          if negb (is_cue (h b)) then
            let d := distance (x (h cue)) (y (h cue)) (x (h b)) (y (h b)) in
            if lt_inf d (fst acc) then (Some d, Some b) else acc
          else acc) l acc).
Proof.
  revert seen acc.
  induction l as [| b l IH]; intros seen acc Hinv; cbn [fold_left].
  - now rewrite app_nil_r.
  - replace (seen ++ b :: l)%list with ((seen ++ [b]) ++ l)%list
      by (now rewrite <- app_assoc).
    apply IH. clear IH.
    destruct (is_cue (h b)) eqn:Ecue; cbn [negb].
    + destruct acc as [[d |] [cb |]]; cbn in Hinv |- *; try contradiction.
      * destruct Hinv as (Hin & Hc & Hd & Hmin).
        repeat split; auto.
        -- apply in_or_app; now left.
        -- intros b' Hb' Hc'. apply in_app_or in Hb' as [Hb' | [<- | []]]; auto.
           congruence.
      * intros b' Hb'. apply in_app_or in Hb' as [Hb' | [<- | []]]; auto.
    + cbv zeta. destruct acc as [[d |] [cb |]]; cbn in Hinv |- *; try contradiction.
      * destruct Hinv as (Hin & Hc & Hd & Hmin).
        case_cmp; cbn.
        -- repeat split; auto.
           ++ apply in_or_app; right; now left.
           ++ intros b' Hb' Hc'.
              apply in_app_or in Hb' as [Hb' | [<- | []]]; [| lra].
              specialize (Hmin b' Hb' Hc'). lra.
        -- repeat split; auto.
           ++ apply in_or_app; now left.
           ++ intros b' Hb' Hc'.
              apply in_app_or in Hb' as [Hb' | [<- | []]]; [auto | lra].
      * repeat split; auto.
        -- apply in_or_app; right; now left.
        -- intros b' Hb' Hc'.
           apply in_app_or in Hb' as [Hb' | [<- | []]]; [| lra].
           rewrite (Hinv b' Hb') in Hc'. discriminate.
Qed.

Lemma fallback_toward_closest (s : State) : toward_closest s (fallback_angle s).
Proof.
  pose proof (find_closest_inv (store s) (cue_ball s) (balls s) [] (None, None)) as H.
  cbn [app] in H. specialize (H ltac:(intros b [])).
  unfold toward_closest, fallback_angle, fallback, closest_ball, find_closest, cue_distance.
  destruct (fold_left _ (balls s) (None, None)) as [[d |] [cb |]];
    cbn in H |- *; try contradiction.
  - destruct H as (Hin & Hc & Hd & Hmin). subst d. repeat split; auto.
  - split; [exact H | reflexivity].
Qed.

(** ** The shot *)

Section EngineFacts.

Variable advisor : Prompt -> Reply.

Lemma fallback_angle_shot_state (s : State) :
  fallback_angle (shot_state s) = fallback_angle s.
Proof. reflexivity. Qed.

Lemma take_shot_velocity (s : State) :
  let shot := requested_shot advisor (shot_state s) in
  let cue' := store (take_shot advisor s) (cue_ball s) in
  vx cue' = cos (radians (fst shot)) * snd shot /\
  vy cue' = sin (radians (fst shot)) * snd shot.
Proof.
  cbv zeta. unfold take_shot, apply_shot.
  change (requested_shot advisor
            (set_llm_log (set_shots_taken s (shots_taken s + 1)) _))
    with (requested_shot advisor (shot_state s)).
  destruct (requested_shot advisor (shot_state s)) as [angle_deg power_val].
  cbn [fst snd store set_store set_llm_log set_shots_taken cue_ball].
  autorewrite with store_reads. rewrite !Nat.eqb_refl. split; reflexivity.
Qed.

Lemma take_shot_bookkeeping (s : State) :
  shots_taken (take_shot advisor s) = (shots_taken s + 1)%nat /\
  llm_log (take_shot advisor s) = (llm_log s ++ [shot_prompt (shot_state s)])%list /\
  balls (take_shot advisor s) = balls s /\
  cue_ball (take_shot advisor s) = cue_ball s /\
  game_over (take_shot advisor s) = game_over s /\
  win_message (take_shot advisor s) = win_message s.
Proof.
  unfold take_shot, apply_shot.
  destruct (requested_shot advisor _) as [angle_deg power_val].
  repeat split; reflexivity.
Qed.

Lemma turn_takes_shot (s : State) :
  at_rest s = true -> (shots_taken s < MAX_SHOTS)%nat -> game_over s = false ->
  turn advisor s = take_shot advisor s.
Proof.
  intros Hrest Hshots Hgo. unfold turn. rewrite Hrest, Hgo.
  apply Nat.ltb_lt in Hshots. now rewrite Hshots.
Qed.

Lemma unit_circle_speed (rad p : R) : 0 <= p -> hypot (cos rad * p) (sin rad * p) = p.
Proof.
  intros Hp. rewrite hypot_scale by assumption.
  unfold hypot. pose proof (sin2_cos2 rad) as H. unfold Rsqr in H.
  replace (cos rad * cos rad + sin rad * sin rad) with 1 by lra.
  rewrite sqrt_1. ring.
Qed.

End EngineFacts.

(** C1 (as the program has it): when the table is at rest and a shot is
    due, a reply [{"angle_degrees": 400, "power": 5}] makes the engine apply
    the shot [(40, 5)], the angle being taken modulo 360 before the range
    check; a failed advisor call makes it apply exactly
    [(fallback_angle, 8.0)], where [fallback_angle] is the angle from the
    cue ball to the closest non-cue ball of the list (0 if there is none). *)
Theorem advisor_fallback_shot (advisor : Prompt -> Reply) (s : State) :
  at_rest s = true -> (shots_taken s < MAX_SHOTS)%nat -> game_over s = false ->
  let cue' := store (turn advisor s) (cue_ball s) in
  (advisor (shot_prompt (shot_state s)) = Ok response_400_5 ->
   requested_shot advisor (shot_state s) = (40, 5) /\
   vx cue' = cos (radians 40) * 5 /\ vy cue' = sin (radians 40) * 5) /\
  (forall e, advisor (shot_prompt (shot_state s)) = Raise e ->
   requested_shot advisor (shot_state s) = (fallback_angle s, 8) /\
   vx cue' = cos (radians (fallback_angle s)) * 8 /\
   vy cue' = sin (radians (fallback_angle s)) * 8) /\
  toward_closest s (fallback_angle s).
Proof.
  intros Hrest Hshots Hgo cue'. subst cue'.
  rewrite (turn_takes_shot advisor s Hrest Hshots Hgo).
  pose proof (take_shot_velocity advisor s) as Hv. cbv zeta in Hv.
  split; [| split].
  - intros Hreply.
    assert (E : requested_shot advisor (shot_state s) = (40, 5)).
    { unfold requested_shot. rewrite Hreply. apply call_llm_400_5. }
    rewrite E in Hv. cbn [fst snd] in Hv. tauto.
  - intros e Hreply.
    assert (E : requested_shot advisor (shot_state s) = (fallback_angle s, 8)).
    { unfold requested_shot. rewrite Hreply. reflexivity. }
    rewrite E in Hv. cbn [fst snd] in Hv. tauto.
  - apply fallback_toward_closest.
Qed.

(** C1, counterexample: the reply with angle 400 and power 5 is answered by
    the shot [(40, 5)], not by the fallback shot. *)
Lemma advisor_400_is_not_fallback :
  requested_shot (fun _ : Prompt => Ok response_400_5)
                 (shot_state (initial_state (fun _ => 0%Z))) = (40, 5) /\
  requested_shot (fun _ : Prompt => Ok response_400_5)
                 (shot_state (initial_state (fun _ => 0%Z)))
  <> (fallback_angle (initial_state (fun _ => 0%Z)), 8).
Proof.
  assert (E : requested_shot (fun _ : Prompt => Ok response_400_5)
                (shot_state (initial_state (fun _ => 0%Z))) = (40, 5))
    by apply call_llm_400_5.
  split; [exact E |].
  rewrite E. intros H. injection H as _ H. lra.
Qed.

(** C10: the shot that [take_shot] applies sets the velocity of the cue
    ball to [(cos(rad) * power, sin(rad) * power)] for the pair returned by
    [call_llm]; that power is within [0, 15] (8 on every fallback path, and
    checked on the accepted one), so the speed of the cue ball right after
    the shot is the power and is at most 15. *)
Theorem shot_speed_bounded (advisor : Prompt -> Reply) (s : State) :
  let shot := requested_shot advisor (shot_state s) in
  let cue' := store (take_shot advisor s) (cue_ball s) in
  vx cue' = cos (radians (fst shot)) * snd shot /\
  vy cue' = sin (radians (fst shot)) * snd shot /\
  0 <= snd shot <= 15 /\
  hypot (vx cue') (vy cue') = snd shot /\
  hypot (vx cue') (vy cue') <= 15 /\
  (forall (reply : Reply) (fallback_angle : R),
      0 <= snd (call_llm reply fallback_angle) <= 15 /\
      (forall e, call_llm (Raise e) fallback_angle = (fallback_angle, 8))).
Proof.
  cbv zeta.
  destruct (take_shot_velocity advisor s) as [Hx Hy].
  assert (Hp : 0 <= snd (requested_shot advisor (shot_state s)) <= 15)
    by apply call_llm_power.
  rewrite Hx, Hy, unit_circle_speed by tauto.
  repeat split; try tauto; try apply call_llm_power.
Qed.

(** ** The pocket check *)

Lemma floordiv_WIDTH_4 : floordiv WIDTH 4 = 200.
Proof.
  unfold floordiv, WIDTH.
  replace (Zfloor (800 / 4)) with 200%Z; [reflexivity |].
  symmetry; apply Zfloor_eq; lra.
Qed.

Lemma floordiv_HEIGHT_2 : floordiv HEIGHT 2 = 200.
Proof.
  unfold floordiv, HEIGHT.
  replace (Zfloor (400 / 2)) with 200%Z; [reflexivity |].
  symmetry; apply Zfloor_eq; lra.
Qed.

Lemma hypot_lt a b r : 0 < r -> a * a + b * b < r * r -> hypot a b < r.
Proof.
  intros Hr H. unfold hypot.
  rewrite <- (sqrt_square r) by lra.
  apply sqrt_lt_1; nra.
Qed.

Lemma hypot_ge a b r : 0 <= r -> r * r <= a * a + b * b -> r <= hypot a b.
Proof.
  intros Hr H. unfold hypot.
  rewrite <- (sqrt_square r) at 1 by lra.
  apply sqrt_le_1; nra.
Qed.

(** The restart position is out of reach of every pocket. *)
Lemma restart_far_from_pockets (b : Ball) (p : R * R) :
  is_reset b -> In p pockets ->
  ~ distance (x b) (y b) (fst p) (snd p) < POCKET_RADIUS.
Proof.
  intros (Hx & Hy & _) Hp.
  rewrite Hx, Hy, floordiv_WIDTH_4, floordiv_HEIGHT_2.
  apply Rle_not_lt. unfold distance, POCKET_RADIUS.
  apply hypot_ge; [lra |].
  unfold pockets, WIDTH, HEIGHT in Hp.
  destruct Hp as [<- | [<- | [<- | [<- | []]]]]; cbn [fst snd]; nra.
Qed.

Ltac split_pocket_inv :=
  unfold pocket_inv; cbn [fst snd];
  split; [| split; [| split; [| split; [| split; [| split; [| split]]]]]].

Lemma pocket_inv_start (s0 : State) : pocket_inv s0 (s0, []).
Proof.
  split_pocket_inv; auto.
  - intros r; split; reflexivity.
  - intros r; left; repeat split; reflexivity.
  - intros r [].
Qed.

Lemma setattr_reset (h : Store) (b r : ref) :
  let h' := setattr_vy (setattr_vx (setattr_y (setattr_x h b (floordiv WIDTH 4))
                                              b (floordiv HEIGHT 2)) b 0) b 0 in
  same_kind (h' r) (h r) /\
  (r <> b -> same_motion (h' r) (h r)) /\
  (r = b -> is_reset (h' r)).
Proof.
  cbv zeta. unfold setattr_vy, setattr_vx, setattr_y, setattr_x, store_set,
    same_kind, same_motion, is_reset.
  rewrite !Nat.eqb_refl.
  destruct (Nat.eqb r b) eqn:E.
  - apply Nat.eqb_eq in E; subst. cbn.
    split; [split; reflexivity |]. split; [congruence |].
    intros _; repeat split; reflexivity.
  - apply Nat.eqb_neq in E.
    split; [split; reflexivity |]. split; [| congruence].
    intros _; repeat split; reflexivity.
Qed.

Lemma check_pocket_inv (s0 : State) (b : ref) (acc : State * list ref) (p : R * R) :
  pocket_inv s0 acc -> pocket_inv s0 (check_pocket b acc p).
Proof.
  destruct acc as [s removed], p as [px py].
  intros Hinv.
  pose proof Hinv as (Hb & Hc & Hs & Hl & Hk & Hm & Hr & Hg). cbn [fst snd] in *.
  unfold check_pocket. cbv zeta.
  case_cmp; [| exact Hinv].
  destruct (is_black (store s b)) eqn:Eb.
  - split_pocket_inv; try assumption.
    right; split; reflexivity.
  - destruct (is_cue (store s b)) eqn:Ec.
    + split_pocket_inv; try assumption;
        cbn [set_store store balls cue_ball shots_taken llm_log game_over win_message].
      * intros r. destruct (setattr_reset (store s) b r) as ((K1 & K2) & _).
        destruct (Hk r) as [Kc Kb]. split; congruence.
      * intros r. destruct (setattr_reset (store s) b r) as (_ & Hne & Heq).
        cbv zeta in Hne, Heq.
        destruct (Nat.eq_dec r b) as [-> | Hrb].
        -- right. destruct (Hk b) as [Kc Kb]. rewrite <- Kc, <- Kb.
           split; [assumption | split; [assumption |]]. now apply Heq.
        -- destruct (Hne Hrb) as (E1 & E2 & E3 & E4).
           destruct (Hm r) as [(F1 & F2 & F3 & F4) | (H1 & H2 & F1 & F2 & F3 & F4)].
           ++ left. unfold same_motion. repeat split; congruence.
           ++ right. split; [assumption | split; [assumption |]].
              unfold is_reset. repeat split; congruence.
    + split_pocket_inv; try assumption.
      intros r Hin. apply in_app_or in Hin as [Hin | [<- | []]]; [now apply Hr |].
      destruct (Hk b) as [Kc Kb]. split; congruence.
Qed.

(** The two loops, for a property kept by every step. *)
Lemma fold_pockets_keeps (P : State * list ref -> Prop) (b : ref) (ps : list (R * R)) :
  (forall acc p, In p ps -> P acc -> P (check_pocket b acc p)) ->
  forall acc, P acc -> P (fold_left (check_pocket b) ps acc).
Proof.
  induction ps as [| p ps IH]; intros Hstep acc Hacc; cbn [fold_left]; [assumption |].
  apply IH.
  - intros acc' p' Hp'. apply Hstep. now right.
  - apply Hstep; [now left | assumption].
Qed.

Lemma check_ball_keeps (P : State * list ref -> Prop) (b : ref) :
  (forall acc p, In p pockets -> P acc -> P (check_pocket b acc p)) ->
  forall acc, P acc -> P (check_ball acc b).
Proof. apply fold_pockets_keeps. Qed.

Lemma check_balls_keep (P : State * list ref -> Prop) (l : list ref) :
  (forall b acc p, In p pockets -> P acc -> P (check_pocket b acc p)) ->
  forall acc, P acc -> P (fold_left check_ball l acc).
Proof.
  intros Hstep.
  induction l as [| b l IH]; intros acc Hacc; cbn [fold_left]; [assumption |].
  apply IH. apply check_ball_keeps; [apply Hstep | assumption].
Qed.

Lemma check_pockets_inv (s : State) : pocket_inv s (check_pockets s).
Proof.
  unfold check_pockets. apply check_balls_keep.
  - intros b acc p _. apply check_pocket_inv.
  - apply pocket_inv_start.
Qed.

(** An event of the check: what the step for ball [b0] and pocket [p0]
    brings about, and every later step keeps, holds at the end. *)
Lemma check_pockets_event (s0 : State) (Q : State * list ref -> Prop)
      (b0 : ref) (p0 : R * R) :
  In b0 (balls s0) -> In p0 pockets ->
  (forall b acc p, In p pockets -> pocket_inv s0 acc -> Q acc ->
                   Q (check_pocket b acc p)) ->
  (forall acc, pocket_inv s0 acc -> Q (check_pocket b0 acc p0)) ->
  Q (check_pockets s0).
Proof.
  intros Hb0 Hp0 Hkeep Hfire.
  set (P := fun acc => pocket_inv s0 acc /\ Q acc).
  assert (HP : forall b acc p, In p pockets -> P acc -> P (check_pocket b acc p)).
  { intros b acc p Hp [Hi Hq]. split; [now apply check_pocket_inv | now apply Hkeep]. }
  apply in_split in Hb0 as (l1 & l2 & Hl).
  apply in_split in Hp0 as (q1 & q2 & Hq).
  unfold check_pockets. rewrite Hl, fold_left_app. cbn [fold_left].
  assert (H1 : pocket_inv s0 (fold_left check_ball l1 (s0, []))).
  { apply check_balls_keep; [intros; now apply check_pocket_inv | apply pocket_inv_start]. }
  assert (H2 : P (check_ball (fold_left check_ball l1 (s0, [])) b0)).
  { change (P (fold_left (check_pocket b0) pockets (fold_left check_ball l1 (s0, [])))).
    rewrite Hq, fold_left_app. cbn [fold_left].
    apply fold_pockets_keeps.
    - intros acc p Hp. apply HP. rewrite Hq. apply in_or_app; right; now right.
    - split.
      + apply check_pocket_inv. apply fold_pockets_keeps; [| exact H1].
        intros; now apply check_pocket_inv.
      + apply Hfire. apply fold_pockets_keeps; [| exact H1].
        intros; now apply check_pocket_inv. }
  apply (check_balls_keep P l2 HP _ H2).
Qed.

(** A ball that is black, or is not a cue ball, is not moved by the check. *)
Lemma pocket_inv_fixed (s0 : State) (acc : State * list ref) (b : ref) :
  pocket_inv s0 acc ->
  is_black (store s0 b) = true \/ is_cue (store s0 b) = false ->
  same_motion (store (fst acc) b) (store s0 b) /\
  is_black (store (fst acc) b) = is_black (store s0 b) /\
  is_cue (store (fst acc) b) = is_cue (store s0 b).
Proof.
  intros (_ & _ & _ & _ & Hk & Hm & _) Hkind.
  destruct (Hk b) as [Kc Kb].
  split; [| split; assumption].
  destruct (Hm b) as [Hsame | (H1 & H2 & _)]; [assumption |].
  destruct Hkind; congruence.
Qed.

(** A potted black ball ends the game with the win, whatever else is
    checked afterwards. *)
Lemma black_potted_wins (s : State) (b : ref) :
  In b (balls s) -> is_black (store s b) = true -> in_pocket (store s b) ->
  game_over (fst (check_pockets s)) = true /\
  win_message (fst (check_pockets s)) = Some MSG_WIN.
Proof.
  intros Hb Hblack (p & Hp & Hd).
  apply (check_pockets_event s
           (fun acc => game_over (fst acc) = true /\
                       win_message (fst acc) = Some MSG_WIN) b p Hb Hp).
  - intros b' acc p' _ Hinv [Hg Hw].
    destruct (check_pocket_inv s b' acc p' Hinv) as (_ & _ & _ & _ & _ & _ & _ & Hout).
    destruct acc as [s1 removed], p' as [px py]. cbn [fst snd] in *.
    unfold check_pocket in *. cbv zeta in *.
    case_cmp; [| now split].
    destruct (is_black (store s1 b')); [now split |].
    destruct (is_cue (store s1 b')); now split.
  - intros acc Hinv.
    destruct (pocket_inv_fixed s acc b Hinv (or_introl Hblack))
      as ((Ex & Ey & _) & Eb & _).
    destruct acc as [s1 removed], p as [px py]. cbn [fst snd] in *.
    unfold check_pocket. cbv zeta. rewrite Ex, Ey.
    apply Rltb_true in Hd. rewrite Hd, Eb, Hblack. now split.
Qed.

(** A potted ball that is neither black nor cue is listed for removal,
    whether or not the black ball was potted before it. *)
Lemma object_potted_listed (s : State) (b : ref) :
  In b (balls s) -> is_black (store s b) = false -> is_cue (store s b) = false ->
  in_pocket (store s b) ->
  In b (snd (check_pockets s)).
Proof.
  intros Hb Hblack Hcue (p & Hp & Hd).
  apply (check_pockets_event s (fun acc => In b (snd acc)) b p Hb Hp).
  - intros b' acc p' _ _ Hin.
    destruct acc as [s1 removed], p' as [px py]. cbn [fst snd] in *.
    unfold check_pocket. cbv zeta.
    case_cmp; [| assumption].
    destruct (is_black (store s1 b')); [assumption |].
    destruct (is_cue (store s1 b')); [assumption |].
    cbn [snd]. apply in_or_app; now left.
  - intros acc Hinv.
    destruct (pocket_inv_fixed s acc b Hinv (or_intror Hcue))
      as ((Ex & Ey & _) & Eb & Ec).
    destruct acc as [s1 removed], p as [px py]. cbn [fst snd] in *.
    unfold check_pocket. cbv zeta. rewrite Ex, Ey.
    apply Rltb_true in Hd. rewrite Hd, Eb, Hblack, Ec, Hcue.
    cbn [snd]. apply in_or_app; right; now left.
Qed.

(** A potted cue ball is on the restart position, at rest, when the check
    ends. *)
Lemma cue_potted_reset (s : State) (b : ref) :
  In b (balls s) -> is_black (store s b) = false -> is_cue (store s b) = true ->
  in_pocket (store s b) ->
  is_reset (store (fst (check_pockets s)) b).
Proof.
  intros Hb Hblack Hcue (p & Hp & Hd).
  apply (check_pockets_event s (fun acc => is_reset (store (fst acc) b)) b p Hb Hp).
  - intros b' acc p' Hp' Hinv Hreset.
    destruct Hinv as (_ & _ & _ & _ & Hk & _).
    destruct acc as [s1 removed], p' as [px py]. cbn [fst snd] in *.
    unfold check_pocket. cbv zeta.
    case_cmp; [| assumption].
    destruct (is_black (store s1 b')) eqn:Eb; [assumption |].
    destruct (is_cue (store s1 b')) eqn:Ec; [| assumption].
    cbn [fst set_store store].
    destruct (Nat.eq_dec b b') as [<- | Hne].
    + exfalso. apply (restart_far_from_pockets (store s1 b) (px, py) Hreset Hp').
      exact Hc.
    + destruct (setattr_reset (store s1) b' b) as (_ & Hsame & _).
      cbv zeta in Hsame. destruct (Hsame Hne) as (E1 & E2 & E3 & E4).
      destruct Hreset as (F1 & F2 & F3 & F4).
      unfold is_reset. repeat split; congruence.
  - intros acc Hinv.
    pose proof Hinv as (_ & _ & _ & _ & Hk & Hm & _).
    destruct (Hk b) as [Kc Kb].
    destruct acc as [s1 removed], p as [px py]. cbn [fst snd] in *.
    unfold check_pocket. cbv zeta.
    destruct (Hm b) as [(Ex & Ey & _) | (_ & _ & Hreset)].
    + rewrite Ex, Ey. apply Rltb_true in Hd. rewrite Hd, Kb, Hblack, Kc, Hcue.
      cbn [fst set_store store].
      destruct (setattr_reset (store s1) b b) as (_ & _ & Heq).
      now apply Heq.
    + case_cmp; [| assumption].
      exfalso. apply (restart_far_from_pockets (store s1 b) (px, py) Hreset Hp).
      exact Hc.
Qed.

(** ** Removal from the list *)

Lemma list_remove_keeps (rb b : ref) (l : list ref) :
  In b l -> b <> rb -> In b (list_remove rb l).
Proof.
  induction l as [| r l IH]; intros Hin Hne; [contradiction |].
  cbn [list_remove]. destruct (Nat.eqb rb r) eqn:E.
  - apply Nat.eqb_eq in E; subst r.
    destruct Hin as [-> | Hin]; [congruence | assumption].
  - destruct Hin as [-> | Hin]; [now left | right; now apply IH].
Qed.

Lemma list_remove_sub (rb b : ref) (l : list ref) :
  In b (list_remove rb l) -> In b l.
Proof.
  induction l as [| r l IH]; intros Hin; [contradiction |].
  cbn [list_remove] in Hin. destruct (Nat.eqb rb r); [now right |].
  destruct Hin as [-> | Hin]; [now left | right; now apply IH].
Qed.

Lemma list_remove_NoDup (rb : ref) (l : list ref) :
  NoDup l -> NoDup (list_remove rb l) /\ ~ In rb (list_remove rb l).
Proof.
  induction l as [| r l IH]; intros Hd; [split; [constructor | intros []] |].
  inversion Hd as [| ? ? Hn Hd']; subst.
  cbn [list_remove]. destruct (Nat.eqb rb r) eqn:E.
  - apply Nat.eqb_eq in E; subst r. now split.
  - apply Nat.eqb_neq in E. destruct (IH Hd') as [IH1 IH2]. split.
    + constructor; [| assumption]. intros Hin. apply Hn. eapply list_remove_sub; eassumption.
    + intros [-> | Hin]; [congruence | contradiction].
Qed.

Lemma remove_balls_keeps (removed l : list ref) (b : ref) :
  In b l -> ~ In b removed -> In b (remove_balls removed l).
Proof.
  unfold remove_balls. revert l.
  induction removed as [| rb removed IH]; intros l Hin Hn; cbn [fold_left]; [assumption |].
  apply IH.
  - destruct (existsb (Nat.eqb rb) l); [| assumption].
    apply list_remove_keeps; [assumption |]. intros ->. apply Hn. now left.
  - intros H. apply Hn. now right.
Qed.

Lemma remove_balls_sub (removed l : list ref) (b : ref) :
  In b (remove_balls removed l) -> In b l.
Proof.
  unfold remove_balls. revert l.
  induction removed as [| rb removed IH]; intros l Hin; cbn [fold_left] in Hin; [assumption |].
  apply IH in Hin.
  destruct (existsb (Nat.eqb rb) l); [| assumption].
  eapply list_remove_sub; eassumption.
Qed.

Lemma remove_balls_drops (removed l : list ref) (b : ref) :
  NoDup l -> In b removed -> ~ In b (remove_balls removed l).
Proof.
  unfold remove_balls. revert l.
  induction removed as [| rb removed IH]; intros l Hd Hin; [contradiction |].
  cbn [fold_left].
  destruct Hin as [-> | Hin].
  - intros H. apply remove_balls_sub in H.
    destruct (existsb (Nat.eqb b) l) eqn:E.
    + now apply (proj2 (list_remove_NoDup b l Hd)).
    + assert (Ex : existsb (Nat.eqb b) l = true)
        by (apply existsb_exists; exists b; split; [assumption | apply Nat.eqb_refl]).
      congruence.
  - apply IH; [| assumption].
    destruct (existsb (Nat.eqb rb) l); [| assumption].
    now apply list_remove_NoDup.
Qed.

(** C3 (as the program has it): in the pocket check of one tick, a potted
    black ball sets [game_over] with the win outcome, and that outcome
    stands at the end of the check; the check does not stop there: every
    potted ball of the list that is neither black nor cue is still listed
    and removed from the list in that tick, and a potted cue ball is still
    put back on the restart position. *)
Theorem black_potted_check_continues (s : State) :
  NoDup (balls s) ->
  (forall b, In b (balls s) -> is_black (store s b) = true ->
             in_pocket (store s b) ->
             game_over (fst (check_pockets s)) = true /\
             win_message (fst (check_pockets s)) = Some MSG_WIN) /\
  (forall b, In b (balls s) -> is_black (store s b) = false ->
             is_cue (store s b) = false -> in_pocket (store s b) ->
             In b (snd (check_pockets s)) /\
             ~ In b (remove_balls (snd (check_pockets s)) (balls s))) /\
  (forall b, In b (balls s) -> is_black (store s b) = false ->
             is_cue (store s b) = true -> in_pocket (store s b) ->
             is_reset (store (fst (check_pockets s)) b)).
Proof.
  intros Hd. split; [| split].
  - apply black_potted_wins.
  - intros b Hb Hblack Hcue Hp.
    pose proof (object_potted_listed s b Hb Hblack Hcue Hp) as Hin.
    split; [assumption | now apply remove_balls_drops].
  - apply cue_potted_reset.
Qed.

Lemma corner_black_in_pocket : in_pocket (corner_store 1%nat).
Proof.
  exists (0, 0). split; [now left |].
  cbn [corner_store x y fst snd]. unfold distance, POCKET_RADIUS.
  apply hypot_lt; lra.
Qed.

Lemma corner_red_in_pocket : in_pocket (corner_store 2%nat).
Proof.
  exists (WIDTH, 0). split; [right; now left |].
  cbn [corner_store x y fst snd]. unfold distance, POCKET_RADIUS, WIDTH.
  apply hypot_lt; lra.
Qed.

(** C3, counterexample: the black ball, second in the list, is potted, and
    the red ball, third in the list, is still checked, listed and removed
    in the same check. *)
Lemma red_removed_after_black_potted :
  balls corner_state = [0; 1; 2]%nat /\
  is_black (store corner_state 1%nat) = true /\
  in_pocket (store corner_state 1%nat) /\
  game_over (fst (check_pockets corner_state)) = true /\
  win_message (fst (check_pockets corner_state)) = Some MSG_WIN /\
  In 2%nat (snd (check_pockets corner_state)) /\
  ~ In 2%nat (remove_balls (snd (check_pockets corner_state)) (balls corner_state)).
Proof.
  assert (Hd : NoDup (balls corner_state)).
  { cbn. repeat constructor; cbn; intuition lia. }
  assert (Hred : In 2%nat (snd (check_pockets corner_state))).
  { apply object_potted_listed; try reflexivity.
    - cbn; auto.
    - exact corner_red_in_pocket. }
  split; [reflexivity |]. split; [reflexivity |].
  split; [exact corner_black_in_pocket |].
  destruct (black_potted_wins corner_state 1%nat) as [Hg Hw];
    [cbn; auto | reflexivity | exact corner_black_in_pocket |].
  split; [exact Hg |]. split; [exact Hw |]. split; [exact Hred |].
  now apply remove_balls_drops.
Qed.

Lemma black_potted_check_continues_witness :
  NoDup (balls corner_state) /\
  In 2%nat (snd (check_pockets corner_state)) /\
  ~ In 2%nat (remove_balls (snd (check_pockets corner_state)) (balls corner_state)).
Proof.
  assert (Hd : NoDup (balls corner_state)).
  { cbn. repeat constructor; cbn; intuition lia. }
  split; [exact Hd |].
  apply (proj1 (proj2 (black_potted_check_continues corner_state Hd)) 2%nat).
  - cbn; auto.
  - reflexivity.
  - reflexivity.
  - exact corner_red_in_pocket.
Defined.

(** ** One pass of the loop *)

Lemma same_kind_refl (b : Ball) : same_kind b b.
Proof. split; reflexivity. Qed.

Lemma same_kind_trans (a b c : Ball) : same_kind a b -> same_kind b c -> same_kind a c.
Proof. intros [H1 H2] [H3 H4]; split; congruence. Qed.

Lemma update_all_kind (l : list ref) (h : Store) (r : ref) :
  same_kind (update_all h l r) (h r).
Proof.
  unfold update_all. revert h.
  induction l as [| b l IH]; intros h; cbn [fold_left]; [apply same_kind_refl |].
  eapply same_kind_trans; [apply IH |].
  unfold store_set. destruct (Nat.eqb r b) eqn:E; [| apply same_kind_refl].
  apply Nat.eqb_eq in E; subst.
  destruct (update_keeps_kind (h b)) as (H1 & H2 & _). now split.
Qed.

Lemma setattr_kind (h : Store) (b r : ref) (v : R) :
  same_kind (setattr_x h b v r) (h r) /\ same_kind (setattr_y h b v r) (h r) /\
  same_kind (setattr_vx h b v r) (h r) /\ same_kind (setattr_vy h b v r) (h r).
Proof.
  unfold setattr_x, setattr_y, setattr_vx, setattr_vy, store_set, same_kind.
  destruct (Nat.eqb r b) eqn:E; [apply Nat.eqb_eq in E; subst |];
    repeat split; reflexivity.
Qed.

Lemma collide_kind (balls : list ref) (i j : nat) (h h' : Store) (r : ref) :
  collide balls i j h = Ok h' -> same_kind (h' r) (h r).
Proof.
  unfold collide.
  destruct (getitem balls i) as [b1 |]; cbn [bind]; [| discriminate].
  destruct (getitem balls j) as [b2 |]; cbn [bind]; [| discriminate].
  cbv zeta. case_cmp; [| intros [= <-]; apply same_kind_refl].
  pose proof (guarded_dist_pos (x (h b2) - x (h b1)) (y (h b2) - y (h b1))) as Hpos.
  rewrite !div_nonzero by lra. cbn [bind]. intros [= <-].
  repeat (eapply same_kind_trans; [apply setattr_kind |]).
  apply same_kind_refl.
Qed.

Lemma for_each_result {K S : Type} (P : S -> Prop) (ks : list K)
      (body : K -> S -> result S) :
  (forall k s s', In k ks -> P s -> body k s = Ok s' -> P s') ->
  forall s s', P s -> for_each ks body s = Ok s' -> P s'.
Proof.
  induction ks as [| k ks IH]; intros Hbody s s' Hs E; cbn [for_each] in E.
  - now injection E as <-.
  - destruct (body k s) as [s1 |] eqn:E1; cbn [bind] in E; [| discriminate].
    apply (IH (fun k' t t' Hk' => Hbody k' t t' (or_intror Hk')) s1 s'); [| exact E].
    apply (Hbody k s s1); [now left | assumption | assumption].
Qed.

Lemma handle_collisions_kind (balls : list ref) (h h' : Store) :
  handle_collisions balls h = Ok h' -> forall r, same_kind (h' r) (h r).
Proof.
  intros E. unfold handle_collisions in E.
  refine (for_each_result (fun t => forall r, same_kind (t r) (h r))
            _ _ _ h h' (fun r => same_kind_refl (h r)) E).
  intros i s s' _ Hs Ei.
  refine (for_each_result (fun t => forall r, same_kind (t r) (h r))
            _ _ _ s s' Hs Ei).
  intros j t t' _ Ht Ej r.
  eapply same_kind_trans; [eapply collide_kind; eassumption | apply Ht].
Qed.

Lemma physics_returns (s0 : State) :
  exists s, physics s0 = Ok s /\ physics_keeps s0 s.
Proof.
  unfold physics.
  destruct (objects_spec (balls s0)) as [Hd Hincl].
  destruct (handle_collisions_momentum (balls s0) (objects (balls s0))
              (update_all (store s0) (balls s0)) Hd Hincl) as (h & E & _).
  rewrite E. cbn [bind].
  pose proof (handle_collisions_kind _ _ _ E) as Hkind.
  set (s1 := set_store s0 h).
  pose proof (check_pockets_inv s1) as Hinv.
  destruct (check_pockets s1) as [s2 removed] eqn:Ecp.
  destruct Hinv as (Hb & Hc & Hs & Hl & Hk & _ & Hr & Hg). cbn [fst snd] in *.
  eexists; split; [reflexivity |].
  assert (Hk0 : forall r, same_kind (store s2 r) (store s0 r)).
  { intros r. eapply same_kind_trans; [apply Hk |].
    eapply same_kind_trans; [apply Hkind |]. apply update_all_kind. }
  unfold physics_keeps.
  cbn [set_balls cue_ball shots_taken llm_log store balls game_over win_message].
  split; [exact Hc |]. split; [exact Hs |]. split; [exact Hl |].
  split; [exact Hk0 |]. split; [| split].
  - intros b Hin. apply remove_balls_sub in Hin. now rewrite Hb in Hin.
  - intros b Hin Hkindb. apply remove_balls_keeps; [now rewrite Hb |].
    intros Hrem. destruct (Hr b Hrem) as [R1 R2].
    assert (K : same_kind (store s1 b) (store s0 b)).
    { eapply same_kind_trans; [apply Hkind |]. apply update_all_kind. }
    destruct K as [K1 K2]. destruct Hkindb; congruence.
  - exact Hg.
Qed.

Section LoopFacts.

Variable advisor : Prompt -> Reply.

Lemma take_shot_kind (s : State) (r : ref) :
  same_kind (store (take_shot advisor s) r) (store s r).
Proof.
  unfold take_shot, apply_shot.
  destruct (requested_shot advisor _) as [angle_deg power_val].
  cbn [store set_store set_llm_log set_shots_taken cue_ball].
  eapply same_kind_trans; [apply setattr_kind |]. apply setattr_kind.
Qed.

Lemma turn_keeps (s : State) :
  cue_ball (turn advisor s) = cue_ball s /\
  balls (turn advisor s) = balls s /\
  (forall r, same_kind (store (turn advisor s) r) (store s r)).
Proof.
  unfold turn.
  destruct (at_rest s); [| repeat split; reflexivity].
  destruct ((shots_taken s <? MAX_SHOTS)%nat && negb (game_over s)).
  - destruct (take_shot_bookkeeping advisor s) as (_ & _ & Hb & Hc & _).
    split; [exact Hc | split; [exact Hb | apply take_shot_kind]].
  - destruct (negb (game_over s)); [| repeat split; reflexivity].
    cbv zeta. destruct (falsy _); [| repeat split; reflexivity].
    destruct (existsb _ _); repeat split; reflexivity.
Qed.

Lemma tick_cue_inv (s : State) :
  cue_inv s ->
  exists s', tick advisor s = Ok s' /\ cue_ball s' = cue_ball s /\ cue_inv s'.
Proof.
  intros (Hin & Hcue & Hblack). unfold tick.
  destruct (negb (game_over s)); [| exists s; repeat split; assumption].
  destruct (physics_returns s) as (s1 & -> & Hc & _ & _ & Hk & _ & Hstay & _).
  cbn [bind]. eexists; split; [reflexivity |].
  destruct (turn_keeps s1) as (Tc & Tb & Tk).
  assert (Ec : cue_ball (turn advisor s1) = cue_ball s) by congruence.
  split; [exact Ec |].
  unfold cue_inv. rewrite Ec, Tb.
  destruct (Tk (cue_ball s)) as [K1 K2]. destruct (Hk (cue_ball s)) as [K3 K4].
  split; [apply Hstay; auto | split; congruence].
Qed.

Lemma run_cue_inv (n : nat) (s : State) :
  cue_inv s ->
  exists s', run advisor n s = Ok s' /\ cue_ball s' = cue_ball s /\ cue_inv s'.
Proof.
  revert s. induction n as [| n IH]; intros s Hinv; cbn [run].
  - exists s; repeat split; try reflexivity; apply Hinv.
  - destruct (tick_cue_inv s Hinv) as (s1 & -> & Hc1 & Hinv1). cbn [bind].
    destruct (IH s1 Hinv1) as (s' & E & Hc & Hinv').
    exists s'; split; [exact E | split; [congruence | exact Hinv']].
Qed.

Lemma run_game_over (n : nat) (s : State) :
  game_over s = true -> run advisor n s = Ok s.
Proof.
  intros Hg. induction n as [| n IH]; cbn [run]; [reflexivity |].
  unfold tick. rewrite Hg. cbn [negb bind]. exact IH.
Qed.

Lemma turn_budget (s : State) :
  at_rest s = true -> shots_taken s = MAX_SHOTS ->
  game_over s = false -> win_message s = None ->
  game_over (turn advisor s) = true /\
  win_message (turn advisor s)
  = Some (if existsb (fun b => is_black (store s b)) (balls s)
          then MSG_LOSE else MSG_CLEARED) /\
  shots_taken (turn advisor s) = shots_taken s /\
  llm_log (turn advisor s) = llm_log s.
Proof.
  intros Hrest Hshots Hg Hw. unfold turn.
  rewrite Hrest, Hshots, Hg, Nat.ltb_irrefl. cbn [andb negb]. cbv zeta.
  cbn [win_message set_game_over store balls]. rewrite Hw. cbn [falsy].
  destruct (existsb _ _); repeat split; try reflexivity; exact Hshots.
Qed.

End LoopFacts.

(** C8: for the cue ball of the session (in the list, cue and not black),
    the pocket check puts it back on [(WIDTH / 4, HEIGHT / 2)] with both
    velocity components zero whenever its centre is within the capture
    radius of a pocket; the check never lists it for removal, and after any
    number of passes of the loop it is still in the list of balls. *)
Theorem cue_ball_foul_reset (advisor : Prompt -> Reply) (s : State) :
  cue_inv s ->
  (in_pocket (store s (cue_ball s)) ->
   let cue' := store (fst (check_pockets s)) (cue_ball s) in
   x cue' = WIDTH / 4 /\ y cue' = HEIGHT / 2 /\ vx cue' = 0 /\ vy cue' = 0) /\
  ~ In (cue_ball s) (snd (check_pockets s)) /\
  In (cue_ball s) (remove_balls (snd (check_pockets s)) (balls s)) /\
  (forall n : nat,
      exists s', run advisor n s = Ok s' /\
                 cue_ball s' = cue_ball s /\ In (cue_ball s) (balls s')).
Proof.
  intros Hinv. pose proof Hinv as (Hin & Hcue & Hblack).
  assert (Hnot : ~ In (cue_ball s) (snd (check_pockets s))).
  { intros H.
    destruct (check_pockets_inv s) as (_ & _ & _ & _ & _ & _ & Hr & _).
    destruct (Hr _ H). congruence. }
  split; [| split; [exact Hnot | split]].
  - intros Hp. cbv zeta.
    destruct (cue_potted_reset s (cue_ball s) Hin Hblack Hcue Hp) as (Hx & Hy & Hvx & Hvy).
    rewrite Hx, Hy, floordiv_WIDTH_4, floordiv_HEIGHT_2.
    unfold WIDTH, HEIGHT. repeat split; try assumption; lra.
  - now apply remove_balls_keeps.
  - intros n. destruct (run_cue_inv advisor n s Hinv) as (s' & E & Hc & Hin' & _).
    exists s'. split; [exact E | split; [exact Hc |]]. now rewrite <- Hc.
Qed.

(** C4: with [MAX_SHOTS = 10], in a pass of the loop that starts with ten
    shots taken and no outcome yet, pots no black ball and finds every ball
    of the list at rest, the session becomes game over, with the lose
    outcome if a black ball is in the list and the cleared outcome
    otherwise; no prompt is sent in that pass, and no later pass changes
    the state, so no further shot is ever requested. *)
Theorem shot_budget_exhausted (advisor : Prompt -> Reply) (s0 s : State) :
  game_over s0 = false -> win_message s0 = None -> shots_taken s0 = MAX_SHOTS ->
  physics s0 = Ok s -> game_over s = false -> at_rest s = true ->
  MAX_SHOTS = 10%nat /\
  exists s',
    tick advisor s0 = Ok s' /\
    game_over s' = true /\
    win_message s'
    = Some (if existsb (fun b => is_black (store s b)) (balls s)
            then MSG_LOSE else MSG_CLEARED) /\
    shots_taken s' = MAX_SHOTS /\
    llm_log s' = llm_log s0 /\
    (forall n : nat, run advisor n s' = Ok s').
Proof.
  intros Hg0 Hw0 Hshots Hphys Hg Hrest.
  split; [reflexivity |].
  destruct (physics_returns s0) as (s1 & E1 & _ & Hs & Hl & _ & _ & _ & Hout).
  rewrite Hphys in E1. injection E1 as <-.
  assert (Hw : win_message s = None).
  { destruct Hout as [[_ Hw] | [Hg' _]]; congruence. }
  destruct (turn_budget advisor s Hrest ltac:(congruence) Hg Hw) as (Tg & Tw & Ts & Tl).
  exists (turn advisor s).
  split; [unfold tick; rewrite Hg0, Hphys; reflexivity |].
  split; [exact Tg |]. split; [exact Tw |].
  split; [congruence |]. split; [congruence |].
  intros n. now apply run_game_over.
Qed.

(** ** The program on concrete tables *)

Lemma still_not_moving (b : Ball) : vx b = 0 -> vy b = 0 -> is_moving b = false.
Proof.
  intros Hx Hy. unfold is_moving, Rgtb. rewrite Hx, Hy, Rabs_R0.
  assert (E : Rltb 0.05 0 = false) by (apply Rltb_false; lra).
  now rewrite E.
Qed.

Lemma initial_at_rest (randint : nat -> Z) : at_rest (initial_state randint) = true.
Proof.
  unfold at_rest. apply negb_true_iff, not_true_iff_false. intros H.
  apply existsb_exists in H as (b & _ & Hm).
  cbn [store initial_state] in Hm.
  rewrite still_not_moving in Hm; [discriminate | |];
    destruct b as [| [| k]]; reflexivity.
Qed.

Lemma initial_cue_inv (randint : nat -> Z) : cue_inv (initial_state randint).
Proof.
  unfold cue_inv. cbn. repeat split; auto.
Qed.

Lemma advisor_fallback_shot_witness :
  at_rest (initial_state (fun _ => 0%Z)) = true /\
  requested_shot unreachable_advisor (shot_state (initial_state (fun _ => 0%Z)))
  = (fallback_angle (initial_state (fun _ => 0%Z)), 8) /\
  toward_closest (initial_state (fun _ => 0%Z))
                 (fallback_angle (initial_state (fun _ => 0%Z))).
Proof.
  pose proof (initial_at_rest (fun _ => 0%Z)) as Hrest.
  assert (Hshots : (shots_taken (initial_state (fun _ => 0%Z)) < MAX_SHOTS)%nat)
    by (cbn; unfold MAX_SHOTS; lia).
  destruct (advisor_fallback_shot unreachable_advisor (initial_state (fun _ => 0%Z))
              Hrest Hshots eq_refl) as (_ & Hfail & Hclosest).
  destruct (Hfail RequestException eq_refl) as (Hshot & _).
  split; [exact Hrest | split; [exact Hshot | exact Hclosest]].
Defined.

Lemma cue_ball_foul_reset_witness :
  cue_inv foul_state /\
  in_pocket (store foul_state (cue_ball foul_state)) /\
  x (store (fst (check_pockets foul_state)) (cue_ball foul_state)) = WIDTH / 4 /\
  y (store (fst (check_pockets foul_state)) (cue_ball foul_state)) = HEIGHT / 2 /\
  vx (store (fst (check_pockets foul_state)) (cue_ball foul_state)) = 0 /\
  vy (store (fst (check_pockets foul_state)) (cue_ball foul_state)) = 0 /\
  ~ In (cue_ball foul_state) (snd (check_pockets foul_state)) /\
  In (cue_ball foul_state)
     (remove_balls (snd (check_pockets foul_state)) (balls foul_state)) /\
  exists s', run unreachable_advisor 3 foul_state = Ok s' /\
             cue_ball s' = cue_ball foul_state /\
             In (cue_ball foul_state) (balls s').
Proof.
  assert (Hinv : cue_inv foul_state).
  { unfold cue_inv. cbn. repeat split; auto. }
  assert (Hp : in_pocket (store foul_state (cue_ball foul_state))).
  { exists (0, 0). split; [now left |].
    cbn [foul_state store cue_ball foul_store x y fst snd].
    unfold distance, POCKET_RADIUS. apply hypot_lt; lra. }
  destruct (cue_ball_foul_reset unreachable_advisor foul_state Hinv)
    as (Hreset & Hnot & Hstay & Hrun).
  destruct (Hreset Hp) as (Hx & Hy & Hvx & Hvy).
  split; [exact Hinv |]. split; [exact Hp |].
  split; [exact Hx |]. split; [exact Hy |]. split; [exact Hvx |]. split; [exact Hvy |].
  split; [exact Hnot |]. split; [exact Hstay |].
  exact (Hrun 3%nat).
Defined.

(** A ball at rest inside the table stays where it is. *)
Lemma update_still (b : Ball) :
  in_table b -> vx b = 0 -> vy b = 0 ->
  x (update b) = x b /\ y (update b) = y b /\ vx (update b) = 0 /\ vy (update b) = 0.
Proof.
  unfold in_table, BALL_RADIUS, WIDTH, HEIGHT. intros [Hx Hy] Hvx Hvy.
  destruct (update_x_axis b) as (_ & _ & H3).
  destruct (update_y_axis b) as (_ & _ & H4).
  unfold BALL_RADIUS, WIDTH, HEIGHT in *.
  destruct H3 as [Ex Evx]; [lra | lra |].
  destruct H4 as [Ey Evy]; [lra | lra |].
  rewrite Ex, Ey, Evx, Evy, Hvx, Hvy. repeat split; lra.
Qed.

(** No ball of the list is in a pocket: the check changes nothing. *)
Lemma check_pockets_far (s : State) :
  (forall b, In b (balls s) -> ~ in_pocket (store s b)) ->
  check_pockets s = (s, []).
Proof.
  intros Hfar. unfold check_pockets.
  assert (H : forall l, incl l (balls s) -> fold_left check_ball l (s, []) = (s, [])).
  { induction l as [| b l IH]; intros Hl; cbn [fold_left]; [reflexivity |].
    assert (E : check_ball (s, []) b = (s, [])).
    { unfold check_ball.
      assert (G : forall ps, incl ps pockets ->
                             fold_left (check_pocket b) ps (s, []) = (s, [])).
      { induction ps as [| p ps IHp]; intros Hps; cbn [fold_left]; [reflexivity |].
        assert (Ep : check_pocket b (s, []) p = (s, [])).
        { unfold check_pocket. destruct p as [px py]. cbv zeta.
          case_cmp; [| reflexivity].
          exfalso. apply (Hfar b); [apply Hl; now left |].
          exists (px, py). split; [apply Hps; now left | exact Hc]. }
        rewrite Ep. apply IHp. intros q Hq. apply Hps. now right. }
      apply G, incl_refl. }
    rewrite E. apply IH. intros r Hr. apply Hl. now right. }
  apply H, incl_refl.
Qed.

Lemma quiet_after_balls :
  (forall b, In b [0; 1]%nat ->
     x (store quiet_after b) = x (quiet_store b) /\
     y (store quiet_after b) = y (quiet_store b) /\
     vx (store quiet_after b) = 0 /\ vy (store quiet_after b) = 0).
Proof.
  intros b [<- | [<- | []]]; cbn [quiet_after store set_balls set_store];
    unfold update_all; cbn [fold_left]; unfold store_set; cbn [Nat.eqb];
    apply update_still; cbn; unfold in_table, BALL_RADIUS, WIDTH, HEIGHT; cbn; lra.
Qed.

Lemma quiet_physics : physics quiet_state = Ok quiet_after.
Proof.
  destruct (quiet_after_balls 0%nat ltac:(cbn; auto)) as (X0 & Y0 & _).
  destruct (quiet_after_balls 1%nat ltac:(cbn; auto)) as (X1 & Y1 & _).
  cbn [quiet_after store set_balls set_store quiet_store x y] in X0, Y0, X1, Y1.
  unfold physics. cbn [store balls quiet_state].
  assert (Ec : handle_collisions [0; 1]%nat (update_all quiet_store [0; 1]%nat)
               = Ok (update_all quiet_store [0; 1]%nat)).
  { unfold handle_collisions. cbn [List.length range seq Nat.sub Nat.add for_each].
    unfold collide. cbn [getitem nth_error bind]. cbv zeta.
    rewrite X0, Y0, X1, Y1. unfold guarded_dist.
    replace (200 - 200) with 0 by ring. rewrite hypot_axis by lra.
    assert (E1 : Reqb (600 - 200) 0 = false) by (apply Reqb_false; lra).
    assert (E2 : Rltb (600 - 200) (2 * BALL_RADIUS) = false)
      by (apply Rltb_false; unfold BALL_RADIUS; lra).
    rewrite E1, E2. reflexivity. }
  rewrite Ec. cbn [bind].
  rewrite check_pockets_far; [reflexivity |].
  cbn [balls store set_store]. intros b Hb (p & Hp & Hd).
  revert Hd. apply Rle_not_lt. unfold distance, POCKET_RADIUS.
  apply hypot_ge; [lra |].
  unfold pockets, WIDTH, HEIGHT in Hp.
  destruct Hb as [<- | [<- | []]];
    [rewrite X0, Y0 | rewrite X1, Y1];
    destruct Hp as [<- | [<- | [<- | [<- | []]]]]; cbn [fst snd]; nra.
Qed.

Lemma quiet_after_rest : at_rest quiet_after = true.
Proof.
  unfold at_rest. apply negb_true_iff, not_true_iff_false. intros H.
  apply existsb_exists in H as (b & Hb & Hm).
  destruct (quiet_after_balls b Hb) as (_ & _ & Hvx & Hvy).
  rewrite still_not_moving in Hm by assumption. discriminate.
Qed.

Lemma shot_budget_exhausted_witness :
  physics quiet_state = Ok quiet_after /\
  at_rest quiet_after = true /\
  exists s',
    tick unreachable_advisor quiet_state = Ok s' /\
    game_over s' = true /\
    win_message s'
    = Some (if existsb (fun b => is_black (store quiet_after b)) (balls quiet_after)
            then MSG_LOSE else MSG_CLEARED) /\
    shots_taken s' = MAX_SHOTS /\
    llm_log s' = llm_log quiet_state /\
    (forall n : nat, run unreachable_advisor n s' = Ok s').
Proof.
  split; [exact quiet_physics | split; [exact quiet_after_rest |]].
  exact (proj2 (shot_budget_exhausted unreachable_advisor quiet_state quiet_after
                  eq_refl eq_refl eq_refl quiet_physics eq_refl quiet_after_rest)).
Defined.

(** * Further properties of the program *)

(** ** The update loop *)

Lemma update_all_outside (l : list ref) (h : Store) (r : ref) :
  ~ In r l -> update_all h l r = h r.
Proof.
  unfold update_all. revert h.
  induction l as [| b l IH]; intros h Hn; cbn [fold_left]; [reflexivity |].
  rewrite IH by (intros H; apply Hn; now right).
  apply store_set_other. intros ->. apply Hn. now left.
Qed.

Lemma update_all_inside (l : list ref) (h : Store) (r : ref) :
  NoDup l -> In r l -> update_all h l r = update (h r).
Proof.
  intros Hd. revert h. induction Hd as [| b l Hnb Hd IH]; intros h Hin; [contradiction |].
  change (update_all h (b :: l) r)
    with (update_all (store_set h b (update (h b))) l r).
  destruct Hin as [<- | Hin].
  - rewrite update_all_outside by assumption. apply store_set_same.
  - rewrite IH by assumption. f_equal. apply store_set_other.
    intros ->. contradiction.
Qed.

(** X1: on a list without repeated balls, the loop [for b in balls:
    b.update()] applies [Ball.update] exactly once to every ball of the list
    and leaves every other ball of the store as it is. *)
Theorem update_all_once (l : list ref) (h : Store) :
  NoDup l ->
  forall r, (In r l -> update_all h l r = update (h r)) /\
            (~ In r l -> update_all h l r = h r).
Proof.
  intros Hd r. split; [now apply update_all_inside | apply update_all_outside].
Qed.

Lemma update_all_once_witness :
  NoDup [0; 1]%nat /\
  update_all quiet_store [0; 1]%nat 1%nat = update (quiet_store 1%nat).
Proof.
  assert (Hd : NoDup [0; 1]%nat) by (repeat constructor; cbn; intuition lia).
  split; [exact Hd |].
  apply (proj1 (update_all_once [0; 1]%nat quiet_store Hd 1%nat)).
  cbn; auto.
Defined.

(** ** Collisions: what a pair response does to the positions *)

Lemma x_setattr_x h r v r' :
  x (setattr_x h r v r') = if Nat.eqb r' r then v else x (h r').
Proof. unfold setattr_x, store_set. now destruct (Nat.eqb r' r). Qed.

Lemma y_setattr_y h r v r' :
  y (setattr_y h r v r') = if Nat.eqb r' r then v else y (h r').
Proof. unfold setattr_y, store_set. now destruct (Nat.eqb r' r). Qed.

Lemma x_setattr_y h r v r' : x (setattr_y h r v r') = x (h r').
Proof.
  unfold setattr_y, store_set. destruct (Nat.eqb r' r) eqn:E; [| reflexivity].
  apply Nat.eqb_eq in E; subst; reflexivity.
Qed.

Lemma x_setattr_vx h r v r' : x (setattr_vx h r v r') = x (h r').
Proof.
  unfold setattr_vx, store_set. destruct (Nat.eqb r' r) eqn:E; [| reflexivity].
  apply Nat.eqb_eq in E; subst; reflexivity.
Qed.

Lemma x_setattr_vy h r v r' : x (setattr_vy h r v r') = x (h r').
Proof.
  unfold setattr_vy, store_set. destruct (Nat.eqb r' r) eqn:E; [| reflexivity].
  apply Nat.eqb_eq in E; subst; reflexivity.
Qed.

Lemma y_setattr_x h r v r' : y (setattr_x h r v r') = y (h r').
Proof.
  unfold setattr_x, store_set. destruct (Nat.eqb r' r) eqn:E; [| reflexivity].
  apply Nat.eqb_eq in E; subst; reflexivity.
Qed.

Lemma y_setattr_vx h r v r' : y (setattr_vx h r v r') = y (h r').
Proof.
  unfold setattr_vx, store_set. destruct (Nat.eqb r' r) eqn:E; [| reflexivity].
  apply Nat.eqb_eq in E; subst; reflexivity.
Qed.

Lemma y_setattr_vy h r v r' : y (setattr_vy h r v r') = y (h r').
Proof.
  unfold setattr_vy, store_set. destruct (Nat.eqb r' r) eqn:E; [| reflexivity].
  apply Nat.eqb_eq in E; subst; reflexivity.
Qed.

#[local] Hint Rewrite
  x_setattr_x y_setattr_y x_setattr_y x_setattr_vx x_setattr_vy
  y_setattr_x y_setattr_vx y_setattr_vy : store_reads.

Lemma guarded_dist_hypot dx dy :
  dx <> 0 \/ dy <> 0 -> guarded_dist dx dy = hypot dx dy.
Proof.
  intros Hnz. unfold guarded_dist. case_cmp; [| reflexivity].
  apply hypot_zero in Hc. destruct Hnz; tauto.
Qed.

(** X2: the response to a pair of distinct overlapping balls whose centres
    differ moves both balls along the line of centres: with [n] the unit
    vector from the first centre to the second and [d] their distance, the
    first ball is moved by [(2 * BALL_RADIUS - d) / 2] against [n] and the
    second by the same length along [n], and no other ball is moved.  So
    the vector between the centres keeps its direction, afterwards the
    centres are exactly two radii apart, and their midpoint is kept. *)
Theorem collide_separates (b1 b2 : ref) (h : Store) :
  b1 <> b2 ->
  distance (x (h b1)) (y (h b1)) (x (h b2)) (y (h b2)) < 2 * BALL_RADIUS ->
  x (h b2) - x (h b1) <> 0 \/ y (h b2) - y (h b1) <> 0 ->
  let d := distance (x (h b1)) (y (h b1)) (x (h b2)) (y (h b2)) in
  let nx := (x (h b2) - x (h b1)) / d in
  let ny := (y (h b2) - y (h b1)) / d in
  let half := (2 * BALL_RADIUS - d) / 2 in
  exists h',
    collide [b1; b2] 0 1 h = Ok h' /\
    0 < d /\ 0 < half /\ nx * nx + ny * ny = 1 /\
    x (h' b1) = x (h b1) - nx * half /\ y (h' b1) = y (h b1) - ny * half /\
    x (h' b2) = x (h b2) + nx * half /\ y (h' b2) = y (h b2) + ny * half /\
    (forall r, r <> b1 -> r <> b2 -> x (h' r) = x (h r) /\ y (h' r) = y (h r)) /\
    x (h' b2) - x (h' b1) = 2 * BALL_RADIUS * nx /\
    y (h' b2) - y (h' b1) = 2 * BALL_RADIUS * ny /\
    distance (x (h' b1)) (y (h' b1)) (x (h' b2)) (y (h' b2)) = 2 * BALL_RADIUS /\
    x (h' b1) + x (h' b2) = x (h b1) + x (h b2) /\
    y (h' b1) + y (h' b2) = y (h b1) + y (h b2).
Proof.
  intros Hne Hlt Hnz. cbv zeta. unfold distance in *.
  set (dx := x (h b2) - x (h b1)) in *. set (dy := y (h b2) - y (h b1)) in *.
  pose proof (guarded_dist_hypot dx dy Hnz) as Hg.
  pose proof (guarded_dist_pos dx dy) as Hpos.
  pose proof (unit_normal dx dy Hnz) as Hunit. cbv zeta in Hunit.
  unfold collide. cbn [getitem nth_error bind]. fold dx dy. cbv zeta.
  rewrite Hg in *. pose proof Hlt as Hlt'. apply Rltb_true in Hlt. rewrite Hlt.
  rewrite !div_nonzero by lra. cbn [bind].
  eexists; split; [reflexivity |].
  assert (E12 : Nat.eqb b1 b2 = false) by now apply Nat.eqb_neq.
  assert (E21 : Nat.eqb b2 b1 = false) by (apply Nat.eqb_neq; congruence).
  set (d := hypot dx dy) in *.
  set (nx := dx / d) in *. set (ny := dy / d) in *.
  set (half := (2 * BALL_RADIUS - d) / 2).
  assert (Hhalf : 0 < half) by (unfold half; lra).
  assert (Hdx : dx = nx * d) by (unfold nx; field; lra).
  assert (Hdy : dy = ny * d) by (unfold ny; field; lra).
  split; [exact Hpos |]. split; [exact Hhalf |]. split; [exact Hunit |].
  split; [autorewrite with store_reads; now rewrite ?Nat.eqb_refl, ?E12, ?E21 |].
  split; [autorewrite with store_reads; now rewrite ?Nat.eqb_refl, ?E12, ?E21 |].
  split; [autorewrite with store_reads; now rewrite ?Nat.eqb_refl, ?E12, ?E21 |].
  split; [autorewrite with store_reads; now rewrite ?Nat.eqb_refl, ?E12, ?E21 |].
  split.
  { intros r Hr1 Hr2. apply Nat.eqb_neq in Hr1, Hr2.
    autorewrite with store_reads. now rewrite Hr1, Hr2. }
  autorewrite with store_reads. rewrite ?Nat.eqb_refl, ?E12, ?E21.
  assert (Ex : x (h b2) + nx * half - (x (h b1) - nx * half) = 2 * BALL_RADIUS * nx).
  { replace (x (h b2) + nx * half - (x (h b1) - nx * half))
      with (dx + 2 * half * nx) by (unfold dx; ring).
    rewrite Hdx at 1. unfold half. field. }
  assert (Ey : y (h b2) + ny * half - (y (h b1) - ny * half) = 2 * BALL_RADIUS * ny).
  { replace (y (h b2) + ny * half - (y (h b1) - ny * half))
      with (dy + 2 * half * ny) by (unfold dy; ring).
    rewrite Hdy at 1. unfold half. field. }
  split; [exact Ex |]. split; [exact Ey |].
  split; [| split; ring].
  rewrite Ex, Ey.
  replace (2 * BALL_RADIUS * nx) with (nx * (2 * BALL_RADIUS)) by ring.
  replace (2 * BALL_RADIUS * ny) with (ny * (2 * BALL_RADIUS)) by ring.
  rewrite hypot_scale by (unfold BALL_RADIUS; lra).
  unfold hypot. rewrite Hunit, sqrt_1. ring.
Qed.

Lemma collide_separates_witness :
  exists h',
    collide [0; 1]%nat 0 1 two_balls = Ok h' /\
    x (h' 0%nat) = 100 - 1 * ((2 * BALL_RADIUS - 10) / 2) /\
    x (h' 1%nat) = 110 + 1 * ((2 * BALL_RADIUS - 10) / 2) /\
    y (h' 0%nat) = 100 /\ y (h' 1%nat) = 100 /\
    distance (x (h' 0%nat)) (y (h' 0%nat)) (x (h' 1%nat)) (y (h' 1%nat))
    = 2 * BALL_RADIUS.
Proof.
  assert (Hd : distance (x (two_balls 0%nat)) (y (two_balls 0%nat))
                        (x (two_balls 1%nat)) (y (two_balls 1%nat)) = 10).
  { cbn [two_balls x y]. unfold distance.
    replace (100 - 100) with 0 by ring. rewrite hypot_axis; lra. }
  destruct (collide_separates 0%nat 1%nat two_balls) as
    (h' & E & _ & _ & _ & X1 & Y1 & X2 & Y2 & _ & _ & _ & D & _).
  - discriminate.
  - rewrite Hd. unfold BALL_RADIUS. lra.
  - left. cbn [two_balls x y]. lra.
  - rewrite Hd in X1, Y1, X2, Y2. cbn [two_balls x y] in X1, Y1, X2, Y2.
    exists h'. split; [exact E |].
    split; [rewrite X1; field |]. split; [rewrite X2; field |].
    split; [rewrite Y1; field |]. split; [rewrite Y2; field |].
    exact D.
Defined.

(** X3: when the centres of the two balls coincide, the response runs with
    the distance 0.001 and changes nothing: every ball of the store keeps
    its position and its velocity, so the two balls stay on top of each
    other. *)
Theorem collide_stacked_unchanged (b1 b2 : ref) (h : Store) :
  x (h b1) = x (h b2) -> y (h b1) = y (h b2) ->
  exists h',
    collide [b1; b2] 0 1 h = Ok h' /\
    forall r, same_motion (h' r) (h r) /\ same_kind (h' r) (h r).
Proof.
  intros Hx Hy.
  destruct (collide_returns [b1; b2] 0 1 h) as [h' E]; [cbn; lia | cbn; lia |].
  exists h'. split; [exact E |]. intros r.
  split; [| eapply collide_kind; exact E].
  revert E. unfold collide. cbn [getitem nth_error bind]. cbv zeta.
  replace (x (h b2) - x (h b1)) with 0 by lra.
  replace (y (h b2) - y (h b1)) with 0 by lra.
  rewrite (guarded_dist_overlap 0 0 eq_refl eq_refl).
  assert (E1 : Rltb 0.001 (2 * BALL_RADIUS) = true)
    by (apply Rltb_true; unfold BALL_RADIUS; lra).
  rewrite E1, !div_nonzero by lra. cbn [bind]. intros [= <-].
  unfold same_motion. autorewrite with store_reads.
  destruct (Nat.eqb r b1) eqn:R1; destruct (Nat.eqb r b2) eqn:R2;
    destruct (Nat.eqb b1 b2) eqn:E12; destruct (Nat.eqb b2 b1) eqn:E21;
    rewrite ?Nat.eqb_refl;
    repeat match goal with
           | H : Nat.eqb _ _ = true |- _ => apply Nat.eqb_eq in H; subst
           end;
    rewrite ?Nat.eqb_refl in *; try discriminate;
    repeat split; try field; try lra.
Qed.

Lemma collide_stacked_unchanged_witness :
  exists h',
    collide [0; 1]%nat 0 1 stacked_balls = Ok h' /\
    forall r, same_motion (h' r) (stacked_balls r) /\ same_kind (h' r) (stacked_balls r).
Proof.
  apply (collide_stacked_unchanged 0%nat 1%nat stacked_balls); reflexivity.
Defined.

(** A pair of balls that do not overlap is left alone. *)
Lemma collide_apart (balls : list ref) (i j : nat) (b1 b2 : ref) (h : Store) :
  nth_error balls i = Some b1 -> nth_error balls j = Some b2 ->
  apart h b1 b2 -> collide balls i j h = Ok h.
Proof.
  intros E1 E2 Hap. unfold collide, getitem. rewrite E1, E2. cbn [bind]. cbv zeta.
  unfold apart, distance, BALL_RADIUS in Hap.
  set (dx := x (h b2) - x (h b1)) in *. set (dy := y (h b2) - y (h b1)) in *.
  assert (Hnz : dx <> 0 \/ dy <> 0).
  { destruct (Req_dec dx 0) as [Hx | Hx]; [| now left].
    destruct (Req_dec dy 0) as [Hy | Hy]; [| now right].
    exfalso. rewrite Hx, Hy in Hap. unfold hypot in Hap.
    replace (0 * 0 + 0 * 0) with 0 in Hap by ring. rewrite sqrt_0 in Hap. lra. }
  rewrite (guarded_dist_hypot dx dy Hnz).
  assert (E : Rltb (hypot dx dy) (2 * BALL_RADIUS) = false)
    by (apply Rltb_false; unfold BALL_RADIUS; lra).
  now rewrite E.
Qed.

Lemma for_each_fixed {K S : Type} (ks : list K) (body : K -> S -> result S) (s : S) :
  (forall k, In k ks -> body k s = Ok s) -> for_each ks body s = Ok s.
Proof.
  induction ks as [| k ks IH]; intros Hbody; cbn [for_each]; [reflexivity |].
  rewrite Hbody by (now left). cbn [bind].
  apply IH. intros k' Hk'. apply Hbody. now right.
Qed.

Lemma handle_collisions_no_overlap (balls : list ref) (h : Store) :
  (forall i j b1 b2, (i < j)%nat ->
      nth_error balls i = Some b1 -> nth_error balls j = Some b2 ->
      apart h b1 b2) ->
  handle_collisions balls h = Ok h.
Proof.
  intros Hap. unfold handle_collisions.
  apply for_each_fixed. intros i Hi. apply in_range in Hi.
  apply for_each_fixed. intros j Hj. apply in_range in Hj.
  destruct (nth_error balls i) as [b1 |] eqn:E1;
    [| apply nth_error_None in E1; lia].
  destruct (nth_error balls j) as [b2 |] eqn:E2;
    [| apply nth_error_None in E2; lia].
  apply (collide_apart balls i j b1 b2 h E1 E2).
  apply (Hap i j); [lia | assumption | assumption].
Qed.

(** X4: when any two balls at different places of the list are at least two
    radii apart, [handle_collisions] returns the store it was given: no
    position and no velocity is touched. *)
Theorem handle_collisions_apart (balls : list ref) (h : Store) :
  (forall i j b1 b2, (i < j)%nat ->
      nth_error balls i = Some b1 -> nth_error balls j = Some b2 ->
      apart h b1 b2) ->
  handle_collisions balls h = Ok h.
Proof. apply handle_collisions_no_overlap. Qed.

Lemma handle_collisions_apart_witness :
  handle_collisions [0; 1]%nat quiet_store = Ok quiet_store.
Proof.
  apply handle_collisions_apart.
  intros i j b1 b2 Hij E1 E2.
  destruct i as [| [| i]]; destruct j as [| [| j]]; cbn in E1, E2;
    try discriminate; try lia; try (destruct i; discriminate);
    try (destruct j; discriminate).
  injection E1 as <-. injection E2 as <-.
  unfold apart, distance, BALL_RADIUS. cbn [quiet_store x y].
  replace (200 - 200) with 0 by ring. rewrite hypot_axis; lra.
Defined.

(** ** Collisions: kinetic energy *)

Lemma energy_nonneg (b : Ball) : 0 <= energy b.
Proof. unfold energy. nra. Qed.

Lemma total_energy_setattr_x h r v l :
  total_energy (setattr_x h r v) l = total_energy h l.
Proof.
  apply sum_over_ext; intros; unfold energy; now autorewrite with store_reads.
Qed.

Lemma total_energy_setattr_y h r v l :
  total_energy (setattr_y h r v) l = total_energy h l.
Proof.
  apply sum_over_ext; intros; unfold energy; now autorewrite with store_reads.
Qed.

Lemma total_energy_setattr_vx h r v l :
  NoDup l -> In r l ->
  total_energy (setattr_vx h r v) l
  = total_energy h l + (v * v - vx (h r) * vx (h r)).
Proof.
  intros Hd Hi. unfold total_energy, setattr_vx.
  rewrite sum_over_set_in by assumption. unfold energy; cbn [vx vy set_vx]. ring.
Qed.

Lemma total_energy_setattr_vy h r v l :
  NoDup l -> In r l ->
  total_energy (setattr_vy h r v) l
  = total_energy h l + (v * v - vy (h r) * vy (h r)).
Proof.
  intros Hd Hi. unfold total_energy, setattr_vy.
  rewrite sum_over_set_in by assumption. unfold energy; cbn [vx vy set_vy]. ring.
Qed.

(** The collision normal is a unit vector, or zero when the centres
    coincide. *)
Lemma normal_unit_or_zero dx dy :
  let nx := dx / guarded_dist dx dy in
  let ny := dy / guarded_dist dx dy in
  nx * nx + ny * ny = 1 \/ (nx = 0 /\ ny = 0).
Proof.
  cbv zeta.
  destruct (Req_dec dx 0) as [Hx | Hx]; [| left; apply unit_normal; now left].
  destruct (Req_dec dy 0) as [Hy | Hy]; [| left; apply unit_normal; now right].
  right. subst. unfold Rdiv. split; ring.
Qed.

Lemma collide_energy (balls l : list ref) (i j : nat) (h : Store) :
  NoDup l -> incl balls l ->
  (i < List.length balls)%nat -> (j < List.length balls)%nat ->
  exists h', collide balls i j h = Ok h' /\ total_energy h' l = total_energy h l.
Proof.
  intros Hd Hincl Hi Hj. unfold collide.
  destruct (getitem_lt balls i Hi) as (b1 & -> & Hb1).
  destruct (getitem_lt balls j Hj) as (b2 & -> & Hb2).
  apply Hincl in Hb1, Hb2. cbn [bind].
  set (dx := x (h b2) - x (h b1)). set (dy := y (h b2) - y (h b1)).
  pose proof (guarded_dist_pos dx dy) as Hpos.
  pose proof (normal_unit_or_zero dx dy) as Hn. cbv zeta in Hn.
  cbv zeta. case_cmp; [| exists h; split; reflexivity].
  rewrite !div_nonzero by lra. cbn [bind].
  eexists; split; [reflexivity |].
  revert Hn.
  generalize (dx / guarded_dist dx dy) (dy / guarded_dist dx dy); intros nx ny Hn.
  generalize ((2 * BALL_RADIUS - guarded_dist dx dy) / 2); intros half.
  repeat first [ rewrite total_energy_setattr_vx by assumption
               | rewrite total_energy_setattr_vy by assumption
               | rewrite total_energy_setattr_x
               | rewrite total_energy_setattr_y
               | progress autorewrite with store_reads ].
  rewrite ?Nat.eqb_refl.
  generalize (total_energy h l); intros e0.
  destruct (Nat.eqb b2 b1) eqn:E12; destruct (Nat.eqb b1 b2) eqn:E21;
    try (apply Nat.eqb_eq in E12; subst; rewrite Nat.eqb_refl in E21; discriminate);
    try (apply Nat.eqb_eq in E21; subst; rewrite Nat.eqb_refl in E12; discriminate);
    try (apply Nat.eqb_eq in E12; subst).
  - ring.
  - generalize (vx (h b1)) (vy (h b1)) (vx (h b2)) (vy (h b2)); intros u1 w1 u2 w2.
    destruct Hn as [Hn | [-> ->]]; [| ring].
    set (vn1 := u1 * nx + w1 * ny). set (vn2 := u2 * nx + w2 * ny).
    apply Rminus_diag_uniq.
    match goal with
    | |- ?lhs - ?rhs = 0 =>
        replace (lhs - rhs)
          with (2 * (vn2 - vn1) * (vn2 - vn1) * (nx * nx + ny * ny - 1))
          by (unfold vn1, vn2; ring)
    end.
    rewrite Hn. ring.
Qed.

Lemma handle_collisions_energy (balls l : list ref) (h : Store) :
  NoDup l -> incl balls l ->
  exists h', handle_collisions balls h = Ok h' /\ total_energy h' l = total_energy h l.
Proof.
  intros Hd Hincl. unfold handle_collisions.
  apply (for_each_invariant (fun t => total_energy t l = total_energy h l));
    [| reflexivity].
  intros i s Hi Hs. apply in_range in Hi.
  apply (for_each_invariant (fun t => total_energy t l = total_energy h l));
    [| exact Hs].
  intros j s' Hj Hs'. apply in_range in Hj.
  destruct (collide_energy balls l i j s' Hd Hincl) as (h' & E & He); [lia | lia |].
  exists h'; split; [exact E | congruence].
Qed.

(** X5: for every list of balls, [handle_collisions] keeps the total
    kinetic energy of the balls of the list (the sum of [vx^2 + vy^2] over
    the ball objects): the response is elastic, and the pair whose centres
    coincide exchanges nothing. *)
Theorem handle_collisions_conserves_energy (balls : list ref) (h : Store) :
  exists h',
    handle_collisions balls h = Ok h' /\
    total_energy h' (objects balls) = total_energy h (objects balls).
Proof.
  destruct (objects_spec balls) as [Hd Hincl].
  apply handle_collisions_energy; assumption.
Qed.

(** ** The helpers [distance] and [angle_degrees] *)

Lemma hypot_le a b r : 0 <= r -> a * a + b * b <= r * r -> hypot a b <= r.
Proof.
  intros Hr H. unfold hypot.
  rewrite <- (sqrt_square r) by lra.
  apply sqrt_le_1; nra.
Qed.

Lemma hypot_sqr a b : hypot a b * hypot a b = a * a + b * b.
Proof. unfold hypot. apply sqrt_sqrt. nra. Qed.

Lemma hypot_triangle a b c d : hypot (a + c) (b + d) <= hypot a b + hypot c d.
Proof.
  pose proof (hypot_nonneg a b) as Hp. pose proof (hypot_nonneg c d) as Hq.
  pose proof (hypot_sqr a b) as Ep. pose proof (hypot_sqr c d) as Eq.
  set (p := hypot a b) in *. set (q := hypot c d) in *.
  apply hypot_le; [lra |].
  assert (Hcs : a * c + b * d <= p * q).
  { destruct (Rle_dec (a * c + b * d) 0) as [Hneg | Hpos]; [nra |].
    apply Rnot_le_lt in Hpos.
    assert (Hsq : (a * c + b * d) * (a * c + b * d) <= (p * q) * (p * q)).
    { replace ((p * q) * (p * q)) with ((p * p) * (q * q)) by ring.
      rewrite Ep, Eq.
      pose proof (Rle_0_sqr (a * d - b * c)) as Hs. unfold Rsqr in Hs. nra. }
    apply Rnot_lt_le. intros Hlt.
    assert (Hpq : 0 <= p * q) by nra.
    assert ((p * q) * (p * q) < (a * c + b * d) * (a * c + b * d)) by nra.
    lra. }
  nra.
Qed.

(** X6: [distance] is a metric of the table plane: it is never negative, it
    is zero exactly between a point and itself, it is symmetric, and it
    satisfies the triangle inequality. *)
Theorem distance_metric (x1 y1 x2 y2 x3 y3 : R) :
  0 <= distance x1 y1 x2 y2 /\
  (distance x1 y1 x2 y2 = 0 <-> x1 = x2 /\ y1 = y2) /\
  distance x1 y1 x2 y2 = distance x2 y2 x1 y1 /\
  distance x1 y1 x3 y3 <= distance x1 y1 x2 y2 + distance x2 y2 x3 y3.
Proof.
  unfold distance. split; [apply hypot_nonneg |]. split; [| split].
  - split.
    + intros H. apply hypot_zero in H. lra.
    + intros [-> ->]. unfold hypot.
      replace ((x2 - x2) * (x2 - x2) + (y2 - y2) * (y2 - y2)) with 0 by ring.
      apply sqrt_0.
  - unfold hypot. f_equal. ring.
  - replace (x3 - x1) with ((x2 - x1) + (x3 - x2)) by ring.
    replace (y3 - y1) with ((y2 - y1) + (y3 - y2)) by ring.
    apply hypot_triangle.
Qed.

Lemma radians_degrees (r : R) : radians (degrees r) = r.
Proof. unfold radians, degrees. field. apply PI_neq0. Qed.

Lemma hypot_factor dx dy :
  dx <> 0 -> hypot dx dy = Rabs dx * sqrt (1 + (dy / dx)²).
Proof.
  intros Hx. unfold hypot.
  replace (dx * dx + dy * dy) with (dx² * (1 + (dy / dx)²))
    by (unfold Rsqr; field; assumption).
  rewrite sqrt_mult.
  - now rewrite sqrt_Rsqr_abs.
  - apply Rle_0_sqr.
  - pose proof (Rle_0_sqr (dy / dx)). lra.
Qed.

Lemma atan_direction dx dy :
  dx <> 0 ->
  cos (atan (dy / dx)) * hypot dx dy = Rabs dx /\
  sin (atan (dy / dx)) * hypot dx dy = Rabs dx * (dy / dx).
Proof.
  intros Hx. rewrite cos_atan, sin_atan, (hypot_factor dx dy Hx).
  assert (Hs : 0 < sqrt (1 + (dy / dx)²)).
  { apply sqrt_lt_R0. pose proof (Rle_0_sqr (dy / dx)). lra. }
  split; field; lra.
Qed.

(** [math.atan2] gives the direction of [(dx, dy)]. *)
Lemma atan2_direction dy dx :
  dx <> 0 \/ dy <> 0 ->
  cos (atan2 dy dx) * hypot dx dy = dx /\ sin (atan2 dy dx) * hypot dx dy = dy.
Proof.
  intros Hnz. unfold atan2.
  case_cmp.
  - destruct (atan_direction dx dy) as [Ec Es]; [lra |].
    rewrite Ec, Es, Rabs_pos_eq by lra. split; [reflexivity | field; lra].
  - case_cmp.
    + assert (Hx : dx <> 0) by lra.
      destruct (atan_direction dx dy Hx) as [Ec Es].
      rewrite Rabs_left in Ec, Es by lra.
      case_cmp.
      * rewrite neg_cos, neg_sin. split; [lra |].
        replace (- sin (atan (dy / dx)) * hypot dx dy)
          with (- (sin (atan (dy / dx)) * hypot dx dy)) by ring.
        rewrite Es. field; lra.
      * rewrite cos_minus, sin_minus, cos_PI, sin_PI. split; [lra |].
        replace ((sin (atan (dy / dx)) * -1 - cos (atan (dy / dx)) * 0) * hypot dx dy)
          with (- (sin (atan (dy / dx)) * hypot dx dy)) by ring.
        rewrite Es. field; lra.
    + assert (Hx : dx = 0) by lra. subst dx.
      assert (Hy : dy <> 0) by (destruct Hnz; [contradiction | assumption]).
      unfold hypot. replace (0 * 0 + dy * dy) with (dy * dy) by ring.
      case_cmp.
      * rewrite cos_PI2, sin_PI2, sqrt_square by lra. split; ring.
      * case_cmp; [| lra].
        rewrite cos_neg, sin_neg, cos_PI2, sin_PI2.
        replace (dy * dy) with ((- dy) * (- dy)) by ring.
        rewrite sqrt_square by lra. split; ring.
Qed.

Lemma atan2_range dy dx : - PI < atan2 dy dx <= PI.
Proof.
  pose proof PI_RGT_0 as Hpi. unfold atan2.
  pose proof (atan_bound (dy / dx)) as [Hlo Hhi].
  case_cmp; [lra |].
  case_cmp.
  - assert (Hinv : / dx < 0) by (apply Rinv_lt_0_compat; assumption).
    case_cmp.
    + assert (Ht : dy / dx <= 0) by (unfold Rdiv; nra).
      assert (Ha : atan (dy / dx) <= 0).
      { destruct Ht as [Ht | Ht].
        - apply Rlt_le. rewrite <- atan_0. now apply atan_increasing.
        - rewrite Ht, atan_0. lra. }
      lra.
    + assert (Ht : 0 < dy / dx) by (unfold Rdiv; nra).
      assert (Ha : 0 < atan (dy / dx)).
      { rewrite <- atan_0. now apply atan_increasing. }
      lra.
  - case_cmp; [lra |]. case_cmp; lra.
Qed.

Lemma angle_degrees_aim (x1 y1 x2 y2 : R) :
  x1 <> x2 \/ y1 <> y2 ->
  cos (radians (angle_degrees x1 y1 x2 y2)) * distance x1 y1 x2 y2 = x2 - x1 /\
  sin (radians (angle_degrees x1 y1 x2 y2)) * distance x1 y1 x2 y2 = y2 - y1.
Proof.
  intros Hne. unfold angle_degrees. cbv zeta.
  rewrite radians_degrees. unfold distance.
  apply atan2_direction. destruct Hne; [left | right]; lra.
Qed.

(** X7: [angle_degrees] returns an angle in (-180, 180], and 0 between a
    point and itself; whenever the two points differ, a step of the length
    of their distance in the direction of that angle leads from the first
    point to the second. *)
Theorem angle_degrees_direction (x1 y1 x2 y2 : R) :
  -180 < angle_degrees x1 y1 x2 y2 <= 180 /\
  angle_degrees x1 y1 x1 y1 = 0 /\
  (x1 <> x2 \/ y1 <> y2 ->
   cos (radians (angle_degrees x1 y1 x2 y2)) * distance x1 y1 x2 y2 = x2 - x1 /\
   sin (radians (angle_degrees x1 y1 x2 y2)) * distance x1 y1 x2 y2 = y2 - y1).
Proof.
  pose proof PI_RGT_0 as Hpi. unfold angle_degrees. cbv zeta.
  split; [| split].
  - pose proof (atan2_range (y2 - y1) (x2 - x1)) as [Hlo Hhi]. unfold degrees.
    split.
    + apply (Rmult_lt_reg_r PI); [lra |]. field_simplify; lra.
    + apply (Rmult_le_reg_r PI); [lra |]. field_simplify; lra.
  - replace (x1 - x1) with 0 by ring. replace (y1 - y1) with 0 by ring.
    unfold atan2, degrees.
    assert (E : Rltb 0 0 = false) by (apply Rltb_false; lra).
    rewrite !E. unfold Rdiv. ring.
  - intros Hne. rewrite radians_degrees. unfold distance.
    apply atan2_direction. destruct Hne; [left | right]; lra.
Qed.

Lemma angle_degrees_direction_witness :
  (200 <> 600 \/ 200 <> 200) /\
  cos (radians (angle_degrees 200 200 600 200)) * distance 200 200 600 200 = 600 - 200 /\
  sin (radians (angle_degrees 200 200 600 200)) * distance 200 200 600 200 = 200 - 200.
Proof.
  assert (H : 200 <> 600 \/ 200 <> 200) by (left; lra).
  split; [exact H |].
  exact (proj2 (proj2 (angle_degrees_direction 200 200 600 200)) H).
Defined.

(** ** The fallback shot *)

(** X8: when a shot is due and the advisor call fails, the cue ball is sent
    at speed 8 straight at the closest non-cue ball of the list (its
    velocity is 8 times the unit vector from the cue ball to that ball);
    when the list has no non-cue ball, it is sent to the right, with
    velocity (8, 0). *)
Theorem fallback_shot_aims (advisor : Prompt -> Reply) (s : State) (e : exn) :
  at_rest s = true -> (shots_taken s < MAX_SHOTS)%nat -> game_over s = false ->
  advisor (shot_prompt (shot_state s)) = Raise e ->
  let cue := store s (cue_ball s) in
  let cue' := store (turn advisor s) (cue_ball s) in
  (forall cb, closest_ball s = Some cb ->
     x cue <> x (store s cb) \/ y cue <> y (store s cb) ->
     vx cue' * cue_distance s cb = 8 * (x (store s cb) - x cue) /\
     vy cue' * cue_distance s cb = 8 * (y (store s cb) - y cue)) /\
  (closest_ball s = None -> vx cue' = 8 /\ vy cue' = 0) /\
  x cue' = x cue /\ y cue' = y cue.
Proof.
  intros Hrest Hshots Hgo Hreply. cbv zeta.
  rewrite (turn_takes_shot advisor s Hrest Hshots Hgo).
  destruct (take_shot_velocity advisor s) as [Hvx Hvy].
  assert (E : requested_shot advisor (shot_state s) = (fallback_angle s, 8)).
  { unfold requested_shot. rewrite Hreply. reflexivity. }
  rewrite E in Hvx, Hvy. cbn [fst snd] in Hvx, Hvy.
  split; [| split].
  - intros cb Hcb Hne.
    assert (Ef : fallback_angle s
                 = angle_degrees (x (store s (cue_ball s))) (y (store s (cue_ball s)))
                                 (x (store s cb)) (y (store s cb))).
    { unfold fallback_angle, fallback. now rewrite Hcb. }
    destruct (angle_degrees_aim (x (store s (cue_ball s))) (y (store s (cue_ball s)))
                (x (store s cb)) (y (store s cb)) Hne) as [Hc Hs].
    rewrite Hvx, Hvy, Ef. unfold cue_distance.
    split; [rewrite <- Hc | rewrite <- Hs]; ring.
  - intros Hnone.
    assert (Ef : fallback_angle s = 0).
    { unfold fallback_angle, fallback. now rewrite Hnone. }
    rewrite Hvx, Hvy, Ef. unfold radians.
    replace (0 * PI / 180) with 0 by (unfold Rdiv; ring).
    rewrite cos_0, sin_0. split; ring.
  - unfold take_shot, apply_shot.
    destruct (requested_shot advisor _) as [angle_deg power_val].
    cbn [store set_store set_llm_log set_shots_taken cue_ball].
    autorewrite with store_reads. split; reflexivity.
Qed.

Lemma fallback_shot_aims_witness :
  at_rest opening_state = true /\
  closest_ball opening_state = Some 1%nat /\
  vx (store (turn unreachable_advisor opening_state) 0%nat)
  * cue_distance opening_state 1%nat = 8 * (600 - 200) /\
  vy (store (turn unreachable_advisor opening_state) 0%nat)
  * cue_distance opening_state 1%nat = 8 * (200 - 200).
Proof.
  assert (Hrest : at_rest opening_state = true).
  { unfold at_rest. apply negb_true_iff, not_true_iff_false. intros H.
    apply existsb_exists in H as (b & _ & Hm).
    rewrite still_not_moving in Hm; [discriminate | |];
      destruct b as [| b]; reflexivity. }
  assert (Hshots : (shots_taken opening_state < MAX_SHOTS)%nat)
    by (cbn; unfold MAX_SHOTS; lia).
  split; [exact Hrest | split; [reflexivity |]].
  apply (proj1 (fallback_shot_aims unreachable_advisor opening_state RequestException
                  Hrest Hshots eq_refl eq_refl) 1%nat eq_refl).
  left. cbn. lra.
Defined.

(** ** The pattern of [call_llm] *)

Lemma match_here_groups (p : list re_item) :
  forall s g, match_here p s = Some g -> Forall2 group_of (group_classes p) g.
Proof.
  induction p as [| it p IH]; intros s g H.
  - cbn in H. injection H as <-. constructor.
  - destruct it as [c | cls | cls].
    + cbn [match_here] in H. destruct s as [| c' s]; [discriminate |].
      destruct (Ascii.eqb c c'); [| discriminate]. cbn [group_classes]. eauto.
    + cbn [group_classes]. revert g H. cbn [match_here].
      induction s as [| c s IHs]; intros g; [intros H; eauto |].
      destruct (cls c); [| intros H; eauto].
      match goal with
      | |- context [match ?t with Some _ => _ | None => _ end] =>
          case_eq t; [intros g1 E | intros E]
      end.
      * intros [= <-]. apply IHs. exact E.
      * intros H. eauto.
    + cbn [group_classes]. cbn [match_here] in H.
      destruct s as [| c s]; [discriminate |].
      destruct (cls c) eqn:Ec; [| discriminate].
      revert H.
      match goal with
      | |- match ?t with Some _ => _ | None => _ end = _ -> _ =>
          assert (Hplus : forall cap g1, t = Some (cap, g1) ->
                    forallb cls cap = true /\
                    Forall2 group_of (group_classes p) g1);
          [| destruct t as [[cap g1] |]; [| discriminate];
             intros [= <-]; destruct (Hplus cap g1 eq_refl) as [Hc Hg];
             constructor; [split; [discriminate | cbn; now rewrite Ec, Hc] | exact Hg]]
      end.
      clear Ec. induction s as [| d s IHs]; intros cap g1 E.
      * destruct (match_here p []) as [g2 |] eqn:E2; [| discriminate].
        injection E as <- <-. split; [reflexivity | eauto].
      * destruct (cls d) eqn:Ed.
        -- revert E.
           match goal with
           | |- match ?t with Some _ => _ | None => _ end = _ -> _ =>
               case_eq t; [intros [cap' g'] E' | intros E']
           end.
           ++ intros [= <- <-]. destruct (IHs cap' g' E') as [Hc Hg].
              split; [cbn; now rewrite Ed, Hc | exact Hg].
           ++ destruct (match_here p (d :: s)) as [g2 |] eqn:E2; [| discriminate].
              intros [= <- <-]. split; [reflexivity | eauto].
        -- destruct (match_here p (d :: s)) as [g2 |] eqn:E2; [| discriminate].
           injection E as <- <-. split; [reflexivity | eauto].
Qed.

Lemma re_search_groups (p : list re_item) :
  forall s g, re_search p s = Some g -> Forall2 group_of (group_classes p) g.
Proof.
  induction s as [| c s IH]; intros g H; cbn [re_search] in H.
  - destruct (match_here p []) as [g1 |] eqn:E; [| discriminate].
    injection H as <-. eapply match_here_groups; eassumption.
  - destruct (match_here p (c :: s)) as [g1 |] eqn:E.
    + injection H as <-. eapply match_here_groups; eassumption.
    + now apply IH.
Qed.

(** X9: whenever the pattern of [call_llm] is found in a text, the match
    has exactly two groups, and each of them is a non-empty run of
    characters of the class [[\-\d\.]]: unpacking [match.groups()] into
    [angle_str, power_str] cannot fail, and only [float] can reject what
    was captured. *)
Theorem shot_pattern_groups (content : list ascii) (g : list (list ascii)) :
  re_search shot_pattern content = Some g ->
  exists angle_str power_str,
    g = [angle_str; power_str] /\
    group_of is_numchar angle_str /\ group_of is_numchar power_str.
Proof.
  intros H. apply re_search_groups in H.
  change (group_classes shot_pattern) with [is_numchar; is_numchar] in H.
  inversion H as [| c1 a l1 l2 Ha H1]; subst.
  inversion H1 as [| c2 b l3 l4 Hb H2]; subst.
  inversion H2; subst.
  exists a, b. auto.
Qed.

Lemma shot_pattern_groups_witness :
  exists angle_str power_str,
    [list_ascii_of_string "400"; list_ascii_of_string "5"] = [angle_str; power_str] /\
    group_of is_numchar angle_str /\ group_of is_numchar power_str.
Proof.
  exact (shot_pattern_groups _ _ re_search_400_5).
Defined.

(** ** Replies of the requested shape *)

Lemma match_here_lit c p s g :
  match_here p s = Some g -> match_here (Lit c :: p) (c :: s) = Some g.
Proof. intros H. cbn [match_here]. now rewrite Ascii.eqb_refl. Qed.

Lemma match_here_star cls p w s g :
  forallb cls w = true -> stops cls s -> match_here p s = Some g ->
  match_here (Star cls :: p) (w ++ s) = Some g.
Proof.
  intros Hw Hs Hm. cbn [match_here].
  induction w as [| c w IH]; cbn [app].
  - destruct s as [| c s]; [exact Hm |]. cbn in Hs. now rewrite Hs.
  - cbn [forallb] in Hw. apply andb_true_iff in Hw as [Hc Hw].
    rewrite Hc. now rewrite (IH Hw).
Qed.

Lemma match_here_group cls p A s g :
  A <> [] -> forallb cls A = true -> stops cls s -> match_here p s = Some g ->
  match_here (GroupPlus cls :: p) (A ++ s) = Some (A :: g).
Proof.
  intros Hne HA Hs Hm. destruct A as [| c A]; [contradiction |].
  cbn [forallb] in HA. apply andb_true_iff in HA as [Hc HA].
  cbn [match_here app]. rewrite Hc.
  match goal with
  | |- match ?t with Some _ => _ | None => _ end = _ =>
      assert (E : t = Some (A, g)); [| now rewrite E]
  end.
  clear Hc Hne. induction A as [| d A IH]; cbn [app].
  - destruct s as [| d s]; [now rewrite Hm |].
    cbn in Hs. now rewrite Hm, Hs.
  - cbn [forallb] in HA. apply andb_true_iff in HA as [Hd HA].
    rewrite Hd. now rewrite (IH HA).
Qed.

Lemma numchar_not_space (c : ascii) : is_numchar c = true -> is_space c = false.
Proof.
  destruct c as [[] [] [] [] [] [] [] []]; cbn; intros H; try reflexivity; discriminate.
Qed.

Lemma space_not_numchar (c : ascii) : is_space c = true -> is_numchar c = false.
Proof.
  intros H. destruct (is_numchar c) eqn:E; [| reflexivity].
  apply numchar_not_space in E. congruence.
Qed.

Lemma stops_space_group (A s : list ascii) :
  A <> [] -> forallb is_numchar A = true -> stops is_space (A ++ s).
Proof.
  intros Hne HA. destruct A as [| c A]; [contradiction |].
  cbn in HA |- *. apply andb_true_iff in HA as [Hc _]. now apply numchar_not_space.
Qed.

Lemma stops_numchar_spaces (w s : list ascii) :
  forallb is_space w = true -> stops is_numchar s -> stops is_numchar (w ++ s).
Proof.
  intros Hw Hs. destruct w as [| c w]; [exact Hs |].
  cbn in Hw |- *. apply andb_true_iff in Hw as [Hc _]. now apply space_not_numchar.
Qed.

Lemma match_reply_text (w1 w2 w3 w4 w5 w6 w7 w8 A P rest : list ascii) :
  Forall (fun w => forallb is_space w = true) [w1; w2; w3; w4; w5; w6; w7; w8] ->
  group_of is_numchar A -> group_of is_numchar P ->
  match_here shot_pattern (reply_text w1 w2 w3 w4 w5 w6 w7 w8 A P rest) = Some [A; P].
Proof.
  intros Hw [HA1 HA2] [HP1 HP2].
  repeat match goal with
         | H : Forall _ (_ :: _) |- _ => inversion H; clear H; subst
         end.
  unfold reply_text, shot_pattern, lits.
  cbn [list_ascii_of_string map app].
  repeat first
    [ apply match_here_lit
    | apply match_here_star; [assumption | first [reflexivity
        | now apply stops_space_group] |]
    | apply match_here_group; [assumption | assumption
        | apply stops_numchar_spaces; [assumption | reflexivity] |] ].
  reflexivity.
Qed.

Lemma re_search_at_start (p : list re_item) (s : list ascii) (g : list (list ascii)) :
  match_here p s = Some g -> re_search p s = Some g.
Proof. intros H. destruct s; cbn [re_search]; now rewrite H. Qed.

(** X10: a reply of the requested shape, with any white space between the
    tokens and any text after the closing brace, is read as its two
    numerals: [call_llm] returns the angle modulo 360 and the power when
    both numerals are accepted by [float] and are in range, and the
    fallback shot otherwise. *)
Theorem call_llm_reply_text (w1 w2 w3 w4 w5 w6 w7 w8 A P rest : list ascii)
        (fallback_angle : R) :
  Forall (fun w => forallb is_space w = true) [w1; w2; w3; w4; w5; w6; w7; w8] ->
  group_of is_numchar A -> group_of is_numchar P ->
  call_llm (Ok (string_of_list_ascii (reply_text w1 w2 w3 w4 w5 w6 w7 w8 A P rest)))
           fallback_angle
  = match float A, float P with
    | Ok a, Ok p =>
        if angle_power_ok (a - IZR (Zfloor (a / 360)) * 360) p
        then (a - IZR (Zfloor (a / 360)) * 360, p)
        else (fallback_angle, 8)
    | _, _ => (fallback_angle, 8)
    end.
Proof.
  intros Hw HA HP.
  rewrite call_llm_validated. unfold validated_shot, parsed_shot.
  rewrite list_ascii_of_string_of_list_ascii.
  rewrite (re_search_at_start _ _ _ (match_reply_text _ _ _ _ _ _ _ _ _ _ rest Hw HA HP)).
  destruct (float A) as [a |]; [| reflexivity].
  destruct (float P) as [p |]; reflexivity.
Qed.

Lemma call_llm_reply_text_witness :
  group_of is_numchar (list_ascii_of_string "45.5") /\
  group_of is_numchar (list_ascii_of_string "10") /\
  call_llm (Ok (string_of_list_ascii
                  (reply_text [] [] [" "%char] [] [" "%char] [] [" "%char] []
                              (list_ascii_of_string "45.5")
                              (list_ascii_of_string "10") [])))
           0
  = match float (list_ascii_of_string "45.5"), float (list_ascii_of_string "10") with
    | Ok a, Ok p =>
        if angle_power_ok (a - IZR (Zfloor (a / 360)) * 360) p
        then (a - IZR (Zfloor (a / 360)) * 360, p)
        else (0, 8)
    | _, _ => (0, 8)
    end.
Proof.
  assert (HA : group_of is_numchar (list_ascii_of_string "45.5"))
    by (split; [discriminate | reflexivity]).
  assert (HP : group_of is_numchar (list_ascii_of_string "10"))
    by (split; [discriminate | reflexivity]).
  split; [exact HA | split; [exact HP |]].
  apply call_llm_reply_text; [| exact HA | exact HP].
  repeat constructor.
Defined.

(** ** The shot and the counters *)

(** X11: taking a shot changes the velocity of the cue ball and nothing
    else in the store (no position, no other ball, no kind or colour); it
    leaves the list of balls and the outcome as they are, adds one to
    [shots_taken] and sends exactly one prompt. *)
Theorem take_shot_frame (advisor : Prompt -> Reply) (s : State) :
  (forall r, r <> cue_ball s -> store (take_shot advisor s) r = store s r) /\
  x (store (take_shot advisor s) (cue_ball s)) = x (store s (cue_ball s)) /\
  y (store (take_shot advisor s) (cue_ball s)) = y (store s (cue_ball s)) /\
  color (store (take_shot advisor s) (cue_ball s)) = color (store s (cue_ball s)) /\
  same_kind (store (take_shot advisor s) (cue_ball s)) (store s (cue_ball s)) /\
  balls (take_shot advisor s) = balls s /\
  cue_ball (take_shot advisor s) = cue_ball s /\
  game_over (take_shot advisor s) = game_over s /\
  win_message (take_shot advisor s) = win_message s /\
  shots_taken (take_shot advisor s) = (shots_taken s + 1)%nat /\
  llm_log (take_shot advisor s) = (llm_log s ++ [shot_prompt (shot_state s)])%list.
Proof.
  destruct (take_shot_bookkeeping advisor s) as (Hs & Hl & Hb & Hc & Hg & Hw).
  split; [| repeat split; try assumption; try apply take_shot_kind].
  - intros r Hr. unfold take_shot, apply_shot.
    destruct (requested_shot advisor _) as [angle_deg power_val].
    cbn [store set_store set_llm_log set_shots_taken cue_ball].
    unfold setattr_vy, setattr_vx. now rewrite !store_set_other by assumption.
  - unfold take_shot, apply_shot.
    destruct (requested_shot advisor _) as [angle_deg power_val].
    cbn [store set_store set_llm_log set_shots_taken cue_ball].
    now autorewrite with store_reads.
  - unfold take_shot, apply_shot.
    destruct (requested_shot advisor _) as [angle_deg power_val].
    cbn [store set_store set_llm_log set_shots_taken cue_ball].
    now autorewrite with store_reads.
  - unfold take_shot, apply_shot.
    destruct (requested_shot advisor _) as [angle_deg power_val].
    cbn [store set_store set_llm_log set_shots_taken cue_ball].
    unfold setattr_vy, setattr_vx, store_set. now rewrite !Nat.eqb_refl.
Qed.

Section Counters.

Variable advisor : Prompt -> Reply.

(** The counter and the log after step 4. *)
Lemma turn_counts (s : State) :
  (shots_taken (turn advisor s) = shots_taken s /\
   llm_log (turn advisor s) = llm_log s) \/
  ((shots_taken s < MAX_SHOTS)%nat /\
   shots_taken (turn advisor s) = (shots_taken s + 1)%nat /\
   List.length (llm_log (turn advisor s)) = (List.length (llm_log s) + 1)%nat).
Proof.
  unfold turn.
  destruct (at_rest s); [| now left].
  destruct (shots_taken s <? MAX_SHOTS)%nat eqn:E; cbn [andb].
  - destruct (negb (game_over s)).
    + right. apply Nat.ltb_lt in E.
      destruct (take_shot_bookkeeping advisor s) as (Hs & Hl & _).
      split; [exact E | split; [exact Hs |]].
      rewrite Hl, length_app. reflexivity.
    + now left.
  - destruct (negb (game_over s)); [| now left].
    cbv zeta. destruct (falsy _); [| now left].
    destruct (existsb _ _); now left.
Qed.

Lemma tick_returns (s : State) : exists s', tick advisor s = Ok s'.
Proof.
  unfold tick. destruct (negb (game_over s)); [| now exists s].
  destruct (physics_returns s) as (s1 & -> & _). cbn [bind]. eauto.
Qed.

Lemma tick_counts (s s' : State) :
  tick advisor s = Ok s' ->
  (shots_taken s <= shots_taken s')%nat /\
  ((shots_taken s <= MAX_SHOTS)%nat -> (shots_taken s' <= MAX_SHOTS)%nat) /\
  (List.length (llm_log s') + shots_taken s
   = List.length (llm_log s) + shots_taken s')%nat.
Proof.
  unfold tick. destruct (negb (game_over s)).
  - destruct (physics_returns s) as (s1 & -> & _ & Hs & Hl & _). cbn [bind].
    intros [= <-].
    destruct (turn_counts s1) as [[E1 E2] | (Hlt & E1 & E2)];
      rewrite ?E1, ?E2, <- ?Hs, <- ?Hl; repeat split; lia.
  - intros [= <-]. repeat split; lia.
Qed.

Lemma run_counts (n : nat) (s : State) :
  exists s',
    run advisor n s = Ok s' /\
    (shots_taken s <= shots_taken s')%nat /\
    ((shots_taken s <= MAX_SHOTS)%nat -> (shots_taken s' <= MAX_SHOTS)%nat) /\
    (List.length (llm_log s') + shots_taken s
     = List.length (llm_log s) + shots_taken s')%nat.
Proof.
  revert s. induction n as [| n IH]; intros s; cbn [run].
  - exists s. repeat split; lia.
  - destruct (tick_returns s) as [s1 E1]. rewrite E1. cbn [bind].
    destruct (tick_counts s s1 E1) as (A1 & A2 & A3).
    destruct (IH s1) as (s' & E & B1 & B2 & B3).
    exists s'. split; [exact E |]. repeat split; lia.
Qed.

End Counters.

(** X12: whatever the advisor answers, any number of passes of the loop
    returns a state; [shots_taken] never decreases and never goes past
    [MAX_SHOTS] once it is within it; and the number of prompts sent in
    those passes is the number of shots taken in them, so a game that
    starts with no shot taken sends at most [MAX_SHOTS] prompts. *)
Theorem shots_and_prompts (advisor : Prompt -> Reply) (n : nat) (s : State) :
  exists s',
    run advisor n s = Ok s' /\
    (shots_taken s <= shots_taken s')%nat /\
    ((shots_taken s <= MAX_SHOTS)%nat -> (shots_taken s' <= MAX_SHOTS)%nat) /\
    (List.length (llm_log s') + shots_taken s
     = List.length (llm_log s) + shots_taken s')%nat /\
    (shots_taken s = 0%nat -> llm_log s = [] ->
     (List.length (llm_log s') <= MAX_SHOTS)%nat).
Proof.
  destruct (run_counts advisor n s) as (s' & E & H1 & H2 & H3).
  exists s'. split; [exact E |]. repeat split; try assumption.
  intros H0 Hl. rewrite H0, Hl in *. cbn [List.length] in H3.
  specialize (H2 ltac:(lia)). lia.
Qed.

(** ** The outcome of a pass *)

Lemma physics_split (s : State) :
  physics s
  = (s1 <- moved s ;;
     Ok (set_balls (fst (check_pockets s1))
                   (remove_balls (snd (check_pockets s1))
                                 (balls (fst (check_pockets s1)))))).
Proof.
  unfold physics, moved.
  destruct (handle_collisions _ _) as [h |]; cbn [bind]; [| reflexivity].
  now destruct (check_pockets (set_store s h)).
Qed.

Lemma moved_returns (s : State) :
  exists s1, moved s = Ok s1 /\
             balls s1 = balls s /\ cue_ball s1 = cue_ball s /\
             shots_taken s1 = shots_taken s /\ llm_log s1 = llm_log s /\
             game_over s1 = game_over s /\ win_message s1 = win_message s /\
             (forall r, same_kind (store s1 r) (store s r)).
Proof.
  unfold moved.
  destruct (objects_spec (balls s)) as [Hd Hincl].
  destruct (handle_collisions_momentum (balls s) (objects (balls s))
              (update_all (store s) (balls s)) Hd Hincl) as (h & E & _).
  rewrite E. cbn [bind]. eexists; split; [reflexivity |].
  repeat split; try reflexivity;
    cbn [store set_store];
    (eapply same_kind_trans;
     [eapply handle_collisions_kind; exact E | apply update_all_kind]).
Qed.

Section Outcome.

Variable advisor : Prompt -> Reply.

Lemma turn_game_over (s : State) : game_over s = true -> turn advisor s = s.
Proof.
  intros Hg. unfold turn. rewrite Hg, andb_false_r. cbn [negb].
  now destruct (at_rest s).
Qed.

Lemma turn_message (s : State) :
  win_message (turn advisor s) = win_message s \/
  win_message (turn advisor s) = Some MSG_LOSE \/
  (win_message (turn advisor s) = Some MSG_CLEARED /\
   existsb (fun b => is_black (store s b)) (balls s) = false).
Proof.
  unfold turn.
  destruct (at_rest s); [| now left].
  destruct ((shots_taken s <? MAX_SHOTS)%nat && negb (game_over s)).
  - left. now destruct (take_shot_bookkeeping advisor s) as (_ & _ & _ & _ & _ & Hw).
  - destruct (negb (game_over s)); [| now left].
    cbv zeta. destruct (falsy _); [| now left].
    cbn [store balls set_game_over].
    destruct (existsb _ _) eqn:E; [right; now left | right; right; now split].
Qed.

End Outcome.

(** X13: a black ball that is in a pocket when the pocket check of a pass
    starts wins the game in that pass, whatever the shot counter and the
    motion of the balls are: the pass ends with [game_over] and the win
    message, takes no shot and sends no prompt, and all later passes leave
    the state as it is. *)
Theorem black_potted_wins_the_pass (advisor : Prompt -> Reply) (s0 s1 : State) (b : ref) :
  game_over s0 = false -> moved s0 = Ok s1 ->
  In b (balls s1) -> is_black (store s1 b) = true -> in_pocket (store s1 b) ->
  exists s',
    tick advisor s0 = Ok s' /\
    game_over s' = true /\ win_message s' = Some MSG_WIN /\
    shots_taken s' = shots_taken s0 /\ llm_log s' = llm_log s0 /\
    In b (balls s') /\
    (forall n : nat, run advisor n s' = Ok s').
Proof.
  intros Hg0 Hmoved Hin Hblack Hpocket.
  destruct (moved_returns s0) as (s1' & E1 & Hb1 & _ & Hs1 & Hl1 & _).
  rewrite Hmoved in E1. injection E1 as <-.
  destruct (black_potted_wins s1 b Hin Hblack Hpocket) as [Hg Hw].
  pose proof (check_pockets_inv s1) as (Hb & _ & Hs & Hl & _ & _ & Hr & _).
  set (s2 := set_balls (fst (check_pockets s1))
                       (remove_balls (snd (check_pockets s1))
                                     (balls (fst (check_pockets s1))))).
  assert (Hg2 : game_over s2 = true) by exact Hg.
  exists s2.
  split.
  { unfold tick. rewrite Hg0. cbn [negb]. rewrite physics_split, Hmoved. cbn [bind].
    fold s2. now rewrite (turn_game_over advisor s2 Hg2). }
  split; [exact Hg2 |]. split; [exact Hw |].
  split; [cbn; congruence |]. split; [cbn; congruence |].
  split.
  - cbn [s2 balls set_balls]. rewrite Hb. apply remove_balls_keeps; [assumption |].
    intros Hrem. destruct (Hr b Hrem). congruence.
  - intros n. now apply run_game_over.
Qed.

(** X14: a black ball of the list is never removed from it, in any number
    of passes and whatever the advisor answers; so a game with a black ball
    on the table never ends with the "cleared" message. *)
Theorem black_ball_stays (advisor : Prompt -> Reply) (n : nat) (s : State) (b : ref) :
  In b (balls s) -> is_black (store s b) = true ->
  exists s',
    run advisor n s = Ok s' /\
    In b (balls s') /\ is_black (store s' b) = true /\
    (win_message s <> Some MSG_CLEARED -> win_message s' <> Some MSG_CLEARED).
Proof.
  revert s. induction n as [| n IH]; intros s Hin Hblack; cbn [run].
  - exists s. auto.
  - assert (Hstep : exists s1, tick advisor s = Ok s1 /\ In b (balls s1) /\
                               is_black (store s1 b) = true /\
                               (win_message s <> Some MSG_CLEARED ->
                                win_message s1 <> Some MSG_CLEARED)).
    { unfold tick. destruct (negb (game_over s)); [| exists s; auto].
      destruct (physics_returns s) as (s1 & -> & _ & _ & _ & Hk & _ & Hstay & Hout).
      cbn [bind]. eexists; split; [reflexivity |].
      destruct (turn_keeps advisor s1) as (_ & Tb & Tk).
      assert (Hin1 : In b (balls s1)) by (apply Hstay; auto).
      assert (Hb1 : is_black (store s1 b) = true)
        by (destruct (Hk b) as [_ K]; congruence).
      split; [now rewrite Tb |].
      split; [destruct (Tk b) as [_ K]; congruence |].
      intros Hw.
      assert (Hw1 : win_message s1 <> Some MSG_CLEARED).
      { destruct Hout as [[_ E] | [_ E]]; rewrite E; [assumption | discriminate]. }
      destruct (turn_message advisor s1) as [E | [E | [_ E]]].
      - now rewrite E.
      - rewrite E. discriminate.
      - exfalso.
        assert (Ex : existsb (fun b0 => is_black (store s1 b0)) (balls s1) = true)
          by (apply existsb_exists; exists b; auto).
        congruence. }
    destruct Hstep as (s1 & -> & Hin1 & Hb1 & Hw1). cbn [bind].
    destruct (IH s1 Hin1 Hb1) as (s' & E & Hin' & Hb' & Hw').
    exists s'. split; [exact E |]. split; [exact Hin' |]. split; [exact Hb' |].
    intros Hw. apply Hw', Hw1, Hw.
Qed.

Lemma black_ball_stays_witness :
  exists s',
    run unreachable_advisor 5 (initial_state (fun _ => 0%Z)) = Ok s' /\
    In 1%nat (balls s') /\ is_black (store s' 1%nat) = true /\
    (win_message (initial_state (fun _ => 0%Z)) <> Some MSG_CLEARED ->
     win_message s' <> Some MSG_CLEARED).
Proof.
  apply (black_ball_stays unreachable_advisor 5 (initial_state (fun _ => 0%Z)) 1%nat).
  - cbn. auto.
  - reflexivity.
Defined.

(** Balls at rest inside the table are not changed by the update loop. *)
Lemma update_all_still (l : list ref) (h : Store) :
  NoDup l ->
  (forall b, In b l -> in_table (h b) /\ vx (h b) = 0 /\ vy (h b) = 0) ->
  forall r, same_motion (update_all h l r) (h r).
Proof.
  intros Hd Hstill r.
  destruct (in_dec Nat.eq_dec r l) as [Hin | Hout].
  - rewrite update_all_inside by assumption.
    destruct (Hstill r Hin) as (Ht & Hvx & Hvy).
    destruct (update_still (h r) Ht Hvx Hvy) as (E1 & E2 & E3 & E4).
    unfold same_motion. repeat split; congruence.
  - rewrite update_all_outside by assumption. repeat split; reflexivity.
Qed.

Lemma corner_moved_motion (r : ref) :
  same_motion (store corner_moved r) (corner_store r).
Proof.
  cbn [corner_moved store set_store]. apply update_all_still.
  - repeat constructor; cbn; intuition lia.
  - intros b [<- | [<- | [<- | []]]]; cbn;
      unfold in_table, BALL_RADIUS, WIDTH, HEIGHT; cbn; repeat split; lra.
Qed.

Lemma corner_moved_ok : moved corner_state = Ok corner_moved.
Proof.
  unfold moved. cbn [balls store corner_state].
  rewrite handle_collisions_no_overlap; [reflexivity |].
  intros i j b1 b2 Hij E1 E2.
  assert (Hpos : forall r, x (update_all corner_store [0; 1; 2]%nat r) = x (corner_store r) /\
                           y (update_all corner_store [0; 1; 2]%nat r) = y (corner_store r)).
  { intros r. destruct (corner_moved_motion r) as (Ex & Ey & _). now split. }
  unfold apart, distance, BALL_RADIUS.
  destruct (Hpos b1) as [-> ->]. destruct (Hpos b2) as [-> ->].
  apply hypot_ge; [lra |].
  destruct i as [| [| [| i]]]; destruct j as [| [| [| j]]]; cbn in E1, E2;
    try lia; try discriminate;
    try (destruct i; discriminate); try (destruct j; discriminate);
    injection E1 as <-; injection E2 as <-; cbn [corner_store x y]; nra.
Qed.

Lemma black_potted_wins_the_pass_witness :
  moved corner_state = Ok corner_moved /\
  in_pocket (store corner_moved 1%nat) /\
  exists s',
    tick unreachable_advisor corner_state = Ok s' /\
    game_over s' = true /\ win_message s' = Some MSG_WIN /\
    shots_taken s' = shots_taken corner_state /\
    llm_log s' = llm_log corner_state /\
    In 1%nat (balls s') /\
    (forall n : nat, run unreachable_advisor n s' = Ok s').
Proof.
  assert (Hp : in_pocket (store corner_moved 1%nat)).
  { destruct corner_black_in_pocket as (p & Hp & Hd).
    destruct (corner_moved_motion 1%nat) as (Ex & Ey & _).
    exists p. split; [exact Hp |]. now rewrite Ex, Ey. }
  split; [exact corner_moved_ok | split; [exact Hp |]].
  apply (black_potted_wins_the_pass unreachable_advisor corner_state corner_moved 1%nat
           eq_refl corner_moved_ok).
  - cbn. auto.
  - destruct (moved_returns corner_state) as (s1 & E & _ & _ & _ & _ & _ & _ & Hk).
    rewrite corner_moved_ok in E. injection E as <-.
    destruct (Hk 1%nat) as [_ K]. exact K.
  - exact Hp.
Defined.

(** ** Removal of potted balls *)

Lemma list_remove_filter (rb : ref) (l : list ref) :
  NoDup l -> list_remove rb l = filter (fun b => negb (Nat.eqb b rb)) l.
Proof.
  induction l as [| r l IH]; intros Hd; [reflexivity |].
  inversion Hd as [| ? ? Hn Hd']; subst.
  cbn [list_remove filter]. rewrite (Nat.eqb_sym r rb).
  destruct (Nat.eqb rb r) eqn:E; cbn [negb].
  - apply Nat.eqb_eq in E; subst r.
    symmetry. apply forallb_filter_id. apply forallb_forall.
    intros b Hb. apply negb_true_iff, Nat.eqb_neq. intros ->. contradiction.
  - f_equal. now apply IH.
Qed.

Lemma filter_absent (rb : ref) (l : list ref) :
  existsb (Nat.eqb rb) l = false -> filter (fun b => negb (Nat.eqb b rb)) l = l.
Proof.
  intros H. apply forallb_filter_id. apply forallb_forall.
  intros b Hb. apply negb_true_iff, Nat.eqb_neq. intros ->.
  assert (E : existsb (Nat.eqb rb) l = true)
    by (apply existsb_exists; exists rb; split; [assumption | apply Nat.eqb_refl]).
  congruence.
Qed.

Lemma filter_filter (f g : ref -> bool) (l : list ref) :
  filter g (filter f l) = filter (fun b => f b && g b) l.
Proof.
  induction l as [| a l IH]; [reflexivity |].
  cbn [filter]. destruct (f a); cbn [andb filter]; [| exact IH].
  destruct (g a); now rewrite IH.
Qed.

Lemma remove_balls_filter (removed l : list ref) :
  NoDup l ->
  remove_balls removed l = filter (fun b => negb (existsb (Nat.eqb b) removed)) l.
Proof.
  unfold remove_balls. revert l.
  induction removed as [| rb removed IH]; intros l Hd; cbn [fold_left].
  - cbn [existsb negb]. symmetry. apply forallb_filter_id.
    now apply forallb_forall.
  - cbv beta.
    match goal with
    | |- fold_left _ _ ?t = _ =>
        assert (E : t = filter (fun b => negb (Nat.eqb b rb)) l)
    end.
    { destruct (existsb (Nat.eqb rb) l) eqn:Ex.
      - now apply list_remove_filter.
      - symmetry. now apply filter_absent. }
    rewrite E, IH by (now apply NoDup_filter).
    rewrite filter_filter. apply filter_ext. intros b.
    cbn [existsb]. now rewrite negb_orb.
Qed.

Lemma check_balls_keep_in (P : State * list ref -> Prop) (l : list ref) :
  (forall b acc p, In b l -> In p pockets -> P acc -> P (check_pocket b acc p)) ->
  forall acc, P acc -> P (fold_left check_ball l acc).
Proof.
  induction l as [| b l IH]; intros Hstep acc Hacc; cbn [fold_left]; [assumption |].
  apply IH.
  - intros b' acc' p Hb'. apply Hstep. now right.
  - apply check_ball_keeps; [| assumption].
    intros acc' p. apply Hstep. now left.
Qed.

(** Every ball listed for removal is a ball of the list that was in a
    pocket when the check started. *)
Lemma listed_were_potted (s : State) (r : ref) :
  In r (snd (check_pockets s)) -> In r (balls s) /\ in_pocket (store s r).
Proof.
  revert r.
  assert (H : (fun acc => pocket_inv s acc /\
                 forall r, In r (snd acc) -> In r (balls s) /\ in_pocket (store s r))
              (check_pockets s)); [| exact (proj2 H)].
  unfold check_pockets. apply check_balls_keep_in.
  - intros b acc p Hb Hp [Hinv Hlisted].
    split; [now apply check_pocket_inv |].
    pose proof Hinv as (_ & _ & _ & _ & Hk & _).
    destruct (Hk b) as [Kc Kb].
    destruct acc as [s1 removed], p as [px py]. cbn [fst snd] in *.
    unfold check_pocket. cbv zeta.
    case_cmp; [| exact Hlisted].
    destruct (is_black (store s1 b)) eqn:Eb; [exact Hlisted |].
    destruct (is_cue (store s1 b)) eqn:Ec; [exact Hlisted |].
    cbn [snd]. intros r Hr.
    apply in_app_or in Hr as [Hr | [<- | []]]; [now apply Hlisted |].
    split; [exact Hb |].
    destruct (pocket_inv_fixed s (s1, removed) b Hinv) as ((Ex & Ey & _) & _);
      [right; congruence |].
    cbn [fst] in Ex, Ey. exists (px, py). split; [exact Hp |].
    cbn [fst snd]. now rewrite <- Ex, <- Ey.
  - split; [apply pocket_inv_start | intros r []].
Qed.

(** X15: the balls listed for removal by the pocket check are exactly the
    balls of the list that are neither cue nor black and were in a pocket;
    on a list without repeated balls, the list after the removal is the
    old list without them, in the same order. *)
Theorem pocket_check_removes_exactly (s : State) :
  NoDup (balls s) ->
  (forall b, In b (snd (check_pockets s)) <->
             In b (balls s) /\ is_cue (store s b) = false /\
             is_black (store s b) = false /\ in_pocket (store s b)) /\
  remove_balls (snd (check_pockets s)) (balls s)
  = filter (fun b => negb (existsb (Nat.eqb b) (snd (check_pockets s)))) (balls s) /\
  NoDup (remove_balls (snd (check_pockets s)) (balls s)).
Proof.
  intros Hd. split; [| split].
  - intros b. split.
    + intros Hb. destruct (listed_were_potted s b Hb) as [Hin Hp].
      destruct (check_pockets_inv s) as (_ & _ & _ & _ & _ & _ & Hr & _).
      destruct (Hr b Hb). auto.
    + intros (Hin & Hc & Hb & Hp). now apply object_potted_listed.
  - now apply remove_balls_filter.
  - rewrite remove_balls_filter by assumption. now apply NoDup_filter.
Qed.

Lemma pocket_check_removes_exactly_witness :
  NoDup (balls corner_state) /\
  remove_balls (snd (check_pockets corner_state)) (balls corner_state)
  = filter (fun b => negb (existsb (Nat.eqb b) (snd (check_pockets corner_state))))
           (balls corner_state).
Proof.
  assert (Hd : NoDup (balls corner_state)).
  { cbn. repeat constructor; cbn; intuition lia. }
  split; [exact Hd |].
  exact (proj1 (proj2 (pocket_check_removes_exactly corner_state Hd))).
Defined.

(** ** The list of balls over the passes *)

Lemma balls_kept_refl (s : State) : balls_kept s s.
Proof.
  repeat split; auto using incl_refl; intros; contradiction.
Qed.

Lemma balls_kept_trans (s1 s2 s3 : State) :
  balls_kept s1 s2 -> balls_kept s2 s3 -> balls_kept s1 s3.
Proof.
  intros (C1 & I1 & K1 & R1) (C2 & I2 & K2 & R2).
  split; [congruence |]. split; [eapply incl_tran; eassumption |].
  split; [intros r; eapply same_kind_trans; [apply K2 | apply K1] |].
  intros b Hb Hn.
  destruct (in_dec Nat.eq_dec b (balls s2)) as [Hin | Hout].
  - destruct (R2 b Hin Hn) as [A B]. destruct (K1 b) as [Kc Kb]. split; congruence.
  - now apply R1.
Qed.

Section Lists.

Variable advisor : Prompt -> Reply.

Lemma physics_balls (s : State) :
  NoDup (balls s) ->
  exists s1, physics s = Ok s1 /\ NoDup (balls s1) /\ balls_kept s s1.
Proof.
  intros Hd.
  destruct (physics_returns s) as (s1 & E & Hc & _ & _ & Hk & Hsub & Hstay & _).
  exists s1. split; [exact E |].
  split.
  - rewrite physics_split in E.
    destruct (moved_returns s) as (s0 & E0 & Hb0 & _).
    rewrite E0 in E. cbn [bind] in E. injection E as <-.
    cbn [balls set_balls].
    destruct (check_pockets_inv s0) as (Hb & _).
    rewrite Hb, remove_balls_filter by (now rewrite Hb0).
    apply NoDup_filter. now rewrite Hb0.
  - split; [exact Hc |]. split; [exact Hsub |]. split; [exact Hk |].
    intros b Hb Hn.
    destruct (is_cue (store s b)) eqn:Ec; [exfalso; apply Hn, Hstay; auto |].
    destruct (is_black (store s b)) eqn:Eb; [exfalso; apply Hn, Hstay; auto |].
    now split.
Qed.

Lemma tick_balls (s : State) :
  NoDup (balls s) ->
  exists s', tick advisor s = Ok s' /\ NoDup (balls s') /\ balls_kept s s'.
Proof.
  intros Hd. unfold tick.
  destruct (negb (game_over s)); [| exists s; auto using balls_kept_refl].
  destruct (physics_balls s Hd) as (s1 & -> & Hd1 & Hk1). cbn [bind].
  eexists; split; [reflexivity |].
  destruct (turn_keeps advisor s1) as (Tc & Tb & Tk).
  split; [now rewrite Tb |].
  eapply balls_kept_trans; [exact Hk1 |].
  split; [exact Tc |]. split; [rewrite Tb; apply incl_refl |].
  split; [exact Tk |]. intros b Hb Hn. rewrite Tb in Hn. contradiction.
Qed.

Lemma run_balls (n : nat) (s : State) :
  NoDup (balls s) ->
  exists s', run advisor n s = Ok s' /\ NoDup (balls s') /\ balls_kept s s'.
Proof.
  revert s. induction n as [| n IH]; intros s Hd; cbn [run].
  - exists s. auto using balls_kept_refl.
  - destruct (tick_balls s Hd) as (s1 & -> & Hd1 & Hk1). cbn [bind].
    destruct (IH s1 Hd1) as (s' & E & Hd' & Hk').
    exists s'. split; [exact E |]. split; [exact Hd' |].
    eapply balls_kept_trans; eassumption.
Qed.

End Lists.

(** X16: over any number of passes, whatever the advisor answers, the list
    of balls only shrinks: no ball is added, the list stays free of
    repetitions, no ball changes its kind, the cue ball variable keeps
    pointing at the same ball, and every ball that left the list is neither
    a cue ball nor a black ball. *)
Theorem balls_only_shrink (advisor : Prompt -> Reply) (n : nat) (s : State) :
  NoDup (balls s) ->
  exists s',
    run advisor n s = Ok s' /\
    NoDup (balls s') /\
    cue_ball s' = cue_ball s /\
    incl (balls s') (balls s) /\
    (List.length (balls s') <= List.length (balls s))%nat /\
    (forall r, is_cue (store s' r) = is_cue (store s r) /\
               is_black (store s' r) = is_black (store s r)) /\
    (forall b, In b (balls s) -> ~ In b (balls s') ->
               is_cue (store s b) = false /\ is_black (store s b) = false).
Proof.
  intros Hd.
  destruct (run_balls advisor n s Hd) as (s' & E & Hd' & Hc & Hi & Hk & Hr).
  exists s'. split; [exact E |]. split; [exact Hd' |]. split; [exact Hc |].
  split; [exact Hi |]. split; [now apply NoDup_incl_length |].
  split; [exact Hk | exact Hr].
Qed.

Lemma initial_NoDup (randint : nat -> Z) : NoDup (balls (initial_state randint)).
Proof. unfold initial_state. cbn [balls]. apply seq_NoDup. Qed.

Lemma balls_only_shrink_witness :
  exists s',
    run unreachable_advisor 4 (initial_state (fun _ => 0%Z)) = Ok s' /\
    NoDup (balls s') /\
    cue_ball s' = cue_ball (initial_state (fun _ => 0%Z)) /\
    incl (balls s') (balls (initial_state (fun _ => 0%Z))) /\
    (List.length (balls s') <= List.length (balls (initial_state (fun _ => 0%Z))))%nat /\
    (forall r, is_cue (store s' r) = is_cue (store (initial_state (fun _ => 0%Z)) r) /\
               is_black (store s' r) = is_black (store (initial_state (fun _ => 0%Z)) r)) /\
    (forall b, In b (balls (initial_state (fun _ => 0%Z))) -> ~ In b (balls s') ->
               is_cue (store (initial_state (fun _ => 0%Z)) b) = false /\
               is_black (store (initial_state (fun _ => 0%Z)) b) = false).
Proof.
  exact (balls_only_shrink unreachable_advisor 4 (initial_state (fun _ => 0%Z))
           (initial_NoDup (fun _ => 0%Z))).
Defined.

(** ** Kinetic energy over a pass *)

Lemma sum_over_scale f k h h' l :
  (forall r, In r l -> f (h' r) = k * f (h r)) ->
  sum_over f h' l = k * sum_over f h l.
Proof.
  induction l as [| a l IH]; intros He; [cbn; ring |].
  rewrite !sum_over_cons, He by (now left).
  rewrite IH by (intros r Hr; apply He; now right). ring.
Qed.

Lemma sum_over_le f h h' l :
  (forall r, In r l -> f (h' r) <= f (h r)) ->
  sum_over f h' l <= sum_over f h l.
Proof.
  induction l as [| a l IH]; intros He; [cbn; lra |].
  rewrite !sum_over_cons.
  specialize (He a (or_introl eq_refl)) as Ha.
  specialize (IH (fun r Hr => He r (or_intror Hr))). lra.
Qed.

Lemma total_energy_nonneg h l : 0 <= total_energy h l.
Proof.
  unfold total_energy. induction l as [| a l IH]; [cbn; lra |].
  rewrite sum_over_cons. pose proof (energy_nonneg (h a)). lra.
Qed.

Lemma total_energy_filter h (p : ref -> bool) l :
  total_energy h (filter p l) <= total_energy h l.
Proof.
  unfold total_energy. induction l as [| a l IH]; [cbn; lra |].
  cbn [filter]. pose proof (energy_nonneg (h a)).
  destruct (p a); rewrite !sum_over_cons; lra.
Qed.

Lemma total_energy_member h l b : In b l -> energy (h b) <= total_energy h l.
Proof.
  unfold total_energy. induction l as [| a l IH]; intros Hin; [contradiction |].
  rewrite sum_over_cons.
  pose proof (energy_nonneg (h a)). pose proof (total_energy_nonneg h l) as Hl.
  unfold total_energy in Hl.
  destruct Hin as [-> | Hin]; [lra | specialize (IH Hin); lra].
Qed.

Lemma sqr_abs (a : R) : a * a = Rabs a * Rabs a.
Proof. pose proof (Rsqr_abs a) as H. unfold Rsqr in H. exact H. Qed.

Lemma energy_update (b : Ball) :
  energy (update b) = FRICTION * FRICTION * energy b.
Proof.
  unfold energy.
  rewrite (sqr_abs (vx (update b))), (sqr_abs (vy (update b))).
  rewrite update_abs_vx, update_abs_vy.
  rewrite (sqr_abs (vx b)), (sqr_abs (vy b)). ring.
Qed.

Lemma energy_reset (b b' : Ball) : is_reset b' -> energy b' <= energy b.
Proof.
  intros (_ & _ & Hvx & Hvy). unfold energy at 1. rewrite Hvx, Hvy.
  pose proof (energy_nonneg b). lra.
Qed.

(** Steps 1 to 3 take the factor [FRICTION^2] off the kinetic energy of the
    balls of the list, or more. *)
Lemma physics_energy (s : State) :
  NoDup (balls s) ->
  exists s1,
    physics s = Ok s1 /\ NoDup (balls s1) /\
    total_energy (store s1) (balls s1)
    <= FRICTION * FRICTION * total_energy (store s) (balls s).
Proof.
  intros Hd. unfold physics.
  destruct (handle_collisions_energy (balls s) (balls s)
              (update_all (store s) (balls s)) Hd (incl_refl _)) as (h & Eh & He).
  rewrite Eh. cbn [bind].
  pose proof (check_pockets_inv (set_store s h)) as Hinv.
  destruct (check_pockets (set_store s h)) as [s2 removed].
  destruct Hinv as (Hb & _ & _ & _ & _ & Hm & _). cbn [fst snd balls store set_store] in *.
  eexists; split; [reflexivity |].
  cbn [balls store set_balls]. rewrite Hb, remove_balls_filter by assumption.
  split; [now apply NoDup_filter |].
  eapply Rle_trans; [apply total_energy_filter |].
  eapply Rle_trans.
  { apply (sum_over_le energy h (store s2) (balls s)). intros r _.
    destruct (Hm r) as [(_ & _ & Ex & Ey) | (_ & _ & Hreset)].
    - unfold energy. rewrite Ex, Ey. lra.
    - now apply energy_reset. }
  fold (total_energy h (balls s)). rewrite He.
  apply Req_le. apply sum_over_scale. intros r Hr.
  rewrite update_all_inside by assumption. apply energy_update.
Qed.

Lemma small_energy_rest (s : State) :
  total_energy (store s) (balls s) <= 0.0025 -> at_rest s = true.
Proof.
  intros He. unfold at_rest. apply negb_true_iff, not_true_iff_false. intros H.
  apply existsb_exists in H as (b & Hb & Hm).
  pose proof (total_energy_member (store s) (balls s) b Hb) as Hle.
  unfold energy in Hle.
  pose proof (Rabs_pos (vx (store s b))) as Px.
  pose proof (Rabs_pos (vy (store s b))) as Py.
  rewrite (sqr_abs (vx (store s b))), (sqr_abs (vy (store s b))) in Hle.
  unfold is_moving, Rgtb in Hm. apply orb_true_iff in Hm.
  destruct Hm as [Hm | Hm]; apply Rltb_true in Hm; nra.
Qed.

(** X17: on a list without repeated balls, steps 1 to 3 of a pass (update,
    collisions, pocket check) leave at most [FRICTION^2] times the kinetic
    energy that the balls of the list had before: friction takes the factor
    off, collisions keep the energy, and resets and removals only lose
    some. *)
Theorem pass_loses_energy (s : State) :
  NoDup (balls s) ->
  exists s1,
    physics s = Ok s1 /\
    total_energy (store s1) (balls s1)
    <= FRICTION * FRICTION * total_energy (store s) (balls s) /\
    (total_energy (store s1) (balls s1) <= 0.0025 -> at_rest s1 = true).
Proof.
  intros Hd. destruct (physics_energy s Hd) as (s1 & E & _ & He).
  exists s1. split; [exact E | split; [exact He | apply small_energy_rest]].
Qed.

Lemma pass_loses_energy_witness :
  exists s1,
    physics quiet_state = Ok s1 /\
    total_energy (store s1) (balls s1)
    <= FRICTION * FRICTION * total_energy (store quiet_state) (balls quiet_state) /\
    (total_energy (store s1) (balls s1) <= 0.0025 -> at_rest s1 = true).
Proof.
  apply pass_loses_energy.
  cbn. repeat constructor; cbn; intuition lia.
Defined.

(** ** The game ends *)

Lemma threshold_pass (a : R) :
  0 <= a -> exists N : nat, a * (FRICTION * FRICTION) ^ N <= 0.0025.
Proof.
  intros Ha. pose proof FRICTION_bounds as HF.
  assert (Hk : 0 < FRICTION * FRICTION < 1) by nra.
  destruct (pow_lt_1_zero (FRICTION * FRICTION)) with (y := 0.0025 / (a + 1)) as [N HN].
  - rewrite Rabs_pos_eq; lra.
  - apply Rdiv_lt_0_compat; lra.
  - exists N. specialize (HN N (Nat.le_refl N)).
    assert (Hp : 0 < (FRICTION * FRICTION) ^ N) by (apply pow_lt; lra).
    rewrite Rabs_pos_eq in HN by lra.
    assert (Hq : (FRICTION * FRICTION) ^ N * (a + 1) < 0.0025).
    { apply (Rmult_lt_compat_r (a + 1)) in HN; [| lra].
      unfold Rdiv in HN. rewrite Rmult_assoc, Rinv_l in HN by lra. lra. }
    nra.
Qed.

Section Termination.

Variable advisor : Prompt -> Reply.

Lemma run_app (n m : nat) (s : State) :
  run advisor (n + m) s = (s1 <- run advisor n s ;; run advisor m s1).
Proof.
  revert s. induction n as [| n IH]; intros s; cbn [run Nat.add bind]; [reflexivity |].
  destruct (tick advisor s) as [s1 |]; cbn [bind]; [apply IH | reflexivity].
Qed.

Lemma turn_moving (s : State) : at_rest s = false -> turn advisor s = s.
Proof. intros H. unfold turn. now rewrite H. Qed.

Lemma turn_at_rest (s : State) :
  at_rest s = true -> game_over s = false -> win_message s = None ->
  ((shots_taken s < MAX_SHOTS)%nat /\ turn advisor s = take_shot advisor s) \/
  ((MAX_SHOTS <= shots_taken s)%nat /\
   game_over (turn advisor s) = true /\ is_outcome (win_message (turn advisor s)) /\
   shots_taken (turn advisor s) = shots_taken s /\
   balls (turn advisor s) = balls s).
Proof.
  intros Hrest Hg Hw. unfold turn. rewrite Hrest, Hg. cbn [negb].
  destruct (shots_taken s <? MAX_SHOTS)%nat eqn:E; cbn [andb].
  - left. apply Nat.ltb_lt in E. now split.
  - right. apply Nat.ltb_ge in E. split; [exact E |].
    cbv zeta. cbn [win_message set_game_over]. rewrite Hw. cbn [falsy].
    unfold is_outcome.
    destruct (existsb _ _); cbn; repeat split; auto.
Qed.

(** From a state whose energy is at most [0.0025 / FRICTION^(2N)], the game
    is over or a shot is taken within [N + 1] passes. *)
Lemma progress (N : nat) :
  forall s,
    NoDup (balls s) -> game_over s = false -> win_message s = None ->
    total_energy (store s) (balls s) * (FRICTION * FRICTION) ^ N <= 0.0025 ->
    exists n s',
      run advisor n s = Ok s' /\ NoDup (balls s') /\
      ((game_over s' = true /\ is_outcome (win_message s') /\
        shots_taken s' = shots_taken s) \/
       (game_over s' = false /\ win_message s' = None /\
        (shots_taken s < MAX_SHOTS)%nat /\
        shots_taken s' = (shots_taken s + 1)%nat)).
Proof.
  pose proof FRICTION_bounds as HF.
  induction N as [| N IH]; intros s Hd Hg Hw He.
  all: destruct (physics_energy s Hd) as (s1 & E1 & Hd1 & He1).
  all: destruct (physics_returns s) as (s1' & E1' & _ & Hs1 & _ & _ & _ & _ & Hout).
  all: rewrite E1 in E1'; injection E1' as <-.
  all: assert (Etick : tick advisor s = Ok (turn advisor s1))
         by (unfold tick; rewrite Hg, E1; reflexivity).
  all: destruct (game_over s1) eqn:Hg1.
  1,3: exists 1%nat, s1; cbn [run]; rewrite Etick; cbn [bind];
       rewrite (turn_game_over advisor s1 Hg1);
       (split; [reflexivity |]); (split; [exact Hd1 |]); left;
       (split; [exact Hg1 |]); (split; [| exact Hs1]);
       destruct Hout as [[Ho _] | [_ Ho]]; [congruence | left; exact Ho].
  all: assert (Hw1 : win_message s1 = None)
         by (destruct Hout as [[_ Ho] | [Ho _]]; congruence).
  all: destruct (at_rest s1) eqn:Hrest.
  1,3: exists 1%nat, (turn advisor s1); cbn [run]; rewrite Etick; cbn [bind];
       (split; [reflexivity |]);
       destruct (turn_at_rest s1 Hrest Hg1 Hw1) as [[Hlt Et] | (Hge & Tg & To & Ts & Tb)];
       [ rewrite Et;
         destruct (take_shot_bookkeeping advisor s1) as (Bs & _ & Bb & _ & Bg & Bw);
         (split; [now rewrite Bb |]); right;
         (split; [congruence |]); (split; [congruence |]);
         (split; [lia |]); lia
       | (split; [now rewrite Tb |]); left;
         (split; [exact Tg |]); (split; [exact To |]); congruence ].
  - exfalso.
    assert (Hsmall : total_energy (store s1) (balls s1) <= 0.0025).
    { cbn [pow] in He. pose proof (total_energy_nonneg (store s) (balls s)). nra. }
    rewrite (small_energy_rest s1 Hsmall) in Hrest. discriminate.
  - destruct (IH s1 Hd1 Hg1 Hw1) as (n & s' & En & Hd' & Hcase).
    { cbn [pow] in He.
      assert (Hp : 0 <= (FRICTION * FRICTION) ^ N) by (apply pow_le; nra).
      pose proof (total_energy_nonneg (store s) (balls s)).
      pose proof (total_energy_nonneg (store s1) (balls s1)). nra. }
    exists (S n), s'. cbn [run]. rewrite Etick. cbn [bind].
    rewrite (turn_moving s1 Hrest).
    split; [exact En |]. split; [exact Hd' |].
    rewrite <- Hs1. exact Hcase.
Qed.

Lemma ends_within (k : nat) :
  forall s,
    NoDup (balls s) -> game_over s = false -> win_message s = None ->
    (MAX_SHOTS <= shots_taken s + k)%nat ->
    exists n s',
      run advisor n s = Ok s' /\ game_over s' = true /\
      is_outcome (win_message s') /\
      (shots_taken s <= shots_taken s')%nat /\
      ((shots_taken s <= MAX_SHOTS)%nat -> (shots_taken s' <= MAX_SHOTS)%nat).
Proof.
  induction k as [| k IH]; intros s Hd Hg Hw Hk.
  all: destruct (threshold_pass (total_energy (store s) (balls s))
                   (total_energy_nonneg _ _)) as [N HN].
  all: destruct (progress N s Hd Hg Hw HN)
         as (n & s' & En & Hd' & [(Hg' & Ho & Hs) | (Hg' & Hw' & Hlt & Hs)]).
  1,3: exists n, s'; repeat split; try assumption; lia.
  - lia.
  - destruct (IH s' Hd' Hg' Hw' ltac:(lia)) as (m & s'' & Em & Hg'' & Ho & Hle & Hmax).
    exists (n + m)%nat, s''. rewrite run_app, En. cbn [bind].
    repeat split; try assumption; lia.
Qed.

End Termination.

(** X18: the game always ends.  From every state in play (no outcome yet)
    whose list has no repeated ball, and whatever the advisor answers, some
    number of passes reaches [game_over] with one of the three outcome
    messages, with [shots_taken] still within [MAX_SHOTS]; the loop never
    stalls waiting for the balls to stop or for a usable shot. *)
Theorem game_terminates (advisor : Prompt -> Reply) (s : State) :
  NoDup (balls s) -> game_over s = false -> win_message s = None ->
  exists n s',
    run advisor n s = Ok s' /\ game_over s' = true /\
    is_outcome (win_message s') /\
    (shots_taken s <= shots_taken s')%nat /\
    ((shots_taken s <= MAX_SHOTS)%nat -> (shots_taken s' <= MAX_SHOTS)%nat).
Proof.
  intros Hd Hg Hw.
  apply (ends_within advisor MAX_SHOTS s Hd Hg Hw). lia.
Qed.

Lemma game_terminates_witness :
  exists n s',
    run unreachable_advisor n (initial_state (fun _ => 0%Z)) = Ok s' /\
    game_over s' = true /\ is_outcome (win_message s') /\
    (shots_taken (initial_state (fun _ => 0%Z)) <= shots_taken s')%nat /\
    ((shots_taken (initial_state (fun _ => 0%Z)) <= MAX_SHOTS)%nat ->
     (shots_taken s' <= MAX_SHOTS)%nat).
Proof.
  exact (game_terminates unreachable_advisor (initial_state (fun _ => 0%Z))
           (initial_NoDup (fun _ => 0%Z)) eq_refl eq_refl).
Defined.

(** ** More on [Ball.update] and on the opening table *)

Lemma hypot_sqr_eq a b c d : a * a + b * b = c * c + d * d -> hypot a b = hypot c d.
Proof. intros H. unfold hypot. now rewrite H. Qed.

(** X19: [Ball.update] multiplies the speed of the ball by [FRICTION] in
    every case, with or without a reflection on a wall; a ball that is at
    rest is still at rest after the update; and the update never changes
    the kind or the colour of the ball. *)
Theorem update_scales_speed (b : Ball) :
  hypot (vx (update b)) (vy (update b)) = FRICTION * hypot (vx b) (vy b) /\
  (is_moving b = false -> is_moving (update b) = false) /\
  is_cue (update b) = is_cue b /\ is_black (update b) = is_black b /\
  color (update b) = color b.
Proof.
  pose proof FRICTION_bounds as HF.
  split; [| split; [| apply update_keeps_kind]].
  - rewrite Rmult_comm, <- hypot_scale by lra.
    apply hypot_sqr_eq.
    pose proof (energy_update b) as He. unfold energy in He. lra.
  - unfold is_moving, Rgtb. rewrite update_abs_vx, update_abs_vy.
    intros H. apply orb_false_iff in H as [H1 H2].
    apply Rltb_false in H1, H2.
    pose proof (Rabs_pos (vx b)). pose proof (Rabs_pos (vy b)).
    apply orb_false_iff; split; apply Rltb_false; nra.
Qed.

Lemma update_scales_speed_witness :
  is_moving (mkBall 400 200 0.05 0 WHITE true false) = false /\
  is_moving (update (mkBall 400 200 0.05 0 WHITE true false)) = false.
Proof.
  assert (H : is_moving (mkBall 400 200 0.05 0 WHITE true false) = false).
  { unfold is_moving, Rgtb. cbn [vx vy]. rewrite Rabs_R0, Rabs_pos_eq by lra.
    apply orb_false_iff; split; apply Rltb_false; lra. }
  split; [exact H |].
  exact (proj1 (proj2 (update_scales_speed _)) H).
Defined.

Lemma floordiv_3WIDTH_4 : floordiv (3 * WIDTH) 4 = 600.
Proof.
  unfold floordiv, WIDTH.
  replace (Zfloor (3 * 800 / 4)) with 600%Z; [reflexivity |].
  symmetry; apply Zfloor_eq; lra.
Qed.

Lemma initial_positions (randint : nat -> Z) (b : ref) :
  (forall k, (-40 <= randint k <= 40)%Z) ->
  560 <= x (initial_store randint b) <= 640 /\
  160 <= y (initial_store randint b) <= 240 \/
  x (initial_store randint b) = 200 /\ y (initial_store randint b) = 200.
Proof.
  intros Hr. destruct b as [| [| k]]; cbn [initial_store Ball_init x y];
    rewrite ?floordiv_WIDTH_4, ?floordiv_HEIGHT_2, ?floordiv_3WIDTH_4.
  - right. split; reflexivity.
  - left. lra.
  - left.
    destruct (Hr (2 * k)%nat) as [A1 A2]. destruct (Hr (2 * k + 1)%nat) as [B1 B2].
    apply IZR_le in A1, A2, B1, B2. lra.
Qed.

(** X20: the table that [main] sets up, for any draws of
    [random.randint(-40, 40)]: seven different balls, the first one the
    only cue ball and the second one the only black ball, all at rest,
    every one inside the table and none of them in a pocket. *)
Theorem initial_state_well_formed (randint : nat -> Z) :
  (forall k, (-40 <= randint k <= 40)%Z) ->
  let s := initial_state randint in
  List.length (balls s) = 7%nat /\ NoDup (balls s) /\
  cue_inv s /\ at_rest s = true /\
  shots_taken s = 0%nat /\ game_over s = false /\ win_message s = None /\
  (forall b, In b (balls s) ->
     is_cue (store s b) = Nat.eqb b 0 /\ is_black (store s b) = Nat.eqb b 1 /\
     in_table (store s b) /\ ~ in_pocket (store s b)).
Proof.
  intros Hr. cbv zeta.
  split; [reflexivity |]. split; [apply initial_NoDup |].
  split; [apply initial_cue_inv |]. split; [apply initial_at_rest |].
  split; [reflexivity |]. split; [reflexivity |]. split; [reflexivity |].
  intros b Hb. cbn [store initial_state].
  split; [destruct b as [| [| k]]; reflexivity |].
  split; [destruct b as [| [| k]]; reflexivity |].
  pose proof (initial_positions randint b Hr) as Hpos.
  split.
  - unfold in_table, BALL_RADIUS, WIDTH, HEIGHT. destruct Hpos as [[? ?] | [-> ->]]; lra.
  - intros (p & Hp & Hd). revert Hd. apply Rle_not_lt.
    unfold distance, POCKET_RADIUS. apply hypot_ge; [lra |].
    unfold pockets, WIDTH, HEIGHT in Hp.
    destruct Hp as [<- | [<- | [<- | [<- | []]]]]; cbn [fst snd];
      destruct Hpos as [[? ?] | [-> ->]]; nra.
Qed.

Lemma initial_state_well_formed_witness :
  List.length (balls (initial_state (fun _ => 0%Z))) = 7%nat /\
  NoDup (balls (initial_state (fun _ => 0%Z))) /\
  cue_inv (initial_state (fun _ => 0%Z)) /\
  at_rest (initial_state (fun _ => 0%Z)) = true.
Proof.
  assert (Hr : forall k : nat, (-40 <= (fun _ : nat => 0%Z) k <= 40)%Z)
    by (intros k; cbv beta; lia).
  destruct (initial_state_well_formed (fun _ => 0%Z) Hr) as (H1 & H2 & H3 & H4 & _).
  split; [exact H1 | split; [exact H2 | split; [exact H3 | exact H4]]].
Defined.
